(** * Configuration and Status Registers (litex/soc/interconnect/csr.py)

    A shallow embedding of the register-map logic of [csr.py]:
    field aggregation ([CSRFieldAggregate]), the splitting of wide
    registers into bus-word sized simple CSRs ([CSRStatus.do_finalize],
    [CSRStorage.do_finalize]), the bank ([GenericBank]) and the
    hierarchical collection of registers ([_make_gatherer], [csrprefix]).

    Python integers are [Z]; exceptions are values of [exn] carried by
    [result]; mutable objects (register names, the per-component set of
    already prefixed items) live in an explicit [store] keyed by DUID.
    The hardware that [do_finalize] emits is kept as data (one [slot]
    per simple CSR, with its read wire and its write rule) together with
    the combinational and clocked semantics of those statements. *)

From Stdlib Require Import ZArith Lia List Bool.
From stdpp Require Import base decidable option list strings gmap sets sorting pretty.

Local Open Scope Z_scope.

(* ================================================================== *)
(** * Part I: the model *)
(* ================================================================== *)

(** ** Exceptions *)

Inductive exn : Type :=
| ValueError (msg : string)
| AssertionError
| ZeroDivisionError
| UnboundLocalError (var : string)
| IndexError
| TypeError
| AttributeError.

Inductive result (A : Type) : Type :=
| Ok (a : A)
| Raise (e : exn).
Arguments Ok {A} a.
Arguments Raise {A} e.

Definition bind {A B : Type} (c : result A) (k : A -> result B) : result B :=
  match c with
  | Ok a => k a
  | Raise e => Raise e
  end.

#[global] Instance result_bind : MBind result := fun A B k c => bind c k.
#[global] Instance result_ret : MRet result := @Ok.

Definition raises {A : Type} (c : result A) : Prop :=
  match c with
  | Ok _ => False
  | Raise _ => True
  end.

(** ** Bit vectors

    A migen [Signal] of width [w] holds a value in [0, 2^w). *)

Module Bits.

(** The value a [w]-bit signal keeps of [v]. *)
Definition truncate (w v : Z) : Z := Z.land v (Z.ones (Z.max 0 w)).

(** [v[lo:hi]]: bits [lo] (included) to [hi] (excluded) of [v]. *)
Definition slice (v lo hi : Z) : Z := truncate (hi - lo) (Z.shiftr v lo).

(** [Cat(p1, p2, ...)]: the first part takes the least significant
    bits.  A part is a value with the width of its signal. *)
Fixpoint Cat (parts : list (Z * Z)) : Z :=
  match parts with
  | [] => 0
  | (v, w) :: rest => Z.lor (truncate w v) (Z.shiftl (Cat rest) w)
  end.

(** [Replicate(0, n)]: the constant 0 is one bit wide, so this is
    [n] zero bits. *)
Definition Replicate0 (n : Z) : Z * Z := (0, n).

(** The value of [old] after [old[lo:hi].eq(v)]. *)
Definition slice_assign (old lo hi v : Z) : Z :=
  Z.lor (Z.ldiff old (Z.shiftl (Z.ones (Z.max 0 (hi - lo))) lo))
        (Z.shiftl (truncate (hi - lo) v) lo).

End Bits.

(** Python's [a << n] on integers. *)
Definition py_shiftl (a n : Z) : result Z :=
  if n <? 0 then Raise (ValueError "negative shift count") else Ok (Z.shiftl a n).

(** The double quote that the messages of [ValueError] put around a name. *)
Definition dquote : string := String (Ascii.ascii_of_nat 34) EmptyString.

(** ** CSRField *)

Inductive access_mode : Type := write_only | read_only | read_write.

Module CSRField.

Record t : Type := mk {
  name : string;
  size : Z;
  offset : option Z;
  reset_value : Z;
  access : option access_mode;
  pulse : bool
}.

Definition set_offset (f : t) (o : Z) : t :=
  mk (name f) (size f) (Some o) (reset_value f) (access f) (pulse f).

Definition set_access (f : t) (a : access_mode) : t :=
  mk (name f) (size f) (offset f) (reset_value f) (Some a) (pulse f).

End CSRField.

(** ** CSRFieldAggregate *)

Module CSRFieldAggregate.

Definition name_used_msg (n : string) : string :=
  "CSRField " +:+ dquote +:+ n +:+ dquote +:+ " name is already used in CSR register".

Definition overlap_msg (n : string) : string :=
  "CSRField ordering/overlap issue on " +:+ dquote +:+ n +:+ dquote +:+ " field".

(** [check_names]: the loop, with the list [names] built so far. *)
Fixpoint check_names_from (names : list string) (fields : list CSRField.t)
  : result unit :=
  match fields with
  | [] => Ok tt
  | field :: rest =>
      if bool_decide (CSRField.name field ∈ names)
      then Raise (ValueError (name_used_msg (CSRField.name field)))
      else check_names_from (names ++ [CSRField.name field]) rest
  end.

Definition check_names (fields : list CSRField.t) : result unit :=
  check_names_from [] fields.

(** [check_ordering_overlap]: the loop from the running [offset]
    (the cursor).  The fields are returned with the offsets the loop
    has written into them, together with the final cursor. *)
Fixpoint check_ordering_overlap_from (offset : Z) (fields : list CSRField.t)
  : result (Z * list CSRField.t) :=
  match fields with
  | [] => Ok (offset, [])
  | field :: rest =>
      match CSRField.offset field with
      | Some o =>
          if o <? offset
          then Raise (ValueError (overlap_msg (CSRField.name field)))
          else
            r ← check_ordering_overlap_from (o + CSRField.size field) rest;
            Ok (fst r, field :: snd r)
      | None =>
          r ← check_ordering_overlap_from (offset + CSRField.size field) rest;
          Ok (fst r, CSRField.set_offset field offset :: snd r)
      end
  end.

Definition check_ordering_overlap (fields : list CSRField.t)
  : result (Z * list CSRField.t) :=
  check_ordering_overlap_from 0 fields.

(** The access loop of [__init__]. *)
Definition set_field_access (access : access_mode) (field : CSRField.t)
  : result CSRField.t :=
  match CSRField.access field with
  | None => Ok (CSRField.set_access field access)
  | Some fa =>
      match access with
      | read_only =>
          match fa with
          | read_only => Ok field
          | _ => Raise AssertionError
          end
      | read_write =>
          match fa with
          | read_write | write_only => Ok field
          | read_only => Raise AssertionError
          end
      | write_only => Ok field
      end
  end.

(** [setattr(self, field.name, field)].  Python refuses the assignment
    for the names of the special attributes of an object that cannot
    hold a field: [__class__] and [__dict__] with a [TypeError],
    [__weakref__] with an [AttributeError]. *)
Definition setattr_field (field : CSRField.t) : result unit :=
  if bool_decide (CSRField.name field = "__class__")
     || bool_decide (CSRField.name field = "__dict__")
  then Raise TypeError
  else if bool_decide (CSRField.name field = "__weakref__")
       then Raise AttributeError
       else Ok tt.

(** The loop of [__init__] over the fields: the access of the field,
    then the [setattr]. *)
Fixpoint set_accesses (access : access_mode) (fields : list CSRField.t)
  : result (list CSRField.t) :=
  match fields with
  | [] => Ok []
  | field :: rest =>
      f ← set_field_access access field;
      _ ← setattr_field f;
      fs ← set_accesses access rest;
      Ok (f :: fs)
  end.

(** An aggregate that [__init__] has built.  [fields] is the list that
    was given to the constructor, with the offsets and accesses that
    the constructor has written into its fields.  Besides
    [self.fields = fields], the object has one attribute for each field,
    under the name of the field, set by [setattr] after [self.fields]:
    a field named [fields] takes the place of the list, and a field
    named as a method hides the method. *)
Record t : Type := mk { fields : list CSRField.t }.

(** A field has put an attribute of this name on the object. *)
Definition has_attribute (self : t) (n : string) : bool :=
  bool_decide (n ∈ map CSRField.name (fields self)).

(** [CSRFieldAggregate.__init__(fields, access)]. *)
Definition init (fs : list CSRField.t) (access : access_mode) : result t :=
  _ ← check_names fs;
  r ← check_ordering_overlap fs;
  fs' ← set_accesses access (snd r);
  Ok (mk fs').

(** [self.get_size()].  When a field is named [get_size] the attribute
    is that field, which cannot be called; when a field is named
    [fields], [self.fields[-1]] is a one-bit slice of that field, which
    has no [offset]. *)
Definition get_size (self : t) : result Z :=
  if has_attribute self "get_size" then Raise TypeError
  else if has_attribute self "fields" then Raise AttributeError
  else
    match last (fields self) with
    | None => Raise IndexError
    | Some f =>
        match CSRField.offset f with
        | None => Raise TypeError
        | Some o => Ok (o + CSRField.size f)
        end
    end.

Fixpoint get_reset_from (reset : Z) (fs : list CSRField.t) : result Z :=
  match fs with
  | [] => Ok reset
  | field :: rest =>
      match CSRField.offset field with
      | None => Raise TypeError
      | Some o =>
          sh ← py_shiftl (CSRField.reset_value field) o;
          get_reset_from (Z.lor reset sh) rest
      end
  end.

(** [self.get_reset()].  When a field is named [get_reset] the
    attribute is that field, which cannot be called; when a field is
    named [fields], the loop runs over the bits of that field, which
    have no [reset_value]. *)
Definition get_reset (self : t) : result Z :=
  if has_attribute self "get_reset" then Raise TypeError
  else if has_attribute self "fields" then Raise AttributeError
  else get_reset_from 0 (fields self).

End CSRFieldAggregate.

(** ** Python helpers *)

(** [a // b] on integers. Rocq's [Z.div] rounds to the floor, as Python does. *)
Definition py_floordiv (a b : Z) : result Z :=
  if b =? 0 then Raise ZeroDivisionError else Ok (a / b).

(** [reversed(range(n))]. *)
Definition reversed_range (n : Z) : list Z := rev (seqZ 0 n).

(** [str(i)]. *)
Definition str (i : Z) : string := pretty i.

(** migen's [get_obj_var_name(override)]: the given name when there is a
    non-empty one, otherwise what the tracer extracts from the calling
    code ([traced], not modelled further). *)
Definition get_obj_var_name (override traced : option string) : option string :=
  match override with
  | Some n => if bool_decide (n = EmptyString) then traced else Some n
  | None => traced
  end.

(** ** _CSRBase and CSR *)

Module _CSRBase.

Record t : Type := mk { duid : Z; name : string; size : Z }.

(** [_CSRBase.__init__(size, name)]; [duid] is the identifier that
    [DUID.__init__] hands out. *)
Definition init (duid size : Z) (name traced : option string) : result t :=
  match get_obj_var_name name traced with
  | None => Raise (ValueError "Cannot extract CSR name from code, need to specify.")
  | Some n => Ok (mk duid n size)
  end.

End _CSRBase.

Module CSR.

(** A simple CSR as [do_finalize] creates it: [CSR(size, name)]. *)
Record t : Type := mk { size : Z; name : string }.

End CSR.

(** ** The statements that [do_finalize] emits for one simple CSR *)

(** The combinational assignment to [sc.w]. *)
Inductive read_wire : Type :=
| WSlice (lo hi : Z)
    (** [sc.w.eq(src[lo:hi])] *)
| WCatZeros (nzeros lo hi : Z)
    (** [sc.w.eq(Cat(Replicate(0, nzeros), src[lo:hi]))] *)
| WZero.
    (** [sc.w.eq(0)] *)

(** The clocked statement guarded by [sc.re]. *)
Inductive write_rule : Type :=
| NoWrite
| ToBackstore (lo hi : Z)
    (** [If(sc.re, backstore[lo:hi].eq(sc.r))] *)
| Commit
    (** [If(sc.re, storage_full.eq(Cat(sc.r, backstore)))] *)
| ToStorage (lo hi : Z).
    (** [If(sc.re, storage_full[lo:hi].eq(sc.r))] *)

Record slot : Type := mkslot {
  index : Z;          (** the loop variable [i] *)
  sc : CSR.t;         (** the simple CSR *)
  lo : Z;             (** first bit of the register the slot covers *)
  hi : Z;             (** one past the last bit it covers *)
  read : read_wire;
  write : write_rule
}.

(** The value on [sc.w] when the wire reads from a signal holding [src]. *)
Definition wire_value (src : Z) (s : slot) : Z :=
  Bits.truncate (CSR.size (sc s))
    match read s with
    | WSlice l h => Bits.slice src l h
    | WCatZeros nz l h => Bits.Cat [Bits.Replicate0 nz; (Bits.slice src l h, h - l)]
    | WZero => 0
    end.

(** ** CSRStatus *)

Module CSRStatus.

Record t : Type := mk { size : Z; name : string; reset : Z }.

(** The body of the loop of [do_finalize] for index [i]. *)
Definition make_slot (self : t) (busword nwords i : Z) : slot :=
  let nbits := Z.min (size self - i * busword) busword in
  let sc := CSR.mk nbits (if 1 <? nwords then name self +:+ str i else name self) in
  mkslot i sc (i * busword) (i * busword + nbits)
         (WSlice (i * busword) (i * busword + nbits)) NoWrite.

Definition do_finalize (self : t) (busword : Z) : result (list slot) :=
  nwords ← py_floordiv (size self + busword - 1) busword;
  Ok (map (make_slot self busword nwords) (reversed_range nwords)).

End CSRStatus.

(** ** CSRStorage *)

Module CSRStorage.

Record t : Type := mk {
  size : Z;
  name : string;
  reset : Z;
  atomic_write : bool;
  write_from_dev : bool;
  alignment_bits : Z
}.

(** What [do_finalize] leaves behind: the simple CSRs with their
    statements, the width of the back-buffer when there is one, and
    the index of the simple CSR whose strobe drives [self.re]. *)
Record hardware : Type := mkhw {
  slots : list slot;
  backstore_bits : option Z;
  re_source : Z
}.

Definition make_slot (self : t) (busword nwords i : Z) : slot :=
  let nbits := Z.min (size self - i * busword) busword in
  let sc := CSR.mk nbits (if nwords =? 0 then name self else name self +:+ str i) in
  let lo := i * busword in
  let hi := lo + nbits in
  let rd :=
    if alignment_bits self <=? lo then WSlice lo hi
    else if alignment_bits self <? hi
         then WCatZeros (hi - alignment_bits self) (alignment_bits self) hi
         else WZero in
  let wr :=
    if (1 <? nwords) && atomic_write self
    then (if i =? 0 then Commit else ToBackstore (lo - busword) (hi - busword))
    else ToStorage lo hi in
  mkslot i sc lo hi rd wr.

Definition do_finalize (self : t) (busword : Z) : result hardware :=
  nwords ← py_floordiv (size self + busword - 1) busword;
  let backstore :=
    if (1 <? nwords) && atomic_write self then Some (size self - busword) else None in
  let scs := map (make_slot self busword nwords) (reversed_range nwords) in
  match last scs with
  | None => Raise (UnboundLocalError "sc")
  | Some s => Ok (mkhw scs backstore (index s))
  end.

(** *** Clocked behaviour of the emitted statements *)

Record state : Type := mkstate {
  storage_full : Z;
  backstore : Z;
  re : bool
}.

(** What is driven during one clock cycle: the design's [we] and
    [dat_w], and for the simple CSR of index [i] its strobe
    [sc_re i] and its write data [sc_r i]. *)
Record inputs : Type := mkinputs {
  we : bool;
  dat_w : Z;
  sc_re : Z -> bool;
  sc_r : Z -> Z
}.

(** The value on [sc.w]. *)
Definition slot_w (st : state) (s : slot) : Z := wire_value (storage_full st) s.

(** [self.sync += If(self.we, self.storage_full.eq(self.dat_w << alignment_bits))]. *)
Definition dev_write (self : t) (inp : inputs) (nxt : state) : state :=
  if write_from_dev self && we inp
  then mkstate
         (Bits.truncate (size self)
            (Z.shiftl (Bits.truncate (size self - alignment_bits self) (dat_w inp))
                      (alignment_bits self)))
         (backstore nxt) (re nxt)
  else nxt.

(** One guarded statement: right-hand sides read the state [old]
    before the edge, the assignment goes to the state [nxt] being
    built, so that a later statement wins over an earlier one. *)
Definition write_slot (self : t) (busword : Z) (inp : inputs) (old nxt : state)
           (s : slot) : state :=
  if sc_re inp (index s) then
    let r := Bits.truncate (CSR.size (sc s)) (sc_r inp (index s)) in
    match write s with
    | NoWrite => nxt
    | ToBackstore l h =>
        mkstate (storage_full nxt) (Bits.slice_assign (backstore nxt) l h r) (re nxt)
    | Commit =>
        mkstate (Bits.truncate (size self)
                   (Bits.Cat [(r, CSR.size (sc s));
                              (backstore old, size self - busword)]))
                (backstore nxt) (re nxt)
    | ToStorage l h =>
        mkstate (Bits.slice_assign (storage_full nxt) l h r) (backstore nxt) (re nxt)
    end
  else nxt.

(** One clock edge: the statements in the order they were added to
    [self.sync]. *)
Definition sync_step (self : t) (busword : Z) (hw : hardware) (inp : inputs)
           (old : state) : state :=
  let n0 := dev_write self inp old in
  let n1 := fold_left (write_slot self busword inp old) (slots hw) n0 in
  mkstate (storage_full n1) (backstore n1) (sc_re inp (re_source hw)).

(** A bus write of [v] to the simple CSR of index [i], the design not writing. *)
Definition bus_write (i v : Z) : inputs :=
  mkinputs false 0 (fun j => j =? i) (fun _ => v).

(** The signals hold values of their widths. *)
Definition wf_state (self : t) (busword : Z) (st : state) : Prop :=
  0 <= storage_full st < 2 ^ size self
  /\ 0 <= backstore st < 2 ^ (size self - busword).

End CSRStorage.

(** ** Specification vocabulary for field layouts *)

Module FieldSpec.

(** The fields lie one after the other from the cursor [c] on: each
    has an offset at or above the end of the one before. *)
Fixpoint laid_out (c : Z) (fs : list CSRField.t) : Prop :=
  match fs with
  | [] => True
  | f :: rest =>
      exists o, CSRField.offset f = Some o /\ c <= o
                /\ laid_out (o + CSRField.size f) rest
  end.

(** [g] is the declared field [f] after validation: same name, size
    and reset value, and the declared offset when there was one. *)
Definition validated_from (f g : CSRField.t) : Prop :=
  CSRField.name g = CSRField.name f
  /\ CSRField.size g = CSRField.size f
  /\ CSRField.reset_value g = CSRField.reset_value f
  /\ (forall o, CSRField.offset f = Some o -> CSRField.offset g = Some o).

(** The reset value fits the field. *)
Definition reset_fits (f : CSRField.t) : Prop :=
  0 <= CSRField.size f
  /\ 0 <= CSRField.reset_value f < 2 ^ CSRField.size f.

(** The bitwise OR of the reset values, each at its offset. *)
Fixpoint combined (fs : list CSRField.t) : Z :=
  match fs with
  | [] => 0
  | f :: rest =>
      Z.lor (Z.shiftl (CSRField.reset_value f) (default 0 (CSRField.offset f)))
            (combined rest)
  end.

(** Slicing [reset] at the range of [g] gives back the reset value of [g]. *)
Definition reads_back (reset : Z) (g : CSRField.t) : Prop :=
  exists o, CSRField.offset g = Some o
            /\ Bits.slice reset o (o + CSRField.size g) = CSRField.reset_value g.

(** No field carries the name [n], so that the attribute [n] of the
    aggregate is not taken by a field. *)
Definition not_a_field_name (n : string) (fs : list CSRField.t) : Prop :=
  Forall (fun f => CSRField.name f <> n) fs.

(** A field: name, size, offset, reset value. *)
Definition fld (n : string) (sz : Z) (off : option Z) (rst : Z) : CSRField.t :=
  CSRField.mk n sz off rst None false.

End FieldSpec.

(** ** Specification vocabulary for the splitting *)

Module SplitSpec.

Definition Zsum (l : list Z) : Z := foldr Z.add 0 l.

(** [n] is the ceiling of [size / busword]. *)
Definition is_ceil_div (size busword n : Z) : Prop :=
  (n - 1) * busword < size <= n * busword.

(** The slot of index [i] covers bits
    [i*busword, min(size, (i+1)*busword)) and its width is the length
    of that range. *)
Definition covers (size busword : Z) (s : slot) : Prop :=
  lo s = index s * busword
  /\ hi s = Z.min size ((index s + 1) * busword)
  /\ CSR.size (sc s) = hi s - lo s.

Definition widths (sl : list slot) : list Z := map (fun s => CSR.size (sc s)) sl.

Definition split_ok (size busword : Z) (sl : list slot) : Prop :=
  exists n,
    is_ceil_div size busword n
    /\ Z.of_nat (length sl) = n
    /\ map index sl = reversed_range n
    /\ Forall (covers size busword) sl
    /\ Zsum (widths sl) = size.

End SplitSpec.

(** ** Specification vocabulary for the storage data path *)

Module StorageSpec.

(** The number of words [do_finalize] computes. *)
Definition word_count (size busword : Z) : Z := (size + busword - 1) / busword.

(** During the cycle only the simple CSR of index [i] is strobed. *)
Definition strobes_only (inp : CSRStorage.inputs) (i : Z) : Prop :=
  CSRStorage.sc_re inp i = true
  /\ forall j, j <> i -> CSRStorage.sc_re inp j = false.

(** What a slot covering bits [lo, hi) reads back when the bits of
    the stored value [v] below the alignment [a] read as zero and
    the bits at or above it map directly. *)
Definition aligned_read (a v lo hi : Z) : Z :=
  Bits.slice (Z.ldiff v (Z.ones a)) lo hi.

(** The 24-bit atomic register on an 8-bit bus. *)
Definition reg24 : CSRStorage.t := CSRStorage.mk 24 "ctrl" 0 true false 0.

(** An 8-bit register whose two low bits are below the alignment. *)
Definition reg8_aligned : CSRStorage.t := CSRStorage.mk 8 "base" 0 false false 2.

(** The statements [do_finalize] emits for [reg24] on an 8-bit bus. *)
Definition hw24 : CSRStorage.hardware :=
  CSRStorage.mkhw
    [mkslot 2 (CSR.mk 8 "ctrl2") 16 24 (WSlice 16 24) (ToBackstore 8 16);
     mkslot 1 (CSR.mk 8 "ctrl1") 8 16 (WSlice 8 16) (ToBackstore 0 8);
     mkslot 0 (CSR.mk 8 "ctrl0") 0 8 (WSlice 0 8) Commit]
    (Some 16) 0.

End StorageSpec.

(** ** Specification vocabulary for the wiring of the slots *)

Module WiringSpec.

(** The read wire of the simple CSR of index [i] of a status register
    takes bits [i*busword, min(size, (i+1)*busword)) of the status, and
    there is no write statement. *)
Definition status_wired (size busword : Z) (s : slot) : Prop :=
  read s = WSlice (index s * busword) (Z.min size ((index s + 1) * busword))
  /\ write s = NoWrite.

(** The statements of the simple CSR of index [i] of a storage
    register, on the range [l, h) = [i*busword, min(size, (i+1)*busword)):
    the write goes to bits [l, h) of the stored value, or, with atomic
    write over several words, to the same bits of the back-buffer
    (which starts at bit [busword]) for [i > 0] and to the whole stored
    value for [i = 0]; the read wire is the one that the position of
    the range against the alignment selects. *)
Definition storage_wired (self : CSRStorage.t) (busword : Z) (s : slot) : Prop :=
  let l := index s * busword in
  let h := Z.min (CSRStorage.size self) ((index s + 1) * busword) in
  write s
  = (if (1 <? StorageSpec.word_count (CSRStorage.size self) busword)
        && CSRStorage.atomic_write self
     then (if index s =? 0 then Commit else ToBackstore (l - busword) (h - busword))
     else ToStorage l h)
  /\ read s
     = (if CSRStorage.alignment_bits self <=? l then WSlice l h
        else if CSRStorage.alignment_bits self <? h
             then WCatZeros (h - CSRStorage.alignment_bits self)
                            (CSRStorage.alignment_bits self) h
             else WZero).

End WiringSpec.

(** ** GenericBank *)

(** [int.bit_length()]. *)
Definition bit_length (n : Z) : Z :=
  if n =? 0 then 0 else Z.log2 (Z.abs n) + 1.

(** [log2_int(n, need_pow2=False)] and [bits_for(n)] of
    [migen.fhdl.bitcontainer], which [csr.py] gets through
    [from migen import *]: the number of bits needed to write [n]. *)
Definition log2_int (n : Z) : Z :=
  if n =? 0 then 0 else bit_length (n - 1).

Definition bits_for (n : Z) : Z :=
  if 0 <? n then log2_int (n + 1) else log2_int (- n) + 1.

(** An entry of the description given to a bank. *)
Inductive csr_description : Type :=
| DCSR (c : CSR.t)
| DStatus (c : CSRStatus.t)
| DStorage (c : CSRStorage.t).

Module GenericBank.

Record t : Type := mk { simple_csrs : list CSR.t; decode_bits : Z }.

(** The loop of [__init__] over the description, from the list
    [acc] of simple CSRs gathered so far. *)
Fixpoint gather (description : list csr_description) (busword : Z)
         (acc : list CSR.t) : result (list CSR.t) :=
  match description with
  | [] => Ok acc
  | DCSR c :: rest =>
      if CSR.size c <=? busword
      then gather rest busword (acc ++ [c])
      else Raise AssertionError
  | DStatus c :: rest =>
      sl ← CSRStatus.do_finalize c busword;
      gather rest busword (acc ++ map sc sl)
  | DStorage c :: rest =>
      hw ← CSRStorage.do_finalize c busword;
      gather rest busword (acc ++ map sc (CSRStorage.slots hw))
  end.

Definition init (description : list csr_description) (busword : Z) : result t :=
  scs ← gather description busword [];
  Ok (mk scs (bits_for (Z.of_nat (length scs) - 1))).

Definition slot_count (self : t) : Z := Z.of_nat (length (simple_csrs self)).

(** The width the specification gives:
    ceil(log2(max(1, slot_count - 1))). *)
Definition spec_decode_width (slot_count : Z) : Z :=
  Z.log2_up (Z.max 1 (slot_count - 1)).

End GenericBank.

(** ** AutoCSR: collecting the registers of a component tree *)

(** The mutable part of the objects: the name of each register, by
    DUID, and the set [__prefixed] of each component that has one, by
    the identity of the component. *)
Record store : Type := mkstore {
  names : gmap Z string;
  prefixed : gmap Z (gset Z)
}.

(** The value of an attribute, as the gatherer of [get_csrs] sees it. *)
#[warnings="-register-all"]
Inductive node : Type :=
| Csr (duid : Z)
    (** an instance of [_CSRBase] *)
| Provider (items : list Z)
    (** an object with a [get_csrs] method of its own, returning [items] *)
| Auto (cid : Z) (exclude : list string) (attrs : list (string * node))
    (** an [AutoCSR] component: its identity, its [autocsr_exclude] and
        the pairs that [xdir(self, True)] yields, in that order *)
| Other.
    (** anything else *)

(** The set behind the reference [done]. *)
Definition done_set (s : store) (done : Z) : gset Z := default ∅ (prefixed s !! done).

(** [csrprefix(prefix, csrs, done)]; [done] is the component whose
    [__prefixed] set is passed. *)
Fixpoint csrprefix (prefix : string) (csrs : list Z) (done : Z) (s : store) : store :=
  match csrs with
  | [] => s
  | csr :: rest =>
      csrprefix prefix rest done
        (if bool_decide (csr ∈ done_set s done) then s
         else mkstore (alter (String.append prefix) csr (names s))
                      (<[done := {[csr]} ∪ done_set s done]> (prefixed s)))
  end.

(** [try: prefixed = self.__prefixed
     except AttributeError: prefixed = self.__prefixed = set()]. *)
Definition get_prefixed (cid : Z) (s : store) : store :=
  match prefixed s !! cid with
  | Some _ => s
  | None => mkstore (names s) (<[cid := ∅]> (prefixed s))
  end.

(** [sorted(r, key=lambda x: x.duid)]. *)
Definition sorted_by_duid (r : list Z) : list Z := merge_sort Z.le r.

(** One round of the loop of [gatherer] over [xdir(self, True)];
    [call] is [getattr(v, method)()]. *)
Definition gather_attr (call : node -> store -> list Z * store)
           (cid : Z) (exclude : list string)
           (acc : list Z * store) (kv : string * node) : list Z * store :=
  match kv with
  | (k, v) =>
      if bool_decide (k ∈ exclude) then acc
      else
        match v with
        | Csr d => (fst acc ++ [d], snd acc)
        | Other => acc
        | _ =>
            let res := call v (snd acc) in
            (fst acc ++ fst res, csrprefix (k +:+ "_") (fst res) cid (snd res))
        end
  end.

(** [get_csrs] called on the value [v]. *)
Fixpoint get_csrs (v : node) (s : store) : list Z * store :=
  match v with
  | Auto cid exclude attrs =>
      let res := fold_left (gather_attr get_csrs cid exclude) attrs ([], get_prefixed cid s) in
      (sorted_by_duid (fst res), snd res)
  | Provider items => (items, s)
  | Csr _ | Other => ([], s)
  end.

(** The names of the items of a list, as an observer reads them. *)
Definition item_names (s : store) (r : list Z) : list (option string) :=
  map (fun d => names s !! d) r.

(** ** Specification vocabulary for the collection *)

Module CollectSpec.

(** The value has a callable [get_csrs]. *)
Definition is_collector (v : node) : bool :=
  match v with
  | Auto _ _ _ | Provider _ => true
  | Csr _ | Other => false
  end.

(** What one attribute adds to the list [r] of the gatherer. *)
Definition attr_ids (call : node -> list Z) (exclude : list string)
           (kv : string * node) : list Z :=
  match kv with
  | (k, v) =>
      if bool_decide (k ∈ exclude) then []
      else
        match v with
        | Csr d => [d]
        | Other => []
        | _ => call v
        end
  end.

(** The items that [get_csrs] returns on [v]. *)
Fixpoint ids (v : node) : list Z :=
  match v with
  | Auto cid exclude attrs => sorted_by_duid (concat (map (attr_ids ids exclude) attrs))
  | Provider items => items
  | Csr _ | Other => []
  end.

(** The merged list [r] of a component, before it is sorted. *)
Definition merged (exclude : list string) (attrs : list (string * node)) : list Z :=
  concat (map (attr_ids ids exclude) attrs).

(** From [s] to [s'] the sets of prefixed items only grow and names
    only get prefixes; an item that enters a set gets a prefix that is
    not empty. *)
Definition evolves (s s' : store) : Prop :=
  (forall c, done_set s c ⊆ done_set s' c)
  /\ (forall d n, names s !! d = Some n ->
        exists p, names s' !! d = Some (p +:+ n)
                  /\ ((exists c, (d ∉ done_set s c) /\ (d ∈ done_set s' c))
                      -> p <> EmptyString)).

(** The two stores show the same names and the same sets. *)
Definition same_view (s s' : store) : Prop :=
  names s' = names s /\ forall c, done_set s' c = done_set s c.

(** Every component below [v] has in its set the items of each of its
    collector attributes. *)
#[warnings="-register-all"]
Inductive covered (s : store) : node -> Prop :=
| covered_csr d : covered s (Csr d)
| covered_provider items : covered s (Provider items)
| covered_other : covered s Other
| covered_auto cid exclude attrs :
    Forall (fun kv : string * node =>
              fst kv ∉ exclude -> is_collector (snd kv) = true ->
              covered s (snd kv)
              /\ forall d, d ∈ ids (snd kv) -> d ∈ done_set s cid) attrs ->
    covered s (Auto cid exclude attrs).

(** The components A (registers of ids 3 and 1) and B (register of id
    2) under one root, and the same root with its attributes the other
    way round. *)
Definition compA : node := Auto 10 [] [("x", Csr 3); ("y", Csr 1)].
Definition compB : node := Auto 11 [] [("z", Csr 2)].
Definition rootAB : node := Auto 12 [] [("a", compA); ("b", compB); ("n", Other)].
Definition rootBA : node := Auto 12 [] [("n", Other); ("b", compB); ("a", compA)].
Definition store0 : store :=
  mkstore (list_to_map [(1, "r1"); (2, "r2"); (3, "r3")]) ∅.

End CollectSpec.


(** ** Registers built from fields, and the storage view *)

(** Python's [a >> n]. *)
Definition py_shiftr (a n : Z) : result Z :=
  if n <? 0 then Raise (ValueError "negative shift count") else Ok (Z.shiftr a n).

(** migen's [Signal(nbits, reset=r)] for an integer [r], as far as it
    can fail here: the reset constant [Constant(r, (nbits, False))] is
    built first and refuses a width that is not strictly positive. *)
Definition Signal_new (nbits : Z) : result unit :=
  if nbits <=? 0 then Raise TypeError else Ok tt.

(** [CSRStatus.__init__(size, reset, fields, name)]: with fields, the
    size and the reset value are those of the aggregate; then the name
    of the register, and the [status] signal of the size of the
    register.  The loop over the fields that follows drives slices of
    [status] from the fields and cannot fail. *)
Definition CSRStatus_init (size reset : Z) (fields : list CSRField.t)
           (name traced : option string) : result CSRStatus.t :=
  sr ← (match fields with
        | [] => Ok (size, reset)
        | _ :: _ =>
            agg ← CSRFieldAggregate.init fields read_only;
            sz ← CSRFieldAggregate.get_size agg;
            rst ← CSRFieldAggregate.get_reset agg;
            Ok (sz, rst)
        end);
  match get_obj_var_name name traced with
  | None => Raise (ValueError "Cannot extract CSR name from code, need to specify.")
  | Some n =>
      _ ← Signal_new (fst sr);
      Ok (CSRStatus.mk (fst sr) n (snd sr))
  end.

(** [CSRStorage.__init__(size, reset, fields, atomic_write,
    write_from_dev, alignment_bits, name)]: with fields, the size and
    the reset value are those of the aggregate; then the name of the
    register, the signal [storage_full] of the size of the register,
    and the signal [storage] of the bits above the alignment, with the
    shifted reset value.  The signals [re], [we] and [dat_w] add no
    failure of their own.  The loop over the fields reads
    [self.storage.re] at the first pulse field, an attribute that a
    signal does not have. *)
Definition CSRStorage_init (size reset : Z) (fields : list CSRField.t)
           (atomic_write write_from_dev : bool) (alignment_bits : Z)
           (name traced : option string) : result CSRStorage.t :=
  sr ← (match fields with
        | [] => Ok (size, reset)
        | _ :: _ =>
            agg ← CSRFieldAggregate.init fields read_write;
            sz ← CSRFieldAggregate.get_size agg;
            rst ← CSRFieldAggregate.get_reset agg;
            Ok (sz, rst)
        end);
  match get_obj_var_name name traced with
  | None => Raise (ValueError "Cannot extract CSR name from code, need to specify.")
  | Some n =>
      _ ← Signal_new (fst sr);
      _ ← py_shiftr (snd sr) alignment_bits;
      _ ← Signal_new (fst sr - alignment_bits);
      if existsb CSRField.pulse fields then Raise AttributeError
      else Ok (CSRStorage.mk (fst sr) n (snd sr) atomic_write write_from_dev
                 alignment_bits)
  end.

(** The value of [self.storage], driven by
    [self.storage.eq(self.storage_full[self.alignment_bits:])]. *)
Definition storage_view (self : CSRStorage.t) (st : CSRStorage.state) : Z :=
  Bits.truncate (CSRStorage.size self - CSRStorage.alignment_bits self)
    (Bits.slice (CSRStorage.storage_full st)
       (CSRStorage.alignment_bits self) (CSRStorage.size self)).

(** [CSRStorage.read()]: [(yield self.storage) << self.alignment_bits]. *)
Definition CSRStorage_read (self : CSRStorage.t) (st : CSRStorage.state) : result Z :=
  py_shiftl (storage_view self st) (CSRStorage.alignment_bits self).

(** Clock edges one after the other, one [inputs] per cycle. *)
Definition run (self : CSRStorage.t) (busword : Z) (hw : CSRStorage.hardware)
           (cycles : list CSRStorage.inputs) (st : CSRStorage.state) : CSRStorage.state :=
  fold_left (fun s inp => CSRStorage.sync_step self busword hw inp s) cycles st.

(** ** Vocabulary for the additional properties *)

Module ExtraSpec.

(** The field [f] ends at or before the offset of [g]. *)
Definition ends_before (f g : CSRField.t) : Prop :=
  exists o_f o_g,
    CSRField.offset f = Some o_f /\ CSRField.offset g = Some o_g
    /\ o_f + CSRField.size f <= o_g.

(** The access [m] of a field agrees with the access of its aggregate. *)
Definition access_agrees (agg_access m : access_mode) : Prop :=
  match agg_access with
  | read_only => m = read_only
  | read_write => m <> read_only
  | write_only => True
  end.

(** The simple CSRs one entry of a description gives to the bank. *)
Definition entry_csrs (busword : Z) (d : csr_description) : result (list CSR.t) :=
  match d with
  | DCSR c => if CSR.size c <=? busword then Ok [c] else Raise AssertionError
  | DStatus c => sl ← CSRStatus.do_finalize c busword; Ok (map sc sl)
  | DStorage c => hw ← CSRStorage.do_finalize c busword; Ok (map sc (CSRStorage.slots hw))
  end.

(** The number of simple CSRs one entry of a description takes. *)
Definition entry_words (busword : Z) (d : csr_description) : Z :=
  match d with
  | DCSR _ => 1
  | DStatus c => StorageSpec.word_count (CSRStatus.size c) busword
  | DStorage c => StorageSpec.word_count (CSRStorage.size c) busword
  end.

(** The size of the register of an entry. *)
Definition entry_size (d : csr_description) : Z :=
  match d with
  | DCSR c => CSR.size c
  | DStatus c => CSRStatus.size c
  | DStorage c => CSRStorage.size c
  end.

(** The items that the collector attributes of a component bring in. *)
Definition collected (exclude : list string) (attrs : list (string * node)) : list Z :=
  concat (map (fun kv : string * node =>
                 if bool_decide (fst kv ∈ exclude) then []
                 else if CollectSpec.is_collector (snd kv) then CollectSpec.ids (snd kv)
                      else []) attrs).

(** The attributes that are not excluded. *)
Definition kept (exclude : list string) (attrs : list (string * node))
  : list (string * node) :=
  filter (fun kv : string * node => fst kv ∉ exclude) attrs.

(** A write of the word [d i] to each simple CSR, from the highest
    index down to index 0. *)
Definition write_high_to_low (nwords : Z) (d : Z -> Z) : list CSRStorage.inputs :=
  map (fun i => CSRStorage.bus_write i (d i)) (reversed_range nwords).

(** A 16-bit register written word by word, on an 8-bit bus, and a
    32-bit register that the design can write, aligned on 4 bits. *)
Definition reg16 : CSRStorage.t := CSRStorage.mk 16 "cfg" 0 false false 0.
Definition hw16 : CSRStorage.hardware :=
  CSRStorage.mkhw
    [mkslot 1 (CSR.mk 8 "cfg1") 8 16 (WSlice 8 16) (ToStorage 8 16);
     mkslot 0 (CSR.mk 8 "cfg0") 0 8 (WSlice 0 8) (ToStorage 0 8)]
    None 0.
Definition reg32_dev : CSRStorage.t := CSRStorage.mk 32 "base" 0 false true 4.
Definition hw32_dev : CSRStorage.hardware :=
  CSRStorage.mkhw
    [mkslot 0 (CSR.mk 32 "base0") 0 32 (WCatZeros 28 4 32) (ToStorage 0 32)]
    None 0.

(** A register narrower than the bus, and what [do_finalize] makes of
    it on a bus of 32 bits. *)
Definition reg8_wide : CSRStorage.t := CSRStorage.mk 8 "ctl" 0 true true 0.
Definition hw8_wide : CSRStorage.hardware :=
  CSRStorage.mkhw
    [mkslot 0 (CSR.mk 8 "ctl0") 0 8 (WSlice 0 8) (ToStorage 0 8)]
    None 0.

(** The signals that exist hold values of their widths: the stored
    value, and the back-buffer when [do_finalize] has created one. *)
Definition within_widths (self : CSRStorage.t) (hw : CSRStorage.hardware)
           (st : CSRStorage.state) : Prop :=
  0 <= CSRStorage.storage_full st < 2 ^ CSRStorage.size self
  /\ match CSRStorage.backstore_bits hw with
     | Some w => 0 <= CSRStorage.backstore st < 2 ^ w
     | None => True
     end.

End ExtraSpec.

(* ================================================================== *)
(** * Part II: properties *)
(* ================================================================== *)

(** ** Bit-level facts *)

Lemma testbit_truncate (w v n : Z) :
  0 <= n -> Z.testbit (Bits.truncate w v) n = Z.testbit v n && (n <? w).
Proof.
  intros Hn. unfold Bits.truncate.
  rewrite Z.land_spec, Z.testbit_ones_nonneg by lia.
  f_equal. destruct (Z.ltb_spec n (Z.max 0 w)), (Z.ltb_spec n w); lia.
Qed.

Lemma testbit_slice (v lo hi n : Z) :
  0 <= n ->
  Z.testbit (Bits.slice v lo hi) n = Z.testbit v (n + lo) && (n <? hi - lo).
Proof.
  intros Hn. unfold Bits.slice.
  rewrite testbit_truncate, Z.shiftr_spec by lia. reflexivity.
Qed.

Lemma testbit_above (v w n : Z) :
  0 <= v < 2 ^ w -> w <= n -> Z.testbit v n = false.
Proof.
  intros [Hv Hlt] Hn.
  destruct (Z.eq_dec v 0) as [->|Hne]; [apply Z.bits_0|].
  assert (0 <= w) by (destruct (Z.le_gt_cases 0 w); [lia|rewrite Z.pow_neg_r in Hlt; lia]).
  apply Z.bits_above_log2; [lia|].
  apply Z.lt_le_trans with w; [|lia].
  apply Z.log2_lt_pow2; lia.
Qed.

Lemma truncate_range (w v : Z) : 0 <= Bits.truncate w v < 2 ^ Z.max 0 w.
Proof.
  unfold Bits.truncate. rewrite Z.land_ones by lia.
  apply Z.mod_pos_bound. apply Z.pow_pos_nonneg; lia.
Qed.

Lemma truncate_small (w v : Z) : 0 <= v < 2 ^ w -> Bits.truncate w v = v.
Proof.
  intros Hv.
  assert (0 <= w) by (destruct (Z.le_gt_cases 0 w); [lia|rewrite Z.pow_neg_r in Hv; lia]).
  unfold Bits.truncate. rewrite Z.max_r, Z.land_ones by lia.
  apply Z.mod_small; lia.
Qed.

(** ** Field layout: [check_ordering_overlap] *)

Ltac unfold_bind := unfold mbind, result_bind, bind in *.
Ltac names_differ := repeat (constructor; [simpl; discriminate|]); constructor.

Section FieldLayout.
Import CSRFieldAggregate.

(** The loop over [pre ++ post] is the loop over [pre] followed by the
    loop over [post] from the cursor that [pre] leaves. *)
Lemma check_ordering_overlap_from_app (c : Z) (pre post : list CSRField.t) :
  check_ordering_overlap_from c (pre ++ post) =
    (r1 ← check_ordering_overlap_from c pre;
     r2 ← check_ordering_overlap_from (fst r1) post;
     Ok (fst r2, snd r1 ++ snd r2)).
Proof.
  revert c. induction pre as [|f pre IH]; intros c; simpl.
  - unfold_bind. destruct (check_ordering_overlap_from c post) as [[c' out]|e]; reflexivity.
  - destruct (CSRField.offset f) as [o|].
    + destruct (o <? c); [reflexivity|].
      rewrite IH. unfold_bind.
      destruct (check_ordering_overlap_from _ pre) as [[c1 o1]|e]; simpl; [|reflexivity].
      destruct (check_ordering_overlap_from c1 post) as [[c2 o2]|e]; reflexivity.
    + rewrite IH. unfold_bind.
      destruct (check_ordering_overlap_from _ pre) as [[c1 o1]|e]; simpl; [|reflexivity].
      destruct (check_ordering_overlap_from c1 post) as [[c2 o2]|e]; reflexivity.
Qed.

(** C7. Fields are checked in declared order from a cursor at 0.
    When the fields before [f] leave the cursor at [cursor]:
    an explicit offset of [f] below the cursor makes
    [check_ordering_overlap], and with it the construction of the
    aggregate, raise the ordering/overlap error; a field without an
    offset gets the cursor as its offset; and after [f] the cursor is
    the offset of [f] plus its size. *)
Theorem check_ordering_overlap_cursor
    (pre post : list CSRField.t) (f : CSRField.t)
    (cursor : Z) (pre' : list CSRField.t) :
  check_ordering_overlap pre = Ok (cursor, pre') ->
  (forall o, CSRField.offset f = Some o -> o < cursor ->
     check_ordering_overlap (pre ++ f :: post)
       = Raise (ValueError (overlap_msg (CSRField.name f)))
     /\ (forall access, raises (init (pre ++ f :: post) access))
     /\ (forall access, check_names (pre ++ f :: post) = Ok tt ->
           init (pre ++ f :: post) access
             = Raise (ValueError (overlap_msg (CSRField.name f)))))
  /\ (CSRField.offset f = None ->
        check_ordering_overlap (pre ++ [f])
          = Ok (cursor + CSRField.size f, pre' ++ [CSRField.set_offset f cursor]))
  /\ (forall o, CSRField.offset f = Some o -> cursor <= o ->
        check_ordering_overlap (pre ++ [f])
          = Ok (o + CSRField.size f, pre' ++ [f])).
Proof.
  unfold check_ordering_overlap. intros Hpre. repeat split.
  - rewrite check_ordering_overlap_from_app, Hpre. unfold_bind. simpl.
    rewrite H. destruct (Z.ltb_spec o cursor); [reflexivity|lia].
  - intros access. unfold init, check_ordering_overlap.
    rewrite check_ordering_overlap_from_app, Hpre. unfold_bind. simpl.
    rewrite H. destruct (Z.ltb_spec o cursor); [|lia].
    destruct (check_names _); exact I.
  - intros access Hn. unfold init, check_ordering_overlap.
    rewrite Hn, check_ordering_overlap_from_app, Hpre. unfold_bind. simpl.
    rewrite H. destruct (Z.ltb_spec o cursor); [reflexivity|lia].
  - intros Hf. rewrite check_ordering_overlap_from_app, Hpre. unfold_bind. simpl.
    rewrite Hf. reflexivity.
  - intros o Hf Hle. rewrite check_ordering_overlap_from_app, Hpre. unfold_bind. simpl.
    rewrite Hf. destruct (Z.ltb_spec o cursor); [lia|reflexivity].
Qed.

End FieldLayout.

Section FieldLayoutWitness.
Import CSRFieldAggregate FieldSpec.

Lemma check_ordering_overlap_cursor_witness :
  check_ordering_overlap [fld "a" 4 None 0] = Ok (4, [fld "a" 4 (Some 0) 0])
  /\ check_ordering_overlap ([fld "a" 4 None 0] ++ [fld "b" 2 (Some 3) 0; fld "c" 1 None 0])
     = Raise (ValueError (overlap_msg "b"))
  /\ check_ordering_overlap ([fld "a" 4 None 0] ++ [fld "b" 2 None 0])
     = Ok (6, [fld "a" 4 (Some 0) 0] ++ [fld "b" 2 (Some 4) 0])
  /\ check_ordering_overlap ([fld "a" 4 None 0] ++ [fld "b" 2 (Some 5) 0])
     = Ok (7, [fld "a" 4 (Some 0) 0] ++ [fld "b" 2 (Some 5) 0]).
Proof.
  assert (Hpre : check_ordering_overlap [fld "a" 4 None 0]
                 = Ok (4, [fld "a" 4 (Some 0) 0])) by reflexivity.
  split; [exact Hpre|]. split; [|split].
  - apply (proj1 (check_ordering_overlap_cursor _ [fld "c" 1 None 0]
                    (fld "b" 2 (Some 3) 0) _ _ Hpre) 3); [reflexivity|lia].
  - apply (proj1 (proj2 (check_ordering_overlap_cursor _ []
                    (fld "b" 2 None 0) _ _ Hpre))). reflexivity.
  - apply (proj2 (proj2 (check_ordering_overlap_cursor _ []
                    (fld "b" 2 (Some 5) 0) _ _ Hpre)) 5); [reflexivity|lia].
Defined.

End FieldLayoutWitness.

(** ** Reset value of an aggregate: [get_reset] *)

Section ResetRoundTrip.
Import CSRFieldAggregate FieldSpec.

Lemma check_ordering_overlap_from_laid_out (c : Z) (fs : list CSRField.t)
      (c' : Z) (out : list CSRField.t) :
  check_ordering_overlap_from c fs = Ok (c', out) ->
  laid_out c out /\ Forall2 validated_from fs out.
Proof.
  revert c c' out. induction fs as [|f fs IH]; intros c c' out; simpl.
  - intros [= <- <-]. split; [exact I|constructor].
  - destruct (CSRField.offset f) as [o|] eqn:Hoff.
    + destruct (Z.ltb_spec o c); [discriminate|].
      unfold_bind.
      destruct (check_ordering_overlap_from _ fs) as [[c1 o1]|e] eqn:Hrest; [|discriminate].
      simpl. intros [= <- <-]. destruct (IH _ _ _ Hrest) as [Hl Hv].
      split.
      * simpl. exists o. auto.
      * constructor; [|exact Hv]. unfold validated_from. auto.
    + unfold_bind.
      destruct (check_ordering_overlap_from _ fs) as [[c1 o1]|e] eqn:Hrest; [|discriminate].
      simpl. intros [= <- <-]. destruct (IH _ _ _ Hrest) as [Hl Hv].
      split.
      * simpl. exists c. repeat split; [lia|exact Hl].
      * constructor; [|exact Hv]. unfold validated_from. simpl.
        repeat split; auto. intros o Ho. congruence.
Qed.

Lemma set_accesses_cons_inv (a : access_mode) (f : CSRField.t)
      (fs out : list CSRField.t) :
  set_accesses a (f :: fs) = Ok out ->
  exists g gs,
    set_field_access a f = Ok g /\ setattr_field g = Ok tt
    /\ set_accesses a fs = Ok gs /\ out = g :: gs.
Proof.
  simpl. unfold_bind.
  destruct (set_field_access a f) as [g|e] eqn:Hg; [|discriminate].
  destruct (setattr_field g) as [[]|e] eqn:Hs; [|discriminate].
  destruct (set_accesses a fs) as [gs|e] eqn:Hgs; [|discriminate].
  intros [= <-]. exists g, gs. auto.
Qed.

Lemma set_accesses_validated (a : access_mode) (fs out : list CSRField.t) :
  set_accesses a fs = Ok out ->
  Forall2 (fun f g => validated_from f g
                      /\ CSRField.offset g = CSRField.offset f) fs out.
Proof.
  revert out. induction fs as [|f fs IH]; intros out.
  - simpl. intros [= <-]. constructor.
  - intros H. apply set_accesses_cons_inv in H.
    destruct H as (g & gs & Hg & _ & Hgs & ->).
    constructor; [|apply IH; exact Hgs].
    unfold set_field_access in Hg. unfold validated_from.
    destruct (CSRField.access f) as [fa|]; [|injection Hg as <-; simpl; auto].
    destruct a, fa; try discriminate; injection Hg as <-; auto.
Qed.

Lemma laid_out_same_layout (c : Z) (fs gs : list CSRField.t) :
  Forall2 (fun f g => validated_from f g
                      /\ CSRField.offset g = CSRField.offset f) fs gs ->
  laid_out c fs -> laid_out c gs.
Proof.
  intros H. revert c. induction H as [|f g fs gs [(_ & Hs & _) Ho] _ IH]; intros c; simpl.
  - auto.
  - intros (o & Hoff & Hle & Hrest). exists o. rewrite Ho, Hs. auto.
Qed.

Lemma laid_out_offsets (c : Z) (fs : list CSRField.t) :
  laid_out c fs -> Forall reset_fits fs ->
  Forall (fun g => exists o, CSRField.offset g = Some o /\ c <= o) fs.
Proof.
  revert c. induction fs as [|f fs IH]; intros c; simpl.
  - constructor.
  - intros (o & Hoff & Hle & Hrest) Hfit. inversion Hfit as [|? ? [Hsz _] Hfits]; subst.
    constructor; [eauto|].
    eapply Forall_impl; [apply (IH _ Hrest Hfits)|].
    simpl. intros g (o' & Ho' & Hle'). exists o'. split; [exact Ho'|lia].
Qed.

Lemma get_reset_from_combined (acc : Z) (fs : list CSRField.t) :
  Forall (fun g => exists o, CSRField.offset g = Some o /\ 0 <= o) fs ->
  get_reset_from acc fs = Ok (Z.lor acc (combined fs)).
Proof.
  revert acc. induction fs as [|f fs IH]; intros acc Hall; simpl.
  - rewrite Z.lor_0_r. reflexivity.
  - inversion Hall as [|? ? (o & Ho & Hnn) Hrest]; subst.
    rewrite Ho. unfold py_shiftl. destruct (Z.ltb_spec o 0); [lia|].
    unfold_bind. rewrite IH by exact Hrest. simpl.
    rewrite Z.lor_assoc. reflexivity.
Qed.

Lemma combined_low_bits (c : Z) (fs : list CSRField.t) (n : Z) :
  Forall (fun g => exists o, CSRField.offset g = Some o /\ c <= o) fs ->
  0 <= n < c -> Z.testbit (combined fs) n = false.
Proof.
  intros Hall Hn. induction Hall as [|f fs (o & Ho & Hle) _ IH]; simpl.
  - apply Z.bits_0.
  - rewrite Z.lor_spec, IH, Ho. simpl.
    rewrite Z.shiftl_spec by lia. rewrite Z.testbit_neg_r by lia. reflexivity.
Qed.

Lemma combined_reads_back (c : Z) (fs : list CSRField.t) :
  0 <= c -> laid_out c fs -> Forall reset_fits fs ->
  Forall (reads_back (combined fs)) fs.
Proof.
  revert c. induction fs as [|f fs IH]; intros c Hc Hl Hfit; [constructor|].
  simpl in Hl. destruct Hl as (o & Ho & Hle & Hrest).
  inversion Hfit as [|? ? [Hsz Hrng] Hfits]; subst.
  pose proof (laid_out_offsets _ _ Hrest Hfits) as Hoffs.
  constructor.
  - exists o. split; [exact Ho|]. simpl. rewrite Ho. simpl.
    apply Z.bits_inj'. intros n Hn.
    rewrite testbit_slice, Z.lor_spec, Z.shiftl_spec by lia.
    replace (n + o - o) with n by lia.
    destruct (Z.ltb_spec n (o + CSRField.size f - o)).
    + rewrite (combined_low_bits _ _ (n + o) Hoffs) by lia.
      rewrite orb_false_r, andb_true_r. reflexivity.
    + rewrite andb_false_r. symmetry. eapply testbit_above; [exact Hrng|lia].
  - assert (IH' := IH (o + CSRField.size f) ltac:(lia) Hrest Hfits).
    clear IH. revert IH'. rewrite !Forall_forall. intros IH' g Hg.
    destruct (IH' g Hg) as (og & Hog & Hsl).
    destruct (proj1 (Forall_forall _ _) Hoffs g Hg) as (og' & Hog' & Hge).
    assert (og' = og) by congruence. subst og'.
    exists og. split; [exact Hog|]. rewrite <- Hsl. simpl. rewrite Ho. simpl.
    apply Z.bits_inj'. intros n Hn.
    rewrite !testbit_slice, Z.lor_spec, Z.shiftl_spec by lia.
    rewrite (testbit_above (CSRField.reset_value f) (CSRField.size f)) by (try exact Hrng; lia).
    reflexivity.
Qed.

Lemma Forall2_validated_trans (fs gs hs : list CSRField.t) :
  Forall2 validated_from fs gs ->
  Forall2 (fun f g => validated_from f g
                      /\ CSRField.offset g = CSRField.offset f) gs hs ->
  Forall2 validated_from fs hs.
Proof.
  intros H. revert hs. induction H as [|f g fs gs Hfg _ IH]; intros hs Hgh.
  - inversion Hgh. constructor.
  - inversion Hgh as [|? h ? hs' [Hv Ho] Hrest]; subst.
    constructor; [|apply IH; exact Hrest].
    destruct Hfg as (Hn & Hs & Hr & Hoff), Hv as (Hn' & Hs' & Hr' & _).
    unfold validated_from. repeat split; try congruence.
    intros o Hfo. rewrite Ho. auto.
Qed.

Lemma validated_names (fs gs : list CSRField.t) :
  Forall2 validated_from fs gs ->
  map CSRField.name gs = map CSRField.name fs.
Proof.
  induction 1 as [|f g fs gs (Hn & _) _ IH]; simpl; [reflexivity|].
  rewrite Hn, IH. reflexivity.
Qed.

Lemma has_attribute_names (n : string) (fs gs : list CSRField.t) :
  map CSRField.name gs = map CSRField.name fs ->
  not_a_field_name n fs ->
  has_attribute (CSRFieldAggregate.mk gs) n = false.
Proof.
  intros Hnames Hno. unfold has_attribute. apply bool_decide_eq_false.
  cbn [fields]. rewrite Hnames. intros Hin.
  apply list_elem_of_In, in_map_iff in Hin. destruct Hin as (f & Hn & Hf).
  unfold not_a_field_name in Hno. rewrite List.Forall_forall in Hno.
  exact (Hno f Hf Hn).
Qed.

(** What a successful [__init__] leaves in [self.fields]. *)
Lemma init_fields (fs : list CSRField.t) (access : access_mode)
      (agg : CSRFieldAggregate.t) :
  init fs access = Ok agg ->
  exists cursor out,
    check_names fs = Ok tt
    /\ check_ordering_overlap_from 0 fs = Ok (cursor, out)
    /\ set_accesses access out = Ok (fields agg)
    /\ laid_out 0 (fields agg)
    /\ Forall2 validated_from fs (fields agg).
Proof.
  unfold init, check_ordering_overlap. unfold_bind. intros Hinit.
  destruct (check_names fs) as [[]|]; [|discriminate].
  destruct (check_ordering_overlap_from 0 fs) as [[c out]|e] eqn:Hchk; [|discriminate].
  simpl in Hinit.
  destruct (set_accesses access out) as [out'|e] eqn:Hacc; [|discriminate].
  injection Hinit as <-. cbn [fields].
  destruct (check_ordering_overlap_from_laid_out _ _ _ _ Hchk) as [Hl Hv].
  pose proof (set_accesses_validated _ _ _ Hacc) as Hv'.
  exists c, out. repeat split; auto.
  - exact (laid_out_same_layout _ _ _ Hv' Hl).
  - exact (Forall2_validated_trans _ _ _ Hv Hv').
Qed.

Lemma init_has_attribute (n : string) (fs : list CSRField.t) (access : access_mode)
      (agg : CSRFieldAggregate.t) :
  init fs access = Ok agg ->
  not_a_field_name n fs ->
  has_attribute agg n = false.
Proof.
  intros Hinit Hno. destruct (init_fields _ _ _ Hinit) as (c & out & _ & _ & _ & _ & Hv).
  destruct agg as [gs]. cbn [fields] in Hv.
  exact (has_attribute_names n fs gs (validated_names _ _ Hv) Hno).
Qed.

Lemma same_layout_reset_fits (fs gs : list CSRField.t) :
  Forall2 validated_from fs gs -> Forall reset_fits fs -> Forall reset_fits gs.
Proof.
  intros H. induction H as [|f g fs gs (_ & Hs & Hr & _) _ IH]; intros Hall.
  - constructor.
  - inversion Hall; subst. constructor; [|auto].
    unfold reset_fits in *. rewrite Hs, Hr. assumption.
Qed.

(** C8 (amended). When the aggregate is built from fields whose reset
    values fit their sizes, and no field is named [fields] or
    [get_reset] (such a field takes the place of the attribute of that
    name and [get_reset] raises), slicing the combined reset value at
    the range [offset, offset + size) of each field gives back the
    reset value that field was declared with. *)
Theorem get_reset_reads_back
    (fs : list CSRField.t) (access : access_mode) (agg : CSRFieldAggregate.t) :
  init fs access = Ok agg ->
  Forall reset_fits fs ->
  not_a_field_name "fields" fs ->
  not_a_field_name "get_reset" fs ->
  exists reset,
    get_reset agg = Ok reset
    /\ Forall2 (fun f g =>
                  validated_from f g
                  /\ exists o, CSRField.offset g = Some o
                     /\ Bits.slice reset o (o + CSRField.size f)
                        = CSRField.reset_value f)
               fs (fields agg).
Proof.
  intros Hinit Hfit Hnf Hng.
  destruct (init_fields _ _ _ Hinit) as (c & out & _ & _ & _ & Hl' & Hfinal).
  pose proof (same_layout_reset_fits _ _ Hfinal Hfit) as Hfit'.
  exists (combined (fields agg)). split.
  - unfold get_reset.
    rewrite (init_has_attribute _ _ _ _ Hinit Hng), (init_has_attribute _ _ _ _ Hinit Hnf).
    rewrite get_reset_from_combined.
    + reflexivity.
    + apply (laid_out_offsets 0 _ Hl' Hfit').
  - pose proof (combined_reads_back 0 (fields agg) ltac:(lia) Hl' Hfit') as Hrb.
    clear -Hfinal Hrb. revert Hrb. generalize (combined (fields agg)) as reset.
    induction Hfinal as [|f g fs gs Hfg _ IH]; intros reset Hrb; [constructor|].
    inversion Hrb as [|? ? (o & Ho & Hsl) Hrest]; subst.
    constructor; [|apply IH; exact Hrest].
    split; [exact Hfg|]. exists o. split; [exact Ho|].
    destruct Hfg as (_ & Hs & Hr & _). rewrite <- Hs, <- Hr. exact Hsl.
Qed.

Lemma get_reset_reads_back_witness :
  Forall reset_fits [fld "en" 1 None 1; fld "mode" 3 (Some 4) 5]
  /\ not_a_field_name "fields" [fld "en" 1 None 1; fld "mode" 3 (Some 4) 5]
  /\ not_a_field_name "get_reset" [fld "en" 1 None 1; fld "mode" 3 (Some 4) 5]
  /\ exists reset,
       get_reset (CSRFieldAggregate.mk
                    [CSRField.mk "en" 1 (Some 0) 1 (Some read_write) false;
                     CSRField.mk "mode" 3 (Some 4) 5 (Some read_write) false])
         = Ok reset
       /\ Forall2 (fun f g =>
                     validated_from f g
                     /\ exists o, CSRField.offset g = Some o
                        /\ Bits.slice reset o (o + CSRField.size f)
                           = CSRField.reset_value f)
                  [fld "en" 1 None 1; fld "mode" 3 (Some 4) 5]
                  [CSRField.mk "en" 1 (Some 0) 1 (Some read_write) false;
                   CSRField.mk "mode" 3 (Some 4) 5 (Some read_write) false].
Proof.
  assert (Hfit : Forall reset_fits [fld "en" 1 None 1; fld "mode" 3 (Some 4) 5]).
  { repeat constructor; simpl; lia. }
  assert (Hnf : not_a_field_name "fields" [fld "en" 1 None 1; fld "mode" 3 (Some 4) 5]).
  { names_differ. }
  assert (Hng : not_a_field_name "get_reset" [fld "en" 1 None 1; fld "mode" 3 (Some 4) 5]).
  { names_differ. }
  split; [exact Hfit|]. split; [exact Hnf|]. split; [exact Hng|].
  apply (get_reset_reads_back [fld "en" 1 None 1; fld "mode" 3 (Some 4) 5] read_write);
    [reflexivity|exact Hfit|exact Hnf|exact Hng].
Defined.

(** C8 as stated fails: validation does not look at reset values, and
    a reset value wider than its field spills into the next field. *)
Lemma get_reset_reads_back_needs_fit :
  ~ (forall (fs : list CSRField.t) (access : access_mode) (agg : CSRFieldAggregate.t),
       init fs access = Ok agg ->
       exists reset,
         get_reset agg = Ok reset
         /\ Forall2 (fun f g =>
                       exists o, CSRField.offset g = Some o
                          /\ Bits.slice reset o (o + CSRField.size f)
                             = CSRField.reset_value f)
                    fs (fields agg)).
Proof.
  intros H.
  destruct (H [fld "a" 1 None 3; fld "b" 1 None 0] read_write _ eq_refl)
    as (reset & Hr & Hall).
  vm_compute in Hr. injection Hr as <-.
  inversion Hall as [|? ? ? ? (o & Ho & Hsl) _]; subst.
  simpl in Ho. injection Ho as <-. vm_compute in Hsl. discriminate.
Qed.

End ResetRoundTrip.

(** ** Splitting a register into simple CSRs: [do_finalize] *)

Section Splitting.
Import SplitSpec.

Lemma Zsum_app (l1 l2 : list Z) : Zsum (l1 ++ l2) = Zsum l1 + Zsum l2.
Proof. unfold Zsum. induction l1 as [|x l1 IH]; simpl; lia. Qed.

Lemma Zsum_rev (l : list Z) : Zsum (rev l) = Zsum l.
Proof.
  induction l as [|x l IH]; simpl; [reflexivity|].
  rewrite Zsum_app, IH. unfold Zsum. simpl. lia.
Qed.

Lemma ceil_div_spec (size busword : Z) :
  1 <= busword -> is_ceil_div size busword ((size + busword - 1) / busword).
Proof.
  intros Hb. unfold is_ceil_div.
  pose proof (Z.div_mod (size + busword - 1) busword ltac:(lia)) as Hdm.
  pose proof (Z.mod_pos_bound (size + busword - 1) busword ltac:(lia)) as Hm.
  nia.
Qed.

(** The widths [min(size - i*busword, busword)] of the first [k] words
    are all [busword] as long as those words lie below [size]. *)
Lemma Zsum_full_words (size busword : Z) (k : nat) :
  Z.of_nat k * busword <= size ->
  1 <= busword ->
  Zsum (map (fun i => Z.min (size - i * busword) busword) (seqZ 0 (Z.of_nat k)))
  = Z.of_nat k * busword.
Proof.
  intros Hk Hb. induction k as [|k IH]; [reflexivity|].
  rewrite seqZ_S, map_app, Zsum_app, IH by nia.
  unfold Zsum. simpl. nia.
Qed.

Lemma Zsum_widths (size busword : Z) :
  1 <= size -> 1 <= busword ->
  Zsum (map (fun i => Z.min (size - i * busword) busword)
            (reversed_range ((size + busword - 1) / busword)))
  = size.
Proof.
  intros Hs Hb. pose proof (ceil_div_spec size busword Hb) as [Hlo Hhi].
  set (n := (size + busword - 1) / busword) in *.
  assert (1 <= n) by nia.
  unfold reversed_range. rewrite map_rev, Zsum_rev.
  replace n with (Z.of_nat (S (Z.to_nat (n - 1)))) by lia.
  rewrite seqZ_S, map_app, Zsum_app, Zsum_full_words by lia.
  unfold Zsum. simpl. rewrite Z2Nat.id by lia. nia.
Qed.

Lemma split_ok_of_map (size busword : Z) (mk_slot : Z -> slot) :
  1 <= size -> 1 <= busword ->
  (forall i, index (mk_slot i) = i) ->
  (forall i, lo (mk_slot i) = i * busword) ->
  (forall i, hi (mk_slot i) = i * busword + Z.min (size - i * busword) busword) ->
  (forall i, CSR.size (sc (mk_slot i)) = Z.min (size - i * busword) busword) ->
  split_ok size busword
    (map mk_slot (reversed_range ((size + busword - 1) / busword))).
Proof.
  intros Hs Hb Hidx Hlo Hhi Hw.
  exists ((size + busword - 1) / busword).
  pose proof (ceil_div_spec size busword Hb) as Hceil.
  split; [exact Hceil|]. split; [|split; [|split]].
  - rewrite length_map. unfold reversed_range. rewrite length_rev, length_seqZ.
    destruct Hceil. apply Z2Nat.id. nia.
  - rewrite map_map. rewrite (map_ext _ (fun i => i)) by exact Hidx. apply map_id.
  - apply Forall_forall. intros s Hin. apply list_elem_of_In, in_map_iff in Hin.
    destruct Hin as (i & <- & _). unfold covers.
    rewrite Hidx, Hlo, Hhi, Hw. lia.
  - unfold widths. rewrite map_map.
    rewrite (map_ext _ (fun i => Z.min (size - i * busword) busword)) by exact Hw.
    apply Zsum_widths; assumption.
Qed.

Lemma covered_end (size busword i : Z) :
  i * busword + Z.min (size - i * busword) busword
  = Z.min size ((i + 1) * busword).
Proof. lia. Qed.

Lemma status_make_slot_wired (self : CSRStatus.t) (busword nwords i : Z) :
  WiringSpec.status_wired (CSRStatus.size self) busword
    (CSRStatus.make_slot self busword nwords i).
Proof.
  unfold WiringSpec.status_wired, CSRStatus.make_slot. cbn [read write index].
  rewrite covered_end. split; reflexivity.
Qed.

Lemma storage_make_slot_wired (self : CSRStorage.t) (busword i : Z) :
  WiringSpec.storage_wired self busword
    (CSRStorage.make_slot self busword
       (StorageSpec.word_count (CSRStorage.size self) busword) i).
Proof.
  unfold WiringSpec.storage_wired, CSRStorage.make_slot. cbn [read write index].
  rewrite covered_end. split; reflexivity.
Qed.

(** C3. For a register of size at least 1 and a bus width of at
    least 1, [do_finalize] of a status register and of a storage
    register both create ceil(size / busword) simple CSRs, for the
    indices word_count-1 down to 0; the one of index [i] covers bits
    [i*busword, min(size, (i+1)*busword)), has the length of that
    range as its width, and the widths add up to the size.  The
    statements of the simple CSR of index [i] are on that range: for a
    status register the read wire takes these bits of the status and
    nothing is written; for a storage register the write goes to these
    bits of the stored value (with atomic write over several words, to
    these bits of the back-buffer, which starts at bit [busword], and
    for index 0 to the whole stored value), and the read wire takes
    the part of these bits at or above the alignment. *)
Theorem do_finalize_split (size busword : Z) :
  1 <= size -> 1 <= busword ->
  (forall self : CSRStatus.t,
      CSRStatus.size self = size ->
      exists sl, CSRStatus.do_finalize self busword = Ok sl
                 /\ split_ok size busword sl
                 /\ Forall (WiringSpec.status_wired size busword) sl)
  /\ (forall self : CSRStorage.t,
        CSRStorage.size self = size ->
        exists hw, CSRStorage.do_finalize self busword = Ok hw
                   /\ split_ok size busword (CSRStorage.slots hw)
                   /\ Forall (WiringSpec.storage_wired self busword)
                              (CSRStorage.slots hw)).
Proof.
  intros Hs Hb. split.
  - intros self <-. unfold CSRStatus.do_finalize, py_floordiv.
    destruct (Z.eqb_spec busword 0); [lia|]. unfold_bind.
    eexists. split; [reflexivity|]. split.
    + apply split_ok_of_map; auto.
    + apply Forall_forall. intros s Hin.
      apply list_elem_of_In, in_map_iff in Hin. destruct Hin as (i & <- & _).
      apply status_make_slot_wired.
  - intros self <-. unfold CSRStorage.do_finalize, py_floordiv.
    destruct (Z.eqb_spec busword 0); [lia|]. unfold_bind.
    pose proof (split_ok_of_map (CSRStorage.size self) busword
                  (CSRStorage.make_slot self busword
                     ((CSRStorage.size self + busword - 1) / busword))
                  Hs Hb ltac:(reflexivity) ltac:(reflexivity)
                  ltac:(reflexivity) ltac:(reflexivity)) as Hok.
    destruct (last _) as [s|] eqn:Hlast.
    + eexists. split; [reflexivity|]. split; [exact Hok|].
      cbn [CSRStorage.slots].
      apply Forall_forall. intros s' Hin.
      apply list_elem_of_In, in_map_iff in Hin. destruct Hin as (i & <- & _).
      apply storage_make_slot_wired.
    + apply last_None in Hlast. destruct Hok as (k & [Hl Hh] & Hlen & _).
      rewrite Hlast in Hlen. simpl in Hlen. nia.
Qed.

Lemma do_finalize_split_witness :
  1 <= 20 /\ 1 <= 8
  /\ (exists sl, CSRStatus.do_finalize (CSRStatus.mk 20 "status" 0) 8 = Ok sl
                 /\ split_ok 20 8 sl
                 /\ Forall (WiringSpec.status_wired 20 8) sl)
  /\ (exists hw, CSRStorage.do_finalize (CSRStorage.mk 20 "ctrl" 0 true false 0) 8 = Ok hw
                 /\ split_ok 20 8 (CSRStorage.slots hw)
                 /\ Forall (WiringSpec.storage_wired
                              (CSRStorage.mk 20 "ctrl" 0 true false 0) 8)
                           (CSRStorage.slots hw)).
Proof.
  split; [lia|]. split; [lia|].
  destruct (do_finalize_split 20 8 ltac:(lia) ltac:(lia)) as [Hst Hsto].
  split.
  - apply (Hst (CSRStatus.mk 20 "status" 0)). reflexivity.
  - apply (Hsto (CSRStorage.mk 20 "ctrl" 0 true false 0)). reflexivity.
Defined.

End Splitting.

(** ** Zero sizes and zero bus widths *)

Section ZeroConfiguration.

Lemma bind_raises {A B : Type} (c : result A) (k : A -> result B) :
  raises c -> raises (x ← c; k x).
Proof. destruct c; [contradiction|]. intros _. exact I. Qed.

Lemma Signal_new_Ok (nbits : Z) (u : unit) : Signal_new nbits = Ok u -> 1 <= nbits.
Proof. unfold Signal_new. destruct (Z.leb_spec nbits 0); [discriminate|lia]. Qed.

Lemma CSRStatus_init_size (size reset : Z) (fs : list CSRField.t)
      (name traced : option string) (reg : CSRStatus.t) :
  CSRStatus_init size reset fs name traced = Ok reg -> 1 <= CSRStatus.size reg.
Proof.
  unfold CSRStatus_init. unfold_bind.
  destruct (match fs with [] => _ | _ => _ end) as [[sz rst]|e]; [|discriminate].
  destruct (get_obj_var_name name traced) as [n|]; [|discriminate].
  cbn [fst snd]. destruct (Signal_new sz) as [u|e] eqn:Hsig; [|discriminate].
  intros [= <-]. exact (Signal_new_Ok _ _ Hsig).
Qed.

Lemma CSRStorage_init_size (size reset : Z) (fs : list CSRField.t)
      (aw wd : bool) (ab : Z) (name traced : option string) (reg : CSRStorage.t) :
  CSRStorage_init size reset fs aw wd ab name traced = Ok reg ->
  1 <= CSRStorage.size reg
  /\ 0 <= CSRStorage.alignment_bits reg < CSRStorage.size reg
  /\ existsb CSRField.pulse fs = false.
Proof.
  unfold CSRStorage_init. unfold_bind.
  destruct (match fs with [] => _ | _ => _ end) as [[sz rst]|e]; [|discriminate].
  destruct (get_obj_var_name name traced) as [n|]; [|discriminate].
  cbn [fst snd]. destruct (Signal_new sz) as [u|e] eqn:Hsig; [|discriminate].
  unfold py_shiftr. destruct (Z.ltb_spec ab 0); [discriminate|].
  destruct (Signal_new (sz - ab)) as [u'|e] eqn:Hsig'; [|discriminate].
  destruct (existsb CSRField.pulse fs); [discriminate|].
  intros [= <-]. cbn [CSRStorage.size CSRStorage.alignment_bits].
  pose proof (Signal_new_Ok _ _ Hsig). pose proof (Signal_new_Ok _ _ Hsig'). lia.
Qed.

(** C4. A size of 0 or a bus width of 0 makes the code fail at once,
    at construction or at finalization, although with no error class
    of its own.  Constructing a status or a storage register of size 0
    raises, when the signal of that width is created ([TypeError], or
    the [ValueError] of a name that cannot be found), so that every
    register a constructor returns has a size of at least 1.
    Finalizing any status or storage register on a bus of width 0
    raises the [ZeroDivisionError] of the word-count division, and so
    does building a bank of width 0 from a register; a simple CSR in
    the description fails the assertion on its size. *)
Theorem zero_configuration_is_rejected :
  (forall (reset : Z) (name traced : option string),
      raises (CSRStatus_init 0 reset [] name traced))
  /\ (forall (reset : Z) (aw wd : bool) (ab : Z) (name traced : option string),
        raises (CSRStorage_init 0 reset [] aw wd ab name traced))
  /\ (forall (size reset : Z) (fs : list CSRField.t) (name traced : option string)
             (reg : CSRStatus.t),
        CSRStatus_init size reset fs name traced = Ok reg ->
        1 <= CSRStatus.size reg)
  /\ (forall (size reset : Z) (fs : list CSRField.t) (aw wd : bool) (ab : Z)
             (name traced : option string) (reg : CSRStorage.t),
        CSRStorage_init size reset fs aw wd ab name traced = Ok reg ->
        1 <= CSRStorage.size reg)
  /\ (forall self : CSRStatus.t,
        CSRStatus.do_finalize self 0 = Raise ZeroDivisionError)
  /\ (forall self : CSRStorage.t,
        CSRStorage.do_finalize self 0 = Raise ZeroDivisionError)
  /\ (forall (d : csr_description) (description : list csr_description),
        match d with DCSR c => 1 <= CSR.size c | _ => True end ->
        raises (GenericBank.init (d :: description) 0)).
Proof.
  split; [|split; [|split; [|split; [|split; [|split]]]]].
  - intros reset name traced. unfold CSRStatus_init. unfold_bind.
    destruct (get_obj_var_name name traced); exact I.
  - intros reset aw wd ab name traced. unfold CSRStorage_init. unfold_bind.
    destruct (get_obj_var_name name traced); exact I.
  - exact CSRStatus_init_size.
  - intros size reset fs aw wd ab name traced reg H.
    exact (proj1 (CSRStorage_init_size _ _ _ _ _ _ _ _ _ H)).
  - reflexivity.
  - reflexivity.
  - intros d description Hd. unfold GenericBank.init. apply bind_raises.
    destruct d as [c|c|c]; cbn [GenericBank.gather].
    + destruct (Z.leb_spec (CSR.size c) 0); [lia|]. exact I.
    + apply bind_raises. exact I.
    + apply bind_raises. exact I.
Qed.

Lemma zero_configuration_is_rejected_witness :
  1 <= CSRStatus.size (CSRStatus.mk 20 "status" 0)
  /\ 1 <= CSRStorage.size (CSRStorage.mk 20 "ctrl" 5 true false 2)
  /\ raises (GenericBank.init [DCSR (CSR.mk 8 "ev")] 0).
Proof.
  destruct zero_configuration_is_rejected as (_ & _ & Hst & Hsto & _ & _ & Hbank).
  split; [|split].
  - apply (Hst 20 0 [] (Some "status") None). reflexivity.
  - apply (Hsto 20 5 [] true false 2 (Some "ctrl") None). reflexivity.
  - apply (Hbank (DCSR (CSR.mk 8 "ev")) []). simpl. lia.
Defined.

End ZeroConfiguration.

(** ** The storage data path *)

Section StorageDataPath.
Import CSRStorage StorageSpec.

Lemma testbit_slice_assign (old l h v n : Z) :
  0 <= l -> 0 <= n ->
  Z.testbit (Bits.slice_assign old l h v) n
  = if (l <=? n) && (n <? h) then Z.testbit v (n - l) else Z.testbit old n.
Proof.
  intros Hl Hn. unfold Bits.slice_assign.
  rewrite Z.lor_spec, Z.ldiff_spec, !Z.shiftl_spec by lia.
  destruct (Z.leb_spec l n); simpl.
  - rewrite testbit_truncate, Z.testbit_ones_nonneg by lia.
    destruct (Z.ltb_spec n h).
    + replace (n - l <? Z.max 0 (h - l)) with true by (symmetry; apply Z.ltb_lt; lia).
      replace (n - l <? h - l) with true by (symmetry; apply Z.ltb_lt; lia).
      simpl. rewrite andb_false_r, andb_true_r. reflexivity.
    + replace (n - l <? Z.max 0 (h - l)) with false by (symmetry; apply Z.ltb_ge; lia).
      replace (n - l <? h - l) with false by (symmetry; apply Z.ltb_ge; lia).
      simpl. rewrite andb_false_r, andb_true_r, orb_false_r. reflexivity.
  - rewrite !(Z.testbit_neg_r _ (n - l)) by lia.
    simpl. rewrite andb_true_r, orb_false_r. reflexivity.
Qed.

Lemma reversed_range_split (n i : Z) :
  0 <= i < n ->
  reversed_range n = rev (seqZ (i + 1) (n - i - 1)) ++ i :: rev (seqZ 0 i).
Proof.
  intros Hi. unfold reversed_range.
  replace n with (i + (n - i)) at 1 by lia.
  rewrite seqZ_app by lia. rewrite (seqZ_cons (0 + i)) by lia.
  rewrite rev_app_distr. simpl. rewrite <- app_assoc. simpl.
  repeat f_equal; lia.
Qed.

Lemma fold_left_noop {A B : Type} (f : A -> B -> A) (l : list B) (a : A) :
  (forall x b, In x l -> f b x = b) -> fold_left f l a = a.
Proof.
  revert a. induction l as [|x l IH]; intros a H; simpl; [reflexivity|].
  rewrite H by (left; reflexivity). apply IH. intros y b Hy. apply H. right. exact Hy.
Qed.

Lemma write_slot_not_strobed (self : t) (busword : Z) (inp : inputs)
      (old nxt : state) (s : slot) :
  sc_re inp (index s) = false -> write_slot self busword inp old nxt s = nxt.
Proof. intros H. unfold write_slot. rewrite H. reflexivity. Qed.

(** Only the statement of the strobed simple CSR acts. *)
Lemma fold_write_slot_only (self : t) (busword nwords : Z) (inp : inputs)
      (old nxt : state) (i : Z) :
  0 <= i < nwords ->
  strobes_only inp i ->
  fold_left (write_slot self busword inp old)
            (map (make_slot self busword nwords) (reversed_range nwords)) nxt
  = write_slot self busword inp old nxt (make_slot self busword nwords i).
Proof.
  intros Hi [Hon Hoff].
  rewrite (reversed_range_split nwords i Hi), map_app, fold_left_app. simpl.
  rewrite (fold_left_noop _ (map _ (rev (seqZ (i + 1) _)))).
  - apply fold_left_noop. intros s b Hin.
    apply in_map_iff in Hin. destruct Hin as (j & <- & Hj).
    apply write_slot_not_strobed. simpl. apply Hoff.
    apply in_rev, list_elem_of_In, elem_of_seqZ in Hj. lia.
  - intros s b Hin.
    apply in_map_iff in Hin. destruct Hin as (j & <- & Hj).
    apply write_slot_not_strobed. simpl. apply Hoff.
    apply in_rev, list_elem_of_In, elem_of_seqZ in Hj. lia.
Qed.

Lemma do_finalize_hardware (self : t) (busword : Z) (hw : hardware) :
  0 < busword ->
  do_finalize self busword = Ok hw ->
  slots hw = map (make_slot self busword (word_count (size self) busword))
                 (reversed_range (word_count (size self) busword)).
Proof.
  intros Hb. unfold do_finalize, py_floordiv, word_count.
  destruct (Z.eqb_spec busword 0); [lia|]. unfold_bind.
  destruct (last _); [|discriminate]. intros [= <-]. reflexivity.
Qed.

(** The concatenation of a [w]-bit value and a value above it. *)
Lemma Cat_pair (r w b wb : Z) :
  0 <= w -> 0 <= b < 2 ^ wb ->
  Bits.Cat [(r, w); (b, wb)] = Bits.truncate w r + 2 ^ w * b.
Proof.
  intros Hw Hb. simpl.
  rewrite (truncate_small wb b) by exact Hb.
  rewrite Z.shiftl_0_l, Z.lor_0_r.
  rewrite <- Z.lxor_lor, <- Z.add_nocarry_lxor.
  - rewrite Z.shiftl_mul_pow2 by lia. lia.
  - apply Z.bits_inj'. intros n Hn.
    rewrite Z.land_spec, testbit_truncate, Z.bits_0 by lia.
    destruct (Z.ltb_spec n w).
    + rewrite Z.shiftl_spec_low by lia. apply andb_false_r.
    + rewrite andb_false_r. reflexivity.
  - apply Z.bits_inj'. intros n Hn.
    rewrite Z.land_spec, testbit_truncate, Z.bits_0 by lia.
    destruct (Z.ltb_spec n w).
    + rewrite Z.shiftl_spec_low by lia. apply andb_false_r.
    + rewrite andb_false_r. reflexivity.
Qed.

Lemma truncate_truncate (w v : Z) :
  Bits.truncate w (Bits.truncate w v) = Bits.truncate w v.
Proof.
  unfold Bits.truncate. rewrite <- Z.land_assoc, Z.land_diag. reflexivity.
Qed.

Lemma in_slots_make_slot (self : t) (busword : Z) (hw : hardware) (s : slot) :
  0 < busword ->
  do_finalize self busword = Ok hw ->
  In s (slots hw) ->
  s = make_slot self busword (word_count (size self) busword) (index s)
  /\ 0 <= index s < word_count (size self) busword.
Proof.
  intros Hb Hfin Hin. rewrite (do_finalize_hardware _ _ _ Hb Hfin) in Hin.
  apply in_map_iff in Hin. destruct Hin as (i & <- & Hi). simpl.
  split; [reflexivity|].
  apply in_rev, list_elem_of_In, elem_of_seqZ in Hi. lia.
Qed.

Lemma below_pow2_of_bits (x w : Z) :
  0 <= w -> 0 <= x -> (forall n, w <= n -> Z.testbit x n = false) -> x < 2 ^ w.
Proof.
  intros Hw Hx Hbits. destruct (Z.lt_ge_cases x (2 ^ w)) as [|Hge]; [assumption|].
  exfalso. assert (Hpos : 0 < x) by (pose proof (Z.pow_pos_nonneg 2 w); lia).
  pose proof (Z.bit_log2 x Hpos) as Htop.
  rewrite Hbits in Htop; [discriminate|].
  apply Z.log2_le_pow2; assumption.
Qed.

Lemma pow2_bound_width (x w : Z) : 0 <= x < 2 ^ w -> 0 <= w.
Proof.
  intros [H0 H1]. destruct (Z.le_gt_cases 0 w); [assumption|].
  rewrite Z.pow_neg_r in H1; lia.
Qed.

(** An assignment to a slice inside a signal keeps the signal in its width. *)
Lemma slice_assign_range (old l h v w : Z) :
  0 <= old < 2 ^ w -> 0 <= l -> h <= w ->
  0 <= Bits.slice_assign old l h v < 2 ^ w.
Proof.
  intros Hold Hl Hh. pose proof (pow2_bound_width _ _ Hold) as Hw.
  assert (Hnn : 0 <= Bits.slice_assign old l h v).
  { unfold Bits.slice_assign. apply Z.lor_nonneg. split.
    - apply Z.ldiff_nonneg. left. lia.
    - apply Z.shiftl_nonneg. apply truncate_range. }
  split; [exact Hnn|].
  apply below_pow2_of_bits; [exact Hw|exact Hnn|].
  intros n Hn. rewrite testbit_slice_assign by lia.
  destruct (Z.leb_spec l n), (Z.ltb_spec n h); simpl; try lia;
    apply (testbit_above old w); assumption || lia.
Qed.

Lemma write_slot_wf (self : t) (busword nwords i : Z) (inp : inputs) (old nxt : state) :
  0 < busword -> 0 <= i < nwords ->
  (nwords - 1) * busword < size self ->
  wf_state self busword old -> wf_state self busword nxt ->
  wf_state self busword
    (write_slot self busword inp old nxt (make_slot self busword nwords i)).
Proof.
  intros Hb Hi Hlast Hold [Hsf Hbs]. pose proof (pow2_bound_width _ _ Hsf) as Hsize.
  unfold write_slot. cbn [index sc write make_slot CSR.size].
  destruct (sc_re inp i); [|split; assumption].
  destruct ((1 <? nwords) && atomic_write self).
  - destruct (Z.eqb_spec i 0) as [->|Hne].
    + split; cbn [storage_full backstore]; [|exact Hbs].
      pose proof (truncate_range (size self)
                    (Bits.Cat [(Bits.truncate (Z.min (size self - 0 * busword) busword)
                                  (sc_r inp 0),
                                Z.min (size self - 0 * busword) busword);
                               (backstore old, size self - busword)])) as Hr.
      rewrite Z.max_r in Hr by lia. exact Hr.
    + split; cbn [storage_full backstore]; [exact Hsf|].
      apply slice_assign_range; [exact Hbs|nia|nia].
  - split; cbn [storage_full backstore]; [|exact Hbs].
    apply slice_assign_range; [exact Hsf|nia|nia].
Qed.

(** The signals stay within their widths over a clock edge. *)
Lemma sync_step_wf (self : t) (busword : Z) (hw : hardware) (inp : inputs) (st : state) :
  0 < busword ->
  do_finalize self busword = Ok hw ->
  wf_state self busword st ->
  wf_state self busword (sync_step self busword hw inp st).
Proof.
  intros Hb Hfin Hwf.
  pose proof (ceil_div_spec (size self) busword ltac:(lia)) as [Hclo _].
  fold (word_count (size self) busword) in Hclo.
  unfold sync_step. rewrite (do_finalize_hardware _ _ _ Hb Hfin).
  set (nwords := word_count (size self) busword) in *.
  assert (Hdev : wf_state self busword (dev_write self inp st)).
  { unfold dev_write. destruct (write_from_dev self && we inp); [|exact Hwf].
    destruct Hwf as [Hsf Hbs]. pose proof (pow2_bound_width _ _ Hsf).
    split; cbn [storage_full backstore]; [|exact Hbs].
    pose proof (truncate_range (size self)
                  (Z.shiftl (Bits.truncate (size self - alignment_bits self) (dat_w inp))
                            (alignment_bits self))) as Hr.
    rewrite Z.max_r in Hr by lia. exact Hr. }
  assert (Hfold : forall l nxt,
             (forall i, In i l -> 0 <= i < nwords) ->
             wf_state self busword nxt ->
             wf_state self busword
               (fold_left (write_slot self busword inp st)
                          (map (make_slot self busword nwords) l) nxt)).
  { induction l as [|i l IH]; intros nxt Hl Hnxt; [exact Hnxt|].
    cbn [map fold_left]. apply IH; [intros j Hj; apply Hl; right; exact Hj|].
    apply write_slot_wf; auto. apply Hl. left. reflexivity. }
  specialize (Hfold (reversed_range nwords) (dev_write self inp st)).
  destruct Hfold as [Hsf Hbs]; [|exact Hdev|split; assumption].
  intros i Hin. apply in_rev, list_elem_of_In, elem_of_seqZ in Hin. lia.
Qed.

Local Opaque Bits.Cat.

(** C1. For a storage register with atomic write whose size needs
    more than one bus word: a write to a simple CSR other than the one
    of index 0 changes, on that clock edge, only the bits of the
    back-buffer that belong to this CSR, and the stored value stays as
    it is; a write to the simple CSR of index 0 makes the stored value
    the concatenation of the write data (low [busword] bits) and of the
    back-buffer as it is before the edge (bits above). *)
Theorem atomic_write_commit
    (self : t) (busword : Z) (hw : hardware) (st : state) (inp : inputs) :
  atomic_write self = true ->
  0 < busword ->
  1 < word_count (size self) busword ->
  do_finalize self busword = Ok hw ->
  wf_state self busword st ->
  (forall s, In s (slots hw) -> index s <> 0 ->
     strobes_only inp (index s) ->
     write_from_dev self && we inp = false ->
     0 <= lo s - busword < hi s - busword
     /\ hi s - busword <= size self - busword
     /\ storage_full (sync_step self busword hw inp st) = storage_full st
     /\ forall n, 0 <= n ->
          Z.testbit (backstore (sync_step self busword hw inp st)) n
          = if (lo s - busword <=? n) && (n <? hi s - busword)
            then Z.testbit (sc_r inp (index s)) (n - (lo s - busword))
            else Z.testbit (backstore st) n)
  /\ (sc_re inp 0 = true ->
      storage_full (sync_step self busword hw inp st)
      = Bits.truncate busword (sc_r inp 0) + 2 ^ busword * backstore st).
Proof.
  intros Hat Hb Hn Hfin [Hsf Hbs].
  pose proof (ceil_div_spec (size self) busword ltac:(lia)) as [Hclo Hchi].
  fold (word_count (size self) busword) in Hclo, Hchi.
  set (nwords := word_count (size self) busword) in *.
  assert (Hsize : busword < size self) by nia.
  pose proof (do_finalize_hardware _ _ _ Hb Hfin) as Hslots.
  fold nwords in Hslots.
  assert (Hflag : (1 <? nwords) && atomic_write self = true).
  { rewrite Hat, andb_true_r. apply Z.ltb_lt. exact Hn. }
  split.
  - intros s Hin Hidx Hstrobe Hdev.
    destruct (in_slots_make_slot _ _ _ _ Hb Hfin Hin) as [Hs Hi].
    fold nwords in Hs, Hi. set (i := index s) in *.
    assert (Hlo : lo s = i * busword) by (rewrite Hs; reflexivity).
    assert (Hhi : hi s = i * busword + Z.min (size self - i * busword) busword)
      by (rewrite Hs; reflexivity).
    assert (Hstep : sync_step self busword hw inp st
                    = mkstate (storage_full st)
                        (Bits.slice_assign (backstore st) (lo s - busword) (hi s - busword)
                           (Bits.truncate (hi s - lo s) (sc_r inp i)))
                        (sc_re inp (re_source hw))).
    { unfold sync_step, dev_write. rewrite Hdev, Hslots.
      rewrite (fold_write_slot_only _ _ _ _ _ _ i Hi Hstrobe).
      unfold write_slot. simpl. destruct Hstrobe as [-> _].
      rewrite Hflag. destruct (Z.eqb_spec i 0); [contradiction|]. simpl.
      rewrite Hlo, Hhi. repeat f_equal; lia. }
    rewrite Hstep. simpl.
    assert (0 <= lo s - busword < hi s - busword) by nia.
    split; [assumption|]. split; [nia|]. split; [reflexivity|].
    intros n Hnn. rewrite testbit_slice_assign by lia.
    destruct ((lo s - busword <=? n) && (n <? hi s - busword)) eqn:Hin_range;
      [|reflexivity].
    apply andb_true_iff in Hin_range. destruct Hin_range as [H1 H2].
    apply Z.leb_le in H1. apply Z.ltb_lt in H2.
    rewrite testbit_truncate by lia.
    replace (n - (lo s - busword) <? hi s - lo s) with true
      by (symmetry; apply Z.ltb_lt; lia).
    apply andb_true_r.
  - intros Hre. unfold sync_step. rewrite Hslots.
    rewrite (reversed_range_split nwords 0) by lia.
    rewrite map_app, fold_left_app. simpl.
    unfold write_slot at 1. simpl. rewrite Hre, Hflag. simpl.
    replace (Z.min (size self - 0 * busword) busword) with busword by lia.
    rewrite Cat_pair by (try exact Hbs; lia). rewrite truncate_truncate.
    apply truncate_small.
    pose proof (truncate_range busword (sc_r inp 0)) as Hr.
    rewrite Z.max_r in Hr by lia.
    replace (2 ^ size self) with (2 ^ busword * 2 ^ (size self - busword))
      by (rewrite <- Z.pow_add_r by lia; f_equal; lia).
    nia.
Qed.

Local Transparent Bits.Cat.

Lemma atomic_write_commit_witness :
  storage_full (sync_step reg24 8 hw24 (bus_write 2 0xAA) (mkstate 0x112233 0 false))
  = 0x112233
  /\ storage_full (sync_step reg24 8 hw24 (bus_write 0 0xCC) (mkstate 0x112233 0xAABB false))
     = Bits.truncate 8 0xCC + 2 ^ 8 * 0xAABB.
Proof.
  assert (Hwf : forall b, 0 <= b < 2 ^ 16 -> wf_state reg24 8 (mkstate 0x112233 b false)).
  { intros b Hbnd. split; simpl; [lia|exact Hbnd]. }
  split.
  - refine (proj1 (proj2 (proj2
             (proj1 (atomic_write_commit reg24 8 hw24 (mkstate 0x112233 0 false)
                       (bus_write 2 0xAA) eq_refl eq_refl eq_refl eq_refl
                       (Hwf 0 ltac:(lia)))
                (mkslot 2 (CSR.mk 8 "ctrl2") 16 24 (WSlice 16 24) (ToBackstore 8 16))
                _ _ _ _)))).
    + left. reflexivity.
    + discriminate.
    + split; [reflexivity|]. intros j Hj. simpl. apply Z.eqb_neq. exact Hj.
    + reflexivity.
  - apply (proj2 (atomic_write_commit reg24 8 hw24 (mkstate 0x112233 0xAABB false)
                    (bus_write 0 0xCC) eq_refl eq_refl eq_refl eq_refl
                    (Hwf 0xAABB ltac:(lia)))).
    reflexivity.
Defined.

(** The sequence of the 24-bit register on an 8-bit bus: the stored
    value keeps its old contents while words 2 and 1 are written and
    becomes the three written words with the write of word 0. *)
Example atomic_write_24_sequence :
  let s0 := mkstate 0x112233 0 false in
  let s1 := sync_step reg24 8 hw24 (bus_write 2 0xAA) s0 in
  let s2 := sync_step reg24 8 hw24 (bus_write 1 0xBB) s1 in
  let s3 := sync_step reg24 8 hw24 (bus_write 0 0xCC) s2 in
  do_finalize reg24 8 = Ok hw24
  /\ storage_full s1 = 0x112233
  /\ storage_full s2 = 0x112233
  /\ storage_full s3 = 0xAABBCC.
Proof. vm_compute. repeat split. Qed.

End StorageDataPath.

(** ** The read path of a storage register with an alignment *)

Section AlignedRead.
Import CSRStorage StorageSpec.

Lemma slice_slice_width (v l h : Z) :
  Bits.truncate (h - l) (Bits.slice v l h) = Bits.slice v l h.
Proof. unfold Bits.slice. apply truncate_truncate. Qed.

(** A slot that lies at or above the alignment reads the bits of the
    stored value it covers. *)
Lemma read_above_alignment (self : t) (busword nwords i : Z) (st : state) :
  let s := make_slot self busword nwords i in
  alignment_bits self <= lo s ->
  slot_w st s = Bits.slice (storage_full st) (lo s) (hi s).
Proof.
  intros s Ha. unfold slot_w, wire_value. subst s. simpl in *.
  destruct (Z.leb_spec (alignment_bits self) (i * busword)); [|lia]. simpl.
  replace (Z.min (size self - i * busword) busword)
    with (i * busword + Z.min (size self - i * busword) busword - i * busword) at 1 by lia.
  apply slice_slice_width.
Qed.

(** A slot that lies below the alignment reads as zero. *)
Lemma read_below_alignment (self : t) (busword nwords i : Z) (st : state) :
  let s := make_slot self busword nwords i in
  lo s < alignment_bits self -> hi s <= alignment_bits self ->
  slot_w st s = 0.
Proof.
  intros s Hlo Hhi. unfold slot_w, wire_value. subst s. simpl in *.
  destruct (Z.leb_spec (alignment_bits self) (i * busword)); [lia|].
  destruct (Z.ltb_spec (alignment_bits self)
              (i * busword + Z.min (size self - i * busword) busword)); [lia|].
  simpl. unfold Bits.truncate. apply Z.land_0_l.
Qed.

(** In both cases this is the aligned read-back. *)
Lemma read_aligned_outside_straddle (self : t) (busword nwords i : Z) (st : state) :
  let s := make_slot self busword nwords i in
  0 <= alignment_bits self -> 0 <= lo s ->
  alignment_bits self <= lo s \/ hi s <= alignment_bits self ->
  slot_w st s = aligned_read (alignment_bits self) (storage_full st) (lo s) (hi s).
Proof.
  intros s Ha Hl Hcase. unfold aligned_read. subst s.
  set (s := make_slot self busword nwords i) in *.
  assert (Hcases : alignment_bits self <= lo s
                   \/ (lo s < alignment_bits self /\ hi s <= alignment_bits self)) by lia.
  destruct Hcases as [Habove|[Hlo Hhi]].
  - pose proof (read_above_alignment self busword nwords i st Habove) as Hrd.
    fold s in Hrd. simpl in Hrd. rewrite Hrd.
    apply Z.bits_inj'. intros n Hn. rewrite !testbit_slice by lia.
    rewrite Z.ldiff_spec, Z.testbit_ones_nonneg by lia.
    replace (n + lo s <? alignment_bits self) with false
      by (symmetry; apply Z.ltb_ge; lia).
    simpl. rewrite andb_true_r. reflexivity.
  - pose proof (read_below_alignment self busword nwords i st Hlo Hhi) as Hrd.
    fold s in Hrd. simpl in Hrd. rewrite Hrd.
    apply Z.bits_inj'. intros n Hn. rewrite Z.bits_0, testbit_slice by lia.
    rewrite Z.ldiff_spec, Z.testbit_ones_nonneg by lia.
    destruct (Z.ltb_spec n (hi s - lo s)).
    + replace (n + lo s <? alignment_bits self) with true
        by (symmetry; apply Z.ltb_lt; lia).
      simpl. rewrite !andb_false_r. reflexivity.
    + rewrite andb_false_r. reflexivity.
Qed.

(** C2, at a slot that straddles the alignment.  An 8-bit register
    with an alignment of 2 on an 8-bit bus has one slot, covering bits
    [0, 8).  With all eight bits of the stored value set, the slot
    reads 0b11000000: six zeros and then stored bits 2 and 3, where
    the aligned read-back is 0b11111100; bit 2 of the read-back is 0
    although bit 2 of the stored value is 1. *)
Theorem read_straddling_alignment :
  exists s,
    do_finalize reg8_aligned 8 = Ok (mkhw [s] None 0)
    /\ lo s = 0 /\ hi s = 8
    /\ read s = WCatZeros 6 2 8
    /\ slot_w (mkstate 255 0 false) s = 192
    /\ aligned_read 2 255 0 8 = 252
    /\ Z.testbit (slot_w (mkstate 255 0 false) s) 2 = false
    /\ Z.testbit 255 (0 + 2) = true.
Proof. eexists. vm_compute. repeat split. Qed.

End AlignedRead.

(** ** The address-decode width of a bank *)

Section DecodeWidth.
Import GenericBank.

Lemma bits_for_pred (n : Z) :
  0 <= n -> bits_for (n - 1) = Z.max 1 (Z.log2_up n).
Proof.
  intros Hn. unfold bits_for, log2_int, bit_length.
  destruct (Z.ltb_spec 0 (n - 1)) as [Hpos|Hsmall].
  - replace (n - 1 + 1) with n by lia.
    destruct (Z.eqb_spec n 0); [lia|].
    destruct (Z.eqb_spec (n - 1) 0); [lia|].
    rewrite Z.log2_up_eqn by lia. rewrite Z.abs_eq by lia.
    replace (Z.pred n) with (n - 1) by lia.
    pose proof (Z.log2_nonneg (n - 1)). lia.
  - assert (Hcases : n = 0 \/ n = 1) by lia.
    destruct Hcases as [->| ->]; reflexivity.
Qed.

(** C9 (amended). The decode width of a bank is [bits_for] of its
    last slot index: with [slot_count] simple CSRs it is
    max(1, ceil(log2(slot_count))), which is enough to give each
    simple CSR an address of its own. *)
Theorem decode_bits_width
    (description : list csr_description) (busword : Z) (bank : GenericBank.t) :
  init description busword = Ok bank ->
  decode_bits bank = bits_for (slot_count bank - 1)
  /\ decode_bits bank = Z.max 1 (Z.log2_up (slot_count bank))
  /\ slot_count bank <= 2 ^ decode_bits bank.
Proof.
  unfold init. unfold_bind.
  destruct (gather description busword []) as [scs|e]; [|discriminate].
  intros [= <-]. unfold slot_count. simpl.
  set (n := Z.of_nat (length scs)). assert (Hn : 0 <= n) by lia.
  split; [reflexivity|]. rewrite (bits_for_pred n Hn). split; [reflexivity|].
  destruct (Z.le_gt_cases n 1) as [Hle|Hgt].
  - apply Z.le_trans with (2 ^ 1); [simpl; lia|].
    apply Z.pow_le_mono_r; lia.
  - pose proof (Z.log2_up_spec n Hgt) as [_ Hup].
    pose proof (Z.log2_up_pos n Hgt). rewrite Z.max_r by lia. exact Hup.
Qed.

Lemma decode_bits_width_witness :
  exists bank,
    init [DStatus (CSRStatus.mk 40 "status" 0); DCSR (CSR.mk 1 "irq")] 8 = Ok bank
    /\ slot_count bank = 6
    /\ decode_bits bank = Z.max 1 (Z.log2_up (slot_count bank))
    /\ slot_count bank <= 2 ^ decode_bits bank.
Proof.
  eexists. split; [reflexivity|]. split; [reflexivity|].
  apply (proj2 (decode_bits_width
                  [DStatus (CSRStatus.mk 40 "status" 0); DCSR (CSR.mk 1 "irq")]
                  8 _ eq_refl)).
Defined.

(** C9 as stated fails: a bank of five simple CSRs gets a decode
    width of 3, where ceil(log2(max(1, 5 - 1))) is 2. *)
Lemma decode_bits_not_spec_width :
  exists bank,
    init [DStatus (CSRStatus.mk 40 "status" 0)] 8 = Ok bank
    /\ slot_count bank = 5
    /\ decode_bits bank = 3
    /\ spec_decode_width (slot_count bank) = 2
    /\ decode_bits bank <> spec_decode_width (slot_count bank).
Proof. eexists. vm_compute. repeat split; discriminate. Qed.

End DecodeWidth.

(** ** Collecting registers: [get_csrs] *)

Section Collection.
Import CollectSpec.

(** Induction on the component tree. *)
Lemma node_nested_ind (P : node -> Prop)
      (Hcsr : forall d, P (Csr d))
      (Hprov : forall items, P (Provider items))
      (Hother : P Other)
      (Hauto : forall cid exclude attrs,
          Forall (fun kv => P (snd kv)) attrs -> P (Auto cid exclude attrs)) :
  forall v, P v.
Proof.
  fix IH 1. intros [d|items|cid exclude attrs|].
  - apply Hcsr.
  - apply Hprov.
  - apply Hauto. induction attrs as [|[k v] attrs IHattrs]; constructor.
    + apply IH.
    + apply IHattrs.
  - apply Hother.
Qed.

Lemma fold_gather_fst (cid : Z) (exclude : list string)
      (attrs : list (string * node)) (acc : list Z * store) :
  Forall (fun kv => forall s, fst (get_csrs (snd kv) s) = ids (snd kv)) attrs ->
  fst (fold_left (gather_attr get_csrs cid exclude) attrs acc)
  = fst acc ++ merged exclude attrs.
Proof.
  intros Hall. revert acc.
  induction Hall as [|[k v] attrs Hv _ IH]; intros acc; cbn [fold_left].
  - unfold merged. cbn [map concat]. rewrite app_nil_r. reflexivity.
  - rewrite IH. unfold merged. cbn [map concat]. rewrite app_assoc. f_equal.
    cbn [snd] in Hv. unfold gather_attr, attr_ids.
    destruct (bool_decide (k ∈ exclude)); [rewrite app_nil_r; reflexivity|].
    destruct v; cbn [fst snd]; rewrite ?Hv, ?app_nil_r; reflexivity.
Qed.

(** What [get_csrs] returns does not depend on the store. *)
Lemma get_csrs_ids (v : node) : forall s, fst (get_csrs v s) = ids v.
Proof.
  induction v as [d|items| |cid exclude attrs IH] using node_nested_ind; intros s;
    try reflexivity.
  cbn [get_csrs ids fst]. rewrite fold_gather_fst by exact IH. reflexivity.
Qed.

Lemma merged_Permutation (exclude : list string) (attrs attrs' : list (string * node)) :
  attrs ≡ₚ attrs' -> merged exclude attrs ≡ₚ merged exclude attrs'.
Proof.
  intros H. unfold merged. induction H; simpl.
  - reflexivity.
  - apply Permutation_app_head. assumption.
  - rewrite !app_assoc. apply Permutation_app_tail, Permutation_app_comm.
  - etransitivity; eassumption.
Qed.

Lemma get_csrs_auto (cid : Z) (exclude : list string)
      (attrs : list (string * node)) (s : store) :
  fst (get_csrs (Auto cid exclude attrs) s) = sorted_by_duid (merged exclude attrs).
Proof. rewrite get_csrs_ids. reflexivity. Qed.

Lemma sorted_by_duid_Sorted (r : list Z) : Sorted Z.le (sorted_by_duid r).
Proof. apply (Sorted_merge_sort Z.le). Qed.

Lemma sorted_by_duid_Permutation (r : list Z) : sorted_by_duid r ≡ₚ r.
Proof. apply (merge_sort_Permutation Z.le). Qed.

(** C5. [get_csrs] on a component returns its merged items sorted by
    DUID, ascending, and the list it returns is the same whatever the
    order in which the attributes of the component are iterated. *)
Theorem get_csrs_sorted (cid : Z) (exclude : list string)
        (attrs : list (string * node)) (s : store) :
  Sorted Z.le (fst (get_csrs (Auto cid exclude attrs) s))
  /\ fst (get_csrs (Auto cid exclude attrs) s) ≡ₚ merged exclude attrs
  /\ (forall attrs' s',
         attrs' ≡ₚ attrs ->
         fst (get_csrs (Auto cid exclude attrs') s')
         = fst (get_csrs (Auto cid exclude attrs) s)).
Proof.
  rewrite get_csrs_auto.
  split; [apply sorted_by_duid_Sorted|].
  split; [apply sorted_by_duid_Permutation|].
  intros attrs' s' Hperm. rewrite get_csrs_auto.
  apply (Sorted_unique Z.le); try apply sorted_by_duid_Sorted.
  rewrite !sorted_by_duid_Permutation.
  apply merged_Permutation. exact Hperm.
Qed.

Lemma get_csrs_sorted_witness :
  fst (get_csrs rootBA store0) = fst (get_csrs rootAB store0)
  /\ fst (get_csrs rootAB store0) = [1; 2; 3].
Proof.
  split; [|reflexivity].
  apply (proj2 (proj2 (get_csrs_sorted 12 []
                         [("a", compA); ("b", compB); ("n", Other)] store0))).
  change [("n", Other); ("b", compB); ("a", compA)]
    with (rev [("a", compA); ("b", compB); ("n", Other)]).
  symmetry. apply Permutation_rev.
Defined.

(** When the gathered items are pairwise distinct the order is strict. *)
Lemma get_csrs_strictly_sorted (cid : Z) (exclude : list string)
      (attrs : list (string * node)) (s : store) :
  NoDup (merged exclude attrs) ->
  Sorted Z.lt (fst (get_csrs (Auto cid exclude attrs) s)).
Proof.
  intros Hnd. rewrite get_csrs_auto.
  pose proof (sorted_by_duid_Sorted (merged exclude attrs)) as Hs.
  assert (Hnd' : NoDup (sorted_by_duid (merged exclude attrs)))
    by (rewrite sorted_by_duid_Permutation; exact Hnd).
  apply Sorted_StronglySorted in Hs; [|intros x y z; apply Z.le_trans].
  revert Hs Hnd'. generalize (sorted_by_duid (merged exclude attrs)) as l.
  induction l as [|x l IH]; intros Hss Hnd'; [constructor|].
  apply StronglySorted_inv in Hss. destruct Hss as [Hss Hall].
  apply NoDup_cons in Hnd'. destruct Hnd' as [Hx Hnd'].
  constructor; [apply IH; assumption|].
  destruct l as [|y l]; constructor.
  apply Forall_inv in Hall. assert (x <> y) by (intros ->; apply Hx; left). lia.
Qed.

(** *** The store along a call *)

Lemma done_set_insert (nm : gmap Z string) (P : gmap Z (gset Z)) (cid c : Z) (X : gset Z) :
  done_set (mkstore nm (<[cid := X]> P)) c
  = if decide (cid = c) then X else default ∅ (P !! c).
Proof.
  unfold done_set. cbn [prefixed]. rewrite lookup_insert.
  destruct (decide (cid = c)); reflexivity.
Qed.

Lemma done_set_get_prefixed (cid : Z) (s : store) (c : Z) :
  done_set (get_prefixed cid s) c = done_set s c.
Proof.
  unfold get_prefixed. destruct (prefixed s !! cid) eqn:Hl; [reflexivity|].
  rewrite done_set_insert. destruct (decide (cid = c)) as [<-|]; [|reflexivity].
  unfold done_set. rewrite Hl. reflexivity.
Qed.

Lemma names_get_prefixed (cid : Z) (s : store) : names (get_prefixed cid s) = names s.
Proof. unfold get_prefixed. destruct (prefixed s !! cid); reflexivity. Qed.

Lemma evolves_refl (s : store) : evolves s s.
Proof.
  split; [reflexivity|]. intros d n Hn. exists EmptyString. split; [exact Hn|].
  intros (c & Hout & Hin). contradiction.
Qed.

Lemma append_assoc (a b c : string) : (a +:+ b) +:+ c = a +:+ (b +:+ c).
Proof.
  induction a as [|x a IH]; [reflexivity|].
  change (String x ((a +:+ b) +:+ c) = String x (a +:+ (b +:+ c))).
  f_equal. exact IH.
Qed.

Lemma append_empty_inv (a b : string) :
  a +:+ b = EmptyString -> a = EmptyString /\ b = EmptyString.
Proof.
  destruct a as [|x a]; intros H.
  - split; [reflexivity|exact H].
  - change (String x (a +:+ b) = EmptyString) in H. discriminate.
Qed.

Lemma evolves_trans (s1 s2 s3 : store) : evolves s1 s2 -> evolves s2 s3 -> evolves s1 s3.
Proof.
  intros [Hg1 Hn1] [Hg2 Hn2]. split.
  - intros c. etransitivity; [apply Hg1|apply Hg2].
  - intros d n Hn. destruct (Hn1 d n Hn) as (p1 & Hp1 & Hne1).
    destruct (Hn2 d _ Hp1) as (p2 & Hp2 & Hne2).
    exists (p2 +:+ p1). split; [rewrite append_assoc; exact Hp2|].
    intros (c & Hout & Hin) Hempty.
    apply append_empty_inv in Hempty. destruct Hempty as [E2 E1].
    destruct (decide (d ∈ done_set s2 c)) as [Hmid|Hmid].
    + apply Hne1; [exists c; split; assumption|exact E1].
    + apply Hne2; [exists c; split; assumption|exact E2].
Qed.

Lemma same_view_evolves (s s' : store) : same_view s s' -> evolves s s'.
Proof.
  intros [Hn Hd]. split.
  - intros c. rewrite Hd. reflexivity.
  - intros d n Hl. exists EmptyString. rewrite Hn. split; [exact Hl|].
    intros (c & Hout & Hin). rewrite Hd in Hin. contradiction.
Qed.

Lemma same_view_refl (s : store) : same_view s s.
Proof. split; [reflexivity|]. intros c. reflexivity. Qed.

Lemma same_view_trans (s1 s2 s3 : store) :
  same_view s1 s2 -> same_view s2 s3 -> same_view s1 s3.
Proof.
  intros [Hn1 Hd1] [Hn2 Hd2]. split; [congruence|].
  intros c. rewrite Hd2. apply Hd1.
Qed.

Lemma get_prefixed_same_view (cid : Z) (s : store) : same_view s (get_prefixed cid s).
Proof. split; [apply names_get_prefixed|]. intros c. apply done_set_get_prefixed. Qed.

(** *** [csrprefix] *)

(** One round of the loop of [csrprefix]. *)
Lemma csrprefix_cons (prefix : string) (csr : Z) (rest : list Z) (done : Z) (s : store) :
  csrprefix prefix (csr :: rest) done s
  = csrprefix prefix rest done
      (if bool_decide (csr ∈ done_set s done) then s
       else mkstore (alter (String.append prefix) csr (names s))
                    (<[done := {[csr]} ∪ done_set s done]> (prefixed s))).
Proof. reflexivity. Qed.

Lemma csrprefix_round_evolves (prefix : string) (csr done : Z) (s : store) :
  prefix <> EmptyString ->
  evolves s (if bool_decide (csr ∈ done_set s done) then s
             else mkstore (alter (String.append prefix) csr (names s))
                          (<[done := {[csr]} ∪ done_set s done]> (prefixed s))).
Proof.
  intros Hp. destruct (bool_decide (csr ∈ done_set s done)) eqn:Hin; [apply evolves_refl|].
  apply bool_decide_eq_false in Hin. split.
  - intros c. rewrite done_set_insert. destruct (decide (done = c)) as [<-|].
    + set_solver.
    + reflexivity.
  - intros d n Hn. cbn [names]. rewrite lookup_alter.
    destruct (decide (csr = d)) as [<-|Hne].
    + exists prefix. rewrite Hn. split; [reflexivity|]. intros _. exact Hp.
    + exists EmptyString. split; [exact Hn|].
      intros (c & Hout & Hnew). exfalso. rewrite done_set_insert in Hnew.
      destruct (decide (done = c)) as [<-|].
      * apply Hout. apply elem_of_union in Hnew. destruct Hnew as [Hx|Hx]; [|exact Hx].
        apply elem_of_singleton in Hx. congruence.
      * contradiction.
Qed.

Lemma csrprefix_evolves (prefix : string) (csrs : list Z) (done : Z) (s : store) :
  prefix <> EmptyString -> evolves s (csrprefix prefix csrs done s).
Proof.
  intros Hp. revert s. induction csrs as [|csr rest IH]; intros s.
  - apply evolves_refl.
  - rewrite csrprefix_cons. eapply evolves_trans; [|apply IH].
    apply csrprefix_round_evolves. exact Hp.
Qed.

(** After [csrprefix], every item of the list is in the set. *)
Lemma csrprefix_done (prefix : string) (csrs : list Z) (done : Z) (s : store) (d : Z) :
  prefix <> EmptyString ->
  d ∈ csrs -> d ∈ done_set (csrprefix prefix csrs done s) done.
Proof.
  intros Hp. revert s. induction csrs as [|csr rest IH]; intros s Hd.
  - inversion Hd.
  - rewrite csrprefix_cons. apply elem_of_cons in Hd. destruct Hd as [->|Hd].
    + apply (proj1 (csrprefix_evolves prefix rest done _ Hp) done).
      destruct (bool_decide (csr ∈ done_set s done)) eqn:Hin.
      * apply bool_decide_eq_true in Hin. exact Hin.
      * rewrite done_set_insert. destruct (decide (done = done)); [|contradiction].
        set_solver.
    + apply IH. exact Hd.
Qed.

(** Items that are all in the set already: [csrprefix] changes nothing. *)
Lemma csrprefix_noop (prefix : string) (csrs : list Z) (done : Z) (s : store) :
  (forall d, d ∈ csrs -> d ∈ done_set s done) ->
  csrprefix prefix csrs done s = s.
Proof.
  induction csrs as [|csr rest IH]; intros Hall; [reflexivity|].
  rewrite csrprefix_cons.
  rewrite bool_decide_eq_true_2 by (apply Hall; left).
  apply IH. intros d Hd. apply Hall. right. exact Hd.
Qed.

(** An item that is in the set keeps its name. *)
Lemma csrprefix_done_name (prefix : string) (csrs : list Z) (done : Z) (s : store) (d : Z) :
  d ∈ done_set s done ->
  names (csrprefix prefix csrs done s) !! d = names s !! d.
Proof.
  revert s. induction csrs as [|csr rest IH]; intros s Hd; [reflexivity|].
  rewrite csrprefix_cons.
  destruct (bool_decide (csr ∈ done_set s done)) eqn:Hin; [apply IH; exact Hd|].
  apply bool_decide_eq_false in Hin.
  rewrite IH.
  - cbn [names]. apply lookup_alter_ne. intros ->. contradiction.
  - rewrite done_set_insert. destruct (decide (done = done)); [|contradiction].
    apply elem_of_union. right. exact Hd.
Qed.

(** An item of the list that is not in the set yet gets the prefix,
    once, in the store. *)
Lemma csrprefix_fresh_name (prefix : string) (csrs : list Z) (done : Z) (s : store)
      (d : Z) (n : string) :
  d ∈ csrs -> d ∉ done_set s done -> names s !! d = Some n ->
  names (csrprefix prefix csrs done s) !! d = Some (prefix +:+ n).
Proof.
  revert s. induction csrs as [|csr rest IH]; intros s Hd Hfresh Hn.
  - inversion Hd.
  - rewrite csrprefix_cons. destruct (decide (csr = d)) as [->|Hne].
    + rewrite bool_decide_eq_false_2 by exact Hfresh.
      rewrite csrprefix_done_name.
      * cbn [names]. rewrite lookup_alter_eq, Hn. reflexivity.
      * rewrite done_set_insert. destruct (decide (done = done)); [|contradiction].
        apply elem_of_union. left. apply elem_of_singleton. reflexivity.
    + apply elem_of_cons in Hd. destruct Hd as [->|Hd]; [contradiction|].
      destruct (bool_decide (csr ∈ done_set s done)) eqn:Hin; [apply IH; assumption|].
      apply IH; [exact Hd| |].
      * rewrite done_set_insert. destruct (decide (done = done)); [|contradiction].
        intros Hx. apply elem_of_union in Hx. destruct Hx as [Hx|Hx]; [|contradiction].
        apply elem_of_singleton in Hx. congruence.
      * cbn [names]. rewrite lookup_alter_ne by exact Hne. exact Hn.
Qed.

Lemma attr_prefix_nonempty (k : string) : k +:+ "_" <> EmptyString.
Proof.
  intros H. apply append_empty_inv in H. destruct H as [_ H]. discriminate.
Qed.

(** *** The gatherer *)

(** One round of the loop, on a collector that is not excluded. *)
Lemma gather_attr_collector (cid : Z) (exclude : list string)
      (acc : list Z * store) (k : string) (v : node) :
  k ∉ exclude -> is_collector v = true ->
  gather_attr get_csrs cid exclude acc (k, v)
  = (fst acc ++ fst (get_csrs v (snd acc)),
     csrprefix (k +:+ "_") (fst (get_csrs v (snd acc))) cid (snd (get_csrs v (snd acc)))).
Proof.
  intros Hk Hv. unfold gather_attr. rewrite bool_decide_eq_false_2 by exact Hk.
  destruct v; try discriminate; reflexivity.
Qed.

(** One round of the loop, on anything else: the store is as before. *)
Lemma gather_attr_passive (cid : Z) (exclude : list string)
      (acc : list Z * store) (k : string) (v : node) :
(k ∈ exclude) \/ is_collector v = false ->
  snd (gather_attr get_csrs cid exclude acc (k, v)) = snd acc.
Proof.
  intros H. unfold gather_attr. destruct (bool_decide (k ∈ exclude)) eqn:Hk; [reflexivity|].
  apply bool_decide_eq_false in Hk. destruct H as [H|H]; [contradiction|].
  destruct v; try discriminate; reflexivity.
Qed.

Lemma attr_cases (exclude : list string) (k : string) (v : node) :
  ((k ∉ exclude) /\ is_collector v = true) \/ ((k ∈ exclude) \/ is_collector v = false).
Proof.
  destruct (decide (k ∈ exclude)); [right; left; assumption|].
  destruct (is_collector v); [left|right; right]; auto.
Qed.

Lemma gather_attr_evolves (cid : Z) (exclude : list string)
      (acc : list Z * store) (k : string) (v : node) :
  (forall s, evolves s (snd (get_csrs v s))) ->
  evolves (snd acc) (snd (gather_attr get_csrs cid exclude acc (k, v))).
Proof.
  intros Hv. destruct (attr_cases exclude k v) as [[Hk Hc]|Hp].
  - rewrite gather_attr_collector by assumption. cbn [snd].
    eapply evolves_trans; [apply Hv|].
    apply csrprefix_evolves, attr_prefix_nonempty.
  - rewrite gather_attr_passive by exact Hp. apply evolves_refl.
Qed.

Lemma fold_gather_evolves (cid : Z) (exclude : list string)
      (attrs : list (string * node)) (acc : list Z * store) :
  Forall (fun kv => forall s, evolves s (snd (get_csrs (snd kv) s))) attrs ->
  evolves (snd acc) (snd (fold_left (gather_attr get_csrs cid exclude) attrs acc)).
Proof.
  intros Hall. revert acc.
  induction Hall as [|[k v] attrs Hv _ IH]; intros acc; cbn [fold_left].
  - apply evolves_refl.
  - eapply evolves_trans; [|apply IH]. apply gather_attr_evolves. exact Hv.
Qed.

(** Along a call the sets grow and the names get prefixes. *)
Lemma get_csrs_evolves (v : node) : forall s, evolves s (snd (get_csrs v s)).
Proof.
  induction v as [d|items| |cid exclude attrs IH] using node_nested_ind; intros s;
    try apply evolves_refl.
  cbn [get_csrs snd].
  eapply evolves_trans; [apply same_view_evolves, get_prefixed_same_view|].
  apply (fold_gather_evolves cid exclude attrs ([], get_prefixed cid s) IH).
Qed.

Lemma covered_mono (v : node) :
  forall s s', (forall c, done_set s c ⊆ done_set s' c) -> covered s v -> covered s' v.
Proof.
  induction v as [d|items| |cid exclude attrs IH] using node_nested_ind;
    intros s s' Hg Hc; try constructor.
  inversion Hc as [| | |? ? ? Hall]; subst. clear Hc.
  induction IH as [|[k v] attrs Hv _ IHattrs]; [constructor|].
  inversion Hall as [|? ? Hhead Htail]; subst.
  constructor; [|apply IHattrs; exact Htail].
  intros Hk Hcol. destruct (Hhead Hk Hcol) as [Hcov Hin].
  split; [eapply Hv; eassumption|].
  intros d Hd. apply Hg, Hin, Hd.
Qed.

(** After the loop, the set of the component holds the items of each
    of its collector attributes, and so it is below. *)
Lemma fold_gather_covered (cid : Z) (exclude : list string)
      (attrs : list (string * node)) (acc : list Z * store) :
  Forall (fun kv => forall s, evolves s (snd (get_csrs (snd kv) s))) attrs ->
  Forall (fun kv => forall s, covered (snd (get_csrs (snd kv) s)) (snd kv)) attrs ->
  covered (snd (fold_left (gather_attr get_csrs cid exclude) attrs acc))
          (Auto cid exclude attrs).
Proof.
  intros Hev Hcov. constructor. revert acc.
  induction Hcov as [|[k v] attrs Hv _ IH]; intros acc; [constructor|].
  inversion Hev as [|? ? Hevv Hevs]; subst. cbn [fold_left].
  constructor; [|apply IH; exact Hevs].
  cbn [fst snd]. intros Hk Hcol.
  pose proof (fold_gather_evolves cid exclude attrs
                (gather_attr get_csrs cid exclude acc (k, v)) Hevs) as [Hgrow _].
  rewrite gather_attr_collector in Hgrow by assumption. cbn [snd] in Hgrow.
  rewrite gather_attr_collector by assumption.
  split.
  - eapply covered_mono; [exact Hgrow|].
    eapply covered_mono; [|apply Hv].
    apply (csrprefix_evolves _ _ _ _ (attr_prefix_nonempty k)).
  - intros d Hd. apply Hgrow. apply csrprefix_done; [apply attr_prefix_nonempty|].
    rewrite get_csrs_ids. exact Hd.
Qed.

Lemma get_csrs_covered (v : node) : forall s, covered (snd (get_csrs v s)) v.
Proof.
  induction v as [d|items| |cid exclude attrs IH] using node_nested_ind; intros s;
    [constructor|constructor|constructor|].
  cbn [get_csrs snd]. apply fold_gather_covered; [|exact IH].
  apply Forall_forall. intros kv _. apply get_csrs_evolves.
Qed.

Lemma covered_same_view (v : node) (s s' : store) :
  same_view s s' -> covered s v -> covered s' v.
Proof.
  intros [_ Hd]. apply covered_mono. intros c. rewrite Hd. reflexivity.
Qed.

(** On a store where everything is covered, the loop changes neither a
    name nor a set. *)
Lemma fold_gather_same_view (cid : Z) (exclude : list string)
      (attrs : list (string * node)) :
  Forall (fun kv => forall s, covered s (snd kv) ->
                    same_view s (snd (get_csrs (snd kv) s))) attrs ->
  forall acc,
    covered (snd acc) (Auto cid exclude attrs) ->
    same_view (snd acc) (snd (fold_left (gather_attr get_csrs cid exclude) attrs acc)).
Proof.
  intros Hall. induction Hall as [|[k v] attrs Hv _ IH]; intros acc Hc; cbn [fold_left].
  - apply same_view_refl.
  - inversion Hc as [| | |? ? ? Hcond]; subst.
    inversion Hcond as [|? ? Hhead Htail]; subst. cbn [fst snd] in Hhead, Hv.
    assert (Hstep : same_view (snd acc) (snd (gather_attr get_csrs cid exclude acc (k, v)))).
    { destruct (attr_cases exclude k v) as [[Hk Hcol]|Hp].
      - destruct (Hhead Hk Hcol) as [Hcov Hin].
        rewrite gather_attr_collector by assumption. cbn [snd].
        pose proof (Hv (snd acc) Hcov) as Hsv.
        rewrite csrprefix_noop; [exact Hsv|].
        intros d Hd. rewrite get_csrs_ids in Hd.
        destruct Hsv as [_ Hsets]. rewrite Hsets. apply Hin, Hd.
      - rewrite gather_attr_passive by exact Hp. apply same_view_refl. }
    eapply same_view_trans; [exact Hstep|]. apply IH.
    eapply covered_same_view; [exact Hstep|]. constructor. exact Htail.
Qed.

Lemma get_csrs_same_view (v : node) :
  forall s, covered s v -> same_view s (snd (get_csrs v s)).
Proof.
  induction v as [d|items| |cid exclude attrs IH] using node_nested_ind; intros s Hc;
    try apply same_view_refl.
  cbn [get_csrs snd].
  eapply same_view_trans; [apply get_prefixed_same_view|].
  apply (fold_gather_same_view cid exclude attrs IH ([], get_prefixed cid s)).
  eapply covered_same_view; [apply get_prefixed_same_view|exact Hc].
Qed.

(** C6. A second call of [get_csrs] on the same component returns the
    same items with the same names as the first: no name gets a prefix
    a second time, all the names are as the first call left them. *)
Theorem get_csrs_idempotent (root : node) (s : store) :
  fst (get_csrs root (snd (get_csrs root s))) = fst (get_csrs root s)
  /\ names (snd (get_csrs root (snd (get_csrs root s)))) = names (snd (get_csrs root s))
  /\ item_names (snd (get_csrs root (snd (get_csrs root s))))
                (fst (get_csrs root (snd (get_csrs root s))))
     = item_names (snd (get_csrs root s)) (fst (get_csrs root s)).
Proof.
  pose proof (get_csrs_same_view root _ (get_csrs_covered root s)) as [Hnames _].
  rewrite !get_csrs_ids. split; [reflexivity|]. split; [exact Hnames|].
  unfold item_names. rewrite Hnames. reflexivity.
Qed.

(** C10. When a component collects from a nested collector [sub], an
    item of [sub] that the component has not prefixed yet is renamed in
    the store itself: after the call its name is the old one with a
    prefix that is not empty, and [sub], asked on its own, returns the
    item under that new name. *)
Theorem csrprefix_renames_in_place
        (cid : Z) (exclude : list string) (attrs : list (string * node))
        (s : store) (k : string) (sub : node) (d : Z) (n : string) :
  (k, sub) ∈ attrs -> k ∉ exclude -> is_collector sub = true ->
  d ∈ ids sub -> names s !! d = Some n -> d ∉ done_set s cid ->
  exists p,
    p <> EmptyString
    /\ names (snd (get_csrs (Auto cid exclude attrs) s)) !! d = Some (p +:+ n)
    /\ d ∈ fst (get_csrs sub (snd (get_csrs (Auto cid exclude attrs) s)))
    /\ names (snd (get_csrs sub (snd (get_csrs (Auto cid exclude attrs) s)))) !! d
       = Some (p +:+ n).
Proof.
  intros Hattr Hk Hcol Hd Hn Hfresh.
  set (s' := snd (get_csrs (Auto cid exclude attrs) s)).
  pose proof (get_csrs_evolves (Auto cid exclude attrs) s) as [_ Hnames].
  pose proof (get_csrs_covered (Auto cid exclude attrs) s) as Hcov.
  fold s' in Hnames, Hcov.
  inversion Hcov as [| | |? ? ? Hall]; subst.
  rewrite Forall_forall in Hall.
  destruct (Hall _ Hattr Hk Hcol) as [Hsub Hin]. cbn [snd] in Hsub, Hin.
  destruct (Hnames d n Hn) as (p & Hp & Hne).
  exists p. split; [apply Hne; exists cid; split; [exact Hfresh|apply Hin, Hd]|].
  split; [exact Hp|]. split; [rewrite get_csrs_ids; exact Hd|].
  destruct (get_csrs_same_view sub s' Hsub) as [-> _]. exact Hp.
Qed.

Lemma csrprefix_renames_in_place_witness :
  exists p,
    p <> EmptyString
    /\ names (snd (get_csrs rootAB store0)) !! 1 = Some (p +:+ "r1")
    /\ 1 ∈ fst (get_csrs compA (snd (get_csrs rootAB store0)))
    /\ names (snd (get_csrs compA (snd (get_csrs rootAB store0)))) !! 1
       = Some (p +:+ "r1").
Proof.
  apply (csrprefix_renames_in_place 12 [] [("a", compA); ("b", compB); ("n", Other)]
           store0 "a" compA 1 "r1").
  - left.
  - apply not_elem_of_nil.
  - reflexivity.
  - vm_compute. left.
  - reflexivity.
  - change (1 ∉ (∅ : gset Z)). apply not_elem_of_empty.
Defined.

(** The names of the registers of A, read through A itself after the
    root has collected. *)
Example compA_sees_prefixed_names :
  item_names (snd (get_csrs compA store0)) (fst (get_csrs compA store0))
  = [Some "r1"; Some "r3"]
  /\ item_names (snd (get_csrs compA (snd (get_csrs rootAB store0))))
                (fst (get_csrs compA (snd (get_csrs rootAB store0))))
     = [Some "a_r1"; Some "a_r3"].
Proof. split; vm_compute; reflexivity. Qed.

End Collection.

(* ================================================================== *)
(** * Part III: further properties of the code *)
(* ================================================================== *)

(** ** Field aggregates *)

Section FieldAggregateFacts.
Import CSRFieldAggregate FieldSpec ExtraSpec.

Lemma check_names_from_spec (seen : list string) (fs : list CSRField.t) :
  check_names_from seen fs = Ok tt
  <-> NoDup (map CSRField.name fs)
      /\ (forall f, f ∈ fs -> CSRField.name f ∉ seen).
Proof.
  revert seen. induction fs as [|f fs IH]; intros seen; simpl.
  - split; [|reflexivity]. intros _. split; [constructor|]. intros f Hf. inversion Hf.
  - destruct (bool_decide (CSRField.name f ∈ seen)) eqn:Hin.
    + apply bool_decide_eq_true in Hin. split; [discriminate|].
      intros [_ Hfresh]. exfalso. apply (Hfresh f); [left|exact Hin].
    + apply bool_decide_eq_false in Hin. rewrite IH. split.
      * intros [Hnd Hfresh]. split.
        -- apply NoDup_cons. split; [|exact Hnd].
           intros Hdup. apply list_elem_of_fmap in Hdup.
           destruct Hdup as (g & Hname & Hg).
           apply (Hfresh g Hg). rewrite <- Hname. apply elem_of_app. right. left.
        -- intros g Hg Hseen. apply elem_of_cons in Hg. destruct Hg as [->|Hg].
           ++ contradiction.
           ++ apply (Hfresh g Hg). apply elem_of_app. left. exact Hseen.
      * intros [Hnd Hfresh]. apply NoDup_cons in Hnd. destruct Hnd as [Hf Hnd].
        split; [exact Hnd|]. intros g Hg Hseen.
        apply elem_of_app in Hseen. destruct Hseen as [Hseen|Hseen].
        -- apply (Hfresh g); [right; exact Hg|exact Hseen].
        -- apply list_elem_of_singleton in Hseen. apply Hf.
           rewrite <- Hseen. apply list_elem_of_fmap. exists g. split; [reflexivity|exact Hg].
Qed.

Lemma check_names_from_cases (seen : list string) (fs : list CSRField.t) :
  check_names_from seen fs = Ok tt
  \/ exists f, f ∈ fs
               /\ check_names_from seen fs
                  = Raise (ValueError (name_used_msg (CSRField.name f))).
Proof.
  revert seen. induction fs as [|f fs IH]; intros seen; simpl; [left; reflexivity|].
  destruct (bool_decide (CSRField.name f ∈ seen)).
  - right. exists f. split; [left|reflexivity].
  - destruct (IH (seen ++ [CSRField.name f])) as [Hok|(g & Hg & Herr)].
    + left. exact Hok.
    + right. exists g. split; [right; exact Hg|exact Herr].
Qed.

(** X1. [check_names] accepts a field list exactly when the names of
    its fields are pairwise distinct; otherwise it raises the
    name-already-used error of one of the fields. *)
Theorem check_names_distinct (fs : list CSRField.t) :
  (check_names fs = Ok tt <-> NoDup (map CSRField.name fs))
  /\ (check_names fs = Ok tt
      \/ exists f, f ∈ fs
                   /\ check_names fs
                      = Raise (ValueError (name_used_msg (CSRField.name f)))).
Proof.
  unfold check_names. split; [|apply check_names_from_cases].
  rewrite check_names_from_spec. split; [intros [H _]; exact H|].
  intros H. split; [exact H|]. intros f _ Hin. inversion Hin.
Qed.

(** What the loop returns: the cursor only moves up over fields of
    non-negative size, every returned field ends at or below the final
    cursor and at or below the offsets of the fields after it. *)
Lemma check_ordering_overlap_from_ordered (c : Z) (fs : list CSRField.t)
      (c' : Z) (out : list CSRField.t) :
  check_ordering_overlap_from c fs = Ok (c', out) ->
  Forall (fun f => 0 <= CSRField.size f) fs ->
  c <= c'
  /\ Forall (fun g => exists o, CSRField.offset g = Some o
                                /\ c <= o /\ o + CSRField.size g <= c') out
  /\ StronglySorted ends_before out.
Proof.
  revert c c' out. induction fs as [|f fs IH]; intros c c' out; simpl.
  - intros [= <- <-] _. split; [lia|]. split; constructor.
  - intros Hchk Hsz. inversion Hsz as [|? ? Hf Hrest]; subst.
    assert (Hstep : exists o rest f',
               c <= o
               /\ check_ordering_overlap_from (o + CSRField.size f) fs = Ok (c', rest)
               /\ out = f' :: rest
               /\ CSRField.offset f' = Some o
               /\ CSRField.size f' = CSRField.size f).
    { destruct (CSRField.offset f) as [o|] eqn:Hoff.
      - destruct (Z.ltb_spec o c); [discriminate|]. unfold_bind.
        destruct (check_ordering_overlap_from _ fs) as [[c1 o1]|e] eqn:Hr; [|discriminate].
        simpl in Hchk. injection Hchk as <- <-.
        exists o, o1, f. auto.
      - unfold_bind.
        destruct (check_ordering_overlap_from _ fs) as [[c1 o1]|e] eqn:Hr; [|discriminate].
        simpl in Hchk. injection Hchk as <- <-.
        exists c, o1, (CSRField.set_offset f c). repeat split; auto. lia. }
    destruct Hstep as (o & rest & f' & Hle & Hr & -> & Hoff & Hsize).
    destruct (IH _ _ _ Hr Hrest) as (Hc & Hall & Hsorted).
    split; [lia|]. split; [|constructor; [exact Hsorted|]].
    + constructor.
      * exists o. rewrite Hsize. repeat split; [exact Hoff|lia|lia].
      * eapply Forall_impl; [exact Hall|]. simpl.
        intros g (og & Hg & H1 & H2). exists og. repeat split; [exact Hg|lia|lia].
    + eapply Forall_impl; [exact Hall|]. simpl.
      intros g (og & Hg & H1 & _). exists o, og. rewrite Hsize. auto.
Qed.

(** X2. A field list that [check_ordering_overlap] accepts is laid out
    in order and without overlap, when no field has a negative size:
    every field has an offset at or above 0, ends at or below the final
    cursor, and ends at or before the offset of every field after it. *)
Theorem validated_fields_do_not_overlap
        (fs : list CSRField.t) (cursor : Z) (out : list CSRField.t) :
  check_ordering_overlap fs = Ok (cursor, out) ->
  Forall (fun f => 0 <= CSRField.size f) fs ->
  Forall2 validated_from fs out
  /\ Forall (fun g => exists o, CSRField.offset g = Some o
                                /\ 0 <= o /\ o + CSRField.size g <= cursor) out
  /\ StronglySorted ends_before out.
Proof.
  unfold check_ordering_overlap. intros Hchk Hsz.
  destruct (check_ordering_overlap_from_laid_out _ _ _ _ Hchk) as [_ Hv].
  destruct (check_ordering_overlap_from_ordered _ _ _ _ Hchk Hsz) as (_ & Hall & Hs).
  auto.
Qed.

Lemma validated_fields_do_not_overlap_witness :
  Forall (fun f => 0 <= CSRField.size f)
         [fld "en" 1 None 1; fld "mode" 3 (Some 4) 5; fld "irq" 2 None 0]
  /\ StronglySorted ends_before
       [fld "en" 1 (Some 0) 1; fld "mode" 3 (Some 4) 5; fld "irq" 2 (Some 7) 0].
Proof.
  assert (Hsz : Forall (fun f => 0 <= CSRField.size f)
                       [fld "en" 1 None 1; fld "mode" 3 (Some 4) 5; fld "irq" 2 None 0]).
  { repeat constructor; simpl; lia. }
  split; [exact Hsz|].
  apply (validated_fields_do_not_overlap
           [fld "en" 1 None 1; fld "mode" 3 (Some 4) 5; fld "irq" 2 None 0] 9
           _ eq_refl Hsz).
Defined.

(** The last field that the loop returns ends at the final cursor. *)
Lemma check_ordering_overlap_from_last (c : Z) (fs : list CSRField.t)
      (c' : Z) (out : list CSRField.t) :
  check_ordering_overlap_from c fs = Ok (c', out) ->
  fs <> [] ->
  exists g o, last out = Some g /\ CSRField.offset g = Some o
              /\ o + CSRField.size g = c'.
Proof.
  revert c c' out. induction fs as [|f fs IH]; intros c c' out Hchk Hne; [contradiction|].
  simpl in Hchk.
  assert (Hstep : exists o rest f',
             check_ordering_overlap_from (o + CSRField.size f) fs = Ok (c', rest)
             /\ out = f' :: rest
             /\ CSRField.offset f' = Some o
             /\ CSRField.size f' = CSRField.size f).
  { destruct (CSRField.offset f) as [o|] eqn:Hoff.
    - destruct (Z.ltb_spec o c); [discriminate|]. unfold_bind.
      destruct (check_ordering_overlap_from _ fs) as [[c1 o1]|e] eqn:Hr; [|discriminate].
      simpl in Hchk. injection Hchk as <- <-. exists o, o1, f. auto.
    - unfold_bind.
      destruct (check_ordering_overlap_from _ fs) as [[c1 o1]|e] eqn:Hr; [|discriminate].
      simpl in Hchk. injection Hchk as <- <-.
      exists c, o1, (CSRField.set_offset f c). auto. }
  destruct Hstep as (o & rest & f' & Hr & -> & Hoff & Hsize).
  destruct fs as [|f2 fs].
  - simpl in Hr. injection Hr as <- <-. exists f', o. rewrite Hsize. auto.
  - destruct (IH _ _ _ Hr ltac:(discriminate)) as (g & og & Hlast & Hg & Hend).
    exists g, og. rewrite last_cons, Hlast. auto.
Qed.

Lemma last_same_layout (gs hs : list CSRField.t) (g : CSRField.t) :
  Forall2 (fun f g => validated_from f g
                      /\ CSRField.offset g = CSRField.offset f) gs hs ->
  last gs = Some g ->
  exists h, last hs = Some h
            /\ CSRField.offset h = CSRField.offset g
            /\ CSRField.size h = CSRField.size g.
Proof.
  intros H. revert g. induction H as [|f h gs hs [(_ & Hs & _) Ho] Hrest IH]; intros g.
  - discriminate.
  - rewrite !last_cons. destruct (last gs) as [g'|] eqn:Hl.
    + intros [= <-]. destruct (IH g' eq_refl) as (h' & -> & Hh). exists h'. auto.
    + intros [= <-]. apply last_None in Hl. subst gs. inversion Hrest; subst.
      exists h. auto.
Qed.

Lemma init_inversion (fs : list CSRField.t) (access : access_mode)
      (agg : CSRFieldAggregate.t) :
  init fs access = Ok agg ->
  exists cursor out,
    check_names fs = Ok tt
    /\ check_ordering_overlap_from 0 fs = Ok (cursor, out)
    /\ set_accesses access out = Ok (fields agg).
Proof.
  unfold init, check_ordering_overlap. unfold_bind. intros Hinit.
  destruct (check_names fs) as [[]|]; [|discriminate].
  destruct (check_ordering_overlap_from 0 fs) as [[c out]|e] eqn:Hchk; [|discriminate].
  simpl in Hinit.
  destruct (set_accesses access out) as [out'|e] eqn:Hacc; [|discriminate].
  injection Hinit as <-. exists c, out. auto.
Qed.

Lemma init_last_field (fs : list CSRField.t) (access : access_mode)
      (agg : CSRFieldAggregate.t) (cursor : Z) (out : list CSRField.t) :
  check_ordering_overlap_from 0 fs = Ok (cursor, out) ->
  set_accesses access out = Ok (fields agg) ->
  fs <> [] ->
  exists h o, last (fields agg) = Some h /\ CSRField.offset h = Some o
              /\ o + CSRField.size h = cursor.
Proof.
  intros Hchk Hacc Hne.
  destruct (check_ordering_overlap_from_last _ _ _ _ Hchk Hne) as (g & o & Hlast & Hg & Hend).
  destruct (last_same_layout _ _ _ (set_accesses_validated _ _ _ Hacc) Hlast)
    as (h & Hh & Hho & Hhs).
  exists h, o. rewrite Hho, Hhs. auto.
Qed.

Lemma get_size_Ok (agg : CSRFieldAggregate.t) (total : Z) :
  get_size agg = Ok total ->
  exists h o, last (fields agg) = Some h /\ CSRField.offset h = Some o
              /\ total = o + CSRField.size h.
Proof.
  unfold get_size.
  destruct (has_attribute agg "get_size"); [discriminate|].
  destruct (has_attribute agg "fields"); [discriminate|].
  destruct (last (fields agg)) as [h|] eqn:Hh; [|discriminate].
  destruct (CSRField.offset h) as [o|] eqn:Ho; [|discriminate].
  intros [= <-]. exists h, o. split; [reflexivity|]. split; [exact Ho|reflexivity].
Qed.

Lemma get_reset_Ok (agg : CSRFieldAggregate.t) (reset : Z) :
  get_reset agg = Ok reset -> get_reset_from 0 (fields agg) = Ok reset.
Proof.
  unfold get_reset.
  destruct (has_attribute agg "get_reset"); [discriminate|].
  destruct (has_attribute agg "fields"); [discriminate|].
  auto.
Qed.

Lemma init_get_size (fs : list CSRField.t) (access : access_mode)
      (agg : CSRFieldAggregate.t) (cursor : Z) (out : list CSRField.t) :
  check_ordering_overlap_from 0 fs = Ok (cursor, out) ->
  set_accesses access out = Ok (fields agg) ->
  fs <> [] ->
  has_attribute agg "get_size" = false ->
  has_attribute agg "fields" = false ->
  get_size agg = Ok cursor.
Proof.
  intros Hchk Hacc Hne Hg Hf.
  destruct (init_last_field _ _ _ _ _ Hchk Hacc Hne) as (h & o & Hh & Ho & Hend).
  unfold get_size. rewrite Hg, Hf, Hh, Ho, Hend. reflexivity.
Qed.

(** X3. The size of an aggregate built from a non-empty field list in
    which no field is named [fields] or [get_size] is the cursor at
    which [check_ordering_overlap] ends, that is, the offset of the last
    field plus its size. *)
Theorem get_size_is_final_cursor
        (fs : list CSRField.t) (access : access_mode) (agg : CSRFieldAggregate.t) :
  init fs access = Ok agg ->
  fs <> [] ->
  not_a_field_name "fields" fs ->
  not_a_field_name "get_size" fs ->
  exists cursor out,
    check_ordering_overlap fs = Ok (cursor, out)
    /\ get_size agg = Ok cursor.
Proof.
  intros Hinit Hne Hnf Hng.
  destruct (init_inversion _ _ _ Hinit) as (c & out & _ & Hchk & Hacc).
  exists c, out. split; [exact Hchk|].
  eapply init_get_size; try eassumption.
  - exact (init_has_attribute _ _ _ _ Hinit Hng).
  - exact (init_has_attribute _ _ _ _ Hinit Hnf).
Qed.

Lemma get_size_is_final_cursor_witness :
  not_a_field_name "fields" [fld "en" 1 None 1; fld "mode" 3 (Some 4) 5]
  /\ not_a_field_name "get_size" [fld "en" 1 None 1; fld "mode" 3 (Some 4) 5]
  /\ exists cursor out,
       check_ordering_overlap [fld "en" 1 None 1; fld "mode" 3 (Some 4) 5] = Ok (cursor, out)
       /\ get_size (CSRFieldAggregate.mk
                      [CSRField.mk "en" 1 (Some 0) 1 (Some read_only) false;
                       CSRField.mk "mode" 3 (Some 4) 5 (Some read_only) false])
          = Ok cursor.
Proof.
  assert (Hnf : not_a_field_name "fields" [fld "en" 1 None 1; fld "mode" 3 (Some 4) 5]).
  { names_differ. }
  assert (Hng : not_a_field_name "get_size" [fld "en" 1 None 1; fld "mode" 3 (Some 4) 5]).
  { names_differ. }
  split; [exact Hnf|]. split; [exact Hng|].
  apply (get_size_is_final_cursor [fld "en" 1 None 1; fld "mode" 3 (Some 4) 5] read_only);
    [reflexivity|discriminate|exact Hnf|exact Hng].
Defined.

Lemma same_layout_ends (c : Z) (gs hs : list CSRField.t) :
  Forall2 (fun f g => validated_from f g
                      /\ CSRField.offset g = CSRField.offset f) gs hs ->
  Forall (fun g => exists o, CSRField.offset g = Some o
                             /\ 0 <= o /\ o + CSRField.size g <= c) gs ->
  Forall (fun g => exists o, CSRField.offset g = Some o
                             /\ 0 <= o /\ o + CSRField.size g <= c) hs.
Proof.
  intros H. induction H as [|g h gs hs [(_ & Hs & _) Ho] _ IH]; intros Hall.
  - constructor.
  - inversion Hall as [|? ? (o & Hg & H0 & H1) Hrest]; subst.
    constructor; [|apply IH; exact Hrest].
    exists o. rewrite Ho, Hs. auto.
Qed.

(** The OR of reset values that fit their fields, the fields ending at
    or below [c], is below [2^c]. *)
Lemma combined_below (c : Z) (gs : list CSRField.t) :
  0 <= c ->
  Forall (fun g => exists o, CSRField.offset g = Some o
                             /\ 0 <= o /\ o + CSRField.size g <= c) gs ->
  Forall reset_fits gs ->
  0 <= combined gs < 2 ^ c.
Proof.
  intros Hc Hends Hfit.
  assert (Hnn : 0 <= combined gs).
  { clear Hends. induction Hfit as [|g gs [_ [Hr _]] _ IH]; simpl; [lia|].
    apply Z.lor_nonneg. split; [|exact IH]. apply Z.shiftl_nonneg. exact Hr. }
  split; [exact Hnn|]. apply below_pow2_of_bits; [exact Hc|exact Hnn|].
  intros n Hn. clear Hnn.
  induction Hends as [|g gs (o & Ho & H0 & Hend) _ IH]; simpl; [apply Z.bits_0|].
  inversion Hfit as [|? ? [Hsz Hrng] Hrest]; subst.
  rewrite Z.lor_spec, IH by exact Hrest. rewrite Ho. simpl.
  rewrite Z.shiftl_spec by lia.
  rewrite (testbit_above (CSRField.reset_value g) (CSRField.size g)) by (try exact Hrng; lia).
  reflexivity.
Qed.

(** The size and the reset value that an aggregate built from a
    non-empty field list whose reset values fit their fields returns. *)
Lemma init_size_reset (fs : list CSRField.t) (access : access_mode)
      (agg : CSRFieldAggregate.t) (total reset : Z) :
  init fs access = Ok agg ->
  fs <> [] ->
  Forall reset_fits fs ->
  get_size agg = Ok total ->
  get_reset agg = Ok reset ->
  0 <= reset < 2 ^ total.
Proof.
  intros Hinit Hne Hfit Hsize Hreset.
  destruct (init_inversion _ _ _ Hinit) as (c & out & _ & Hchk & Hacc).
  assert (Hsz : Forall (fun f => 0 <= CSRField.size f) fs).
  { eapply Forall_impl; [exact Hfit|]. intros f [H _]. exact H. }
  destruct (check_ordering_overlap_from_ordered _ _ _ _ Hchk Hsz) as (Hc & Hends & _).
  destruct (check_ordering_overlap_from_laid_out _ _ _ _ Hchk) as [_ Hv].
  pose proof (set_accesses_validated _ _ _ Hacc) as Hv'.
  pose proof (same_layout_ends c _ _ Hv' Hends) as Hends'.
  pose proof (same_layout_reset_fits _ _ (Forall2_validated_trans _ _ _ Hv Hv') Hfit) as Hfit'.
  destruct (init_last_field _ _ _ _ _ Hchk Hacc Hne) as (h & o & Hh & Ho & Hend).
  destruct (get_size_Ok _ _ Hsize) as (h' & o' & Hh' & Ho' & ->).
  rewrite Hh in Hh'. injection Hh' as <-. rewrite Ho in Ho'. injection Ho' as <-.
  rewrite Hend.
  apply get_reset_Ok in Hreset. rewrite get_reset_from_combined in Hreset.
  - injection Hreset as <-. simpl. apply combined_below; assumption.
  - eapply Forall_impl; [exact Hends'|]. simpl. intros g (og & Hog & H0 & _). eauto.
Qed.

(** X4. A status or a storage register (without pulse fields)
    constructed from a non-empty field list whose reset values fit their
    fields takes its size and its reset value from the fields, whatever
    [size] and [reset] were passed, and the reset value fits the size of
    the register. *)
Theorem register_from_fields_reset_fits
        (size reset : Z) (fs : list CSRField.t) (name traced : option string) :
  fs <> [] ->
  Forall reset_fits fs ->
  (forall reg, CSRStatus_init size reset fs name traced = Ok reg ->
     exists agg, init fs read_only = Ok agg
                 /\ get_size agg = Ok (CSRStatus.size reg)
                 /\ get_reset agg = Ok (CSRStatus.reset reg)
                 /\ 0 <= CSRStatus.reset reg < 2 ^ CSRStatus.size reg)
  /\ (forall aw wd ab reg,
        Forall (fun f => CSRField.pulse f = false) fs ->
        CSRStorage_init size reset fs aw wd ab name traced = Ok reg ->
        exists agg, init fs read_write = Ok agg
                    /\ get_size agg = Ok (CSRStorage.size reg)
                    /\ get_reset agg = Ok (CSRStorage.reset reg)
                    /\ 0 <= CSRStorage.reset reg < 2 ^ CSRStorage.size reg).
Proof.
  intros Hne Hfit. split.
  - intros reg. unfold CSRStatus_init. destruct fs as [|f fs']; [contradiction|].
    unfold_bind. destruct (init (f :: fs') read_only) as [agg|e] eqn:Hinit; [|discriminate].
    destruct (get_size agg) as [total|e] eqn:Hs; [|discriminate].
    destruct (get_reset agg) as [rst|e] eqn:Hr; [|discriminate].
    cbn [fst snd].
    destruct (get_obj_var_name name traced); [|discriminate].
    destruct (Signal_new total); [|discriminate].
    intros [= <-]. exists agg. cbn [CSRStatus.size CSRStatus.reset].
    repeat split; auto; eapply init_size_reset; eassumption.
  - intros aw wd ab reg _. unfold CSRStorage_init. destruct fs as [|f fs']; [contradiction|].
    unfold_bind. destruct (init (f :: fs') read_write) as [agg|e] eqn:Hinit; [|discriminate].
    destruct (get_size agg) as [total|e] eqn:Hs; [|discriminate].
    destruct (get_reset agg) as [rst|e] eqn:Hr; [|discriminate].
    cbn [fst snd].
    destruct (get_obj_var_name name traced); [|discriminate].
    destruct (Signal_new total); [|discriminate].
    destruct (py_shiftr rst ab); [|discriminate].
    destruct (Signal_new (total - ab)); [|discriminate].
    destruct (existsb CSRField.pulse (f :: fs')); [discriminate|].
    intros [= <-]. exists agg. cbn [CSRStorage.size CSRStorage.reset].
    repeat split; auto; eapply init_size_reset; eassumption.
Qed.

Lemma register_from_fields_reset_fits_witness :
  [fld "en" 1 None 1; fld "mode" 3 (Some 4) 5] <> []
  /\ Forall reset_fits [fld "en" 1 None 1; fld "mode" 3 (Some 4) 5]
  /\ 0 <= CSRStatus.reset (CSRStatus.mk 7 "ctrl" 81) < 2 ^ CSRStatus.size (CSRStatus.mk 7 "ctrl" 81).
Proof.
  assert (Hfit : Forall reset_fits [fld "en" 1 None 1; fld "mode" 3 (Some 4) 5]).
  { repeat constructor; simpl; lia. }
  split; [discriminate|]. split; [exact Hfit|].
  destruct (proj1 (register_from_fields_reset_fits 1 0
                     [fld "en" 1 None 1; fld "mode" 3 (Some 4) 5] (Some "ctrl") None
                     ltac:(discriminate) Hfit)
              (CSRStatus.mk 7 "ctrl" 81) eq_refl) as (agg & _ & _ & _ & Hb).
  exact Hb.
Defined.

Lemma check_ordering_overlap_from_access (c : Z) (fs : list CSRField.t)
      (c' : Z) (out : list CSRField.t) :
  check_ordering_overlap_from c fs = Ok (c', out) ->
  Forall2 (fun f g => CSRField.access g = CSRField.access f) fs out.
Proof.
  revert c c' out. induction fs as [|f fs IH]; intros c c' out; simpl.
  - intros [= <- <-]. constructor.
  - destruct (CSRField.offset f) as [o|].
    + destruct (o <? c); [discriminate|]. unfold_bind.
      destruct (check_ordering_overlap_from _ fs) as [[c1 o1]|e] eqn:Hr; [|discriminate].
      simpl. intros [= <- <-]. constructor; [reflexivity|eapply IH; exact Hr].
    + unfold_bind.
      destruct (check_ordering_overlap_from _ fs) as [[c1 o1]|e] eqn:Hr; [|discriminate].
      simpl. intros [= <- <-]. constructor; [reflexivity|eapply IH; exact Hr].
Qed.

Lemma access_agrees_self (a : access_mode) : access_agrees a a.
Proof. destruct a; simpl; [exact I|reflexivity|discriminate]. Qed.

Lemma set_field_access_agrees (a : access_mode) (f g : CSRField.t) :
  set_field_access a f = Ok g ->
  exists m, CSRField.access g = Some m /\ access_agrees a m
            /\ (CSRField.access f = None -> m = a)
            /\ (forall m', CSRField.access f = Some m' -> m = m').
Proof.
  unfold set_field_access. destruct (CSRField.access f) as [fa|] eqn:Hfa.
  - intros Hg. exists fa.
    assert (Hgf : g = f /\ access_agrees a fa).
    { destruct a, fa; try discriminate; injection Hg as <-;
        (split; [reflexivity|simpl; try exact I; congruence]). }
    destruct Hgf as [-> Hagree]. split; [exact Hfa|]. split; [exact Hagree|].
    split; [discriminate|]. intros m' [= <-]. reflexivity.
  - intros [= <-]. exists a. simpl. split; [reflexivity|].
    split; [apply access_agrees_self|]. split; [reflexivity|discriminate].
Qed.

Lemma set_accesses_agree (a : access_mode) (fs out : list CSRField.t) :
  set_accesses a fs = Ok out ->
  Forall2 (fun f g => exists m, CSRField.access g = Some m /\ access_agrees a m
                                /\ (CSRField.access f = None -> m = a)
                                /\ (forall m', CSRField.access f = Some m' -> m = m'))
          fs out.
Proof.
  revert out. induction fs as [|f fs IH]; intros out.
  - simpl. intros [= <-]. constructor.
  - intros H. apply set_accesses_cons_inv in H.
    destruct H as (g & gs & Hg & _ & Hgs & ->).
    constructor; [|apply IH; exact Hgs].
    apply set_field_access_agrees. exact Hg.
Qed.

Lemma set_accesses_conflict (a : access_mode) (fs : list CSRField.t)
      (f : CSRField.t) (m : access_mode) :
  f ∈ fs -> CSRField.access f = Some m -> ~ access_agrees a m ->
  raises (set_accesses a fs).
Proof.
  intros Hin Hm Hbad. induction fs as [|g fs IH]; [inversion Hin|].
  simpl. unfold_bind.
  destruct (set_field_access a g) as [g'|e] eqn:Hg; [|exact I].
  destruct (setattr_field g') as [[]|e]; [|exact I].
  apply elem_of_cons in Hin. destruct Hin as [->|Hin].
  - exfalso. destruct (set_field_access_agrees _ _ _ Hg) as (m0 & _ & Hag & _ & Hsame).
    rewrite (Hsame m Hm) in Hag. contradiction.
  - specialize (IH Hin). destruct (set_accesses a fs); [contradiction|exact I].
Qed.

(** X5. In an aggregate that was built, every field has an access
    mode that agrees with the access of the aggregate (read-only under
    read-only, not read-only under read-write); a field declared
    without one has the access of the aggregate, a field declared with
    one keeps it.  A field list with a field whose declared access does
    not agree is never built. *)
Theorem init_access_modes (fs : list CSRField.t) (access : access_mode) :
  (forall agg, init fs access = Ok agg ->
     Forall2 (fun f g =>
                exists m, CSRField.access g = Some m /\ access_agrees access m
                          /\ (CSRField.access f = None -> m = access)
                          /\ (forall m', CSRField.access f = Some m' -> m = m'))
             fs (fields agg))
  /\ (forall f m, f ∈ fs -> CSRField.access f = Some m -> ~ access_agrees access m ->
        raises (init fs access)).
Proof.
  split.
  - intros agg Hinit. destruct (init_inversion _ _ _ Hinit) as (c & out & _ & Hchk & Hacc).
    pose proof (check_ordering_overlap_from_access _ _ _ _ Hchk) as Hsame.
    pose proof (set_accesses_agree _ _ _ Hacc) as Hag.
    revert Hag. generalize (fields agg) as gs. clear Hchk Hacc Hinit.
    induction Hsame as [|f g fs out Hfg _ IH]; intros gs Hag.
    + inversion Hag. constructor.
    + inversion Hag as [|? h ? hs (m & Hh & Hagree & Hnone & Hsome) Hrest]; subst.
      constructor; [|apply IH; exact Hrest].
      exists m. rewrite <- Hfg. auto.
  - intros f m Hin Hm Hbad. unfold init, check_ordering_overlap. unfold_bind.
    destruct (check_names fs); [|exact I].
    destruct (check_ordering_overlap_from 0 fs) as [[c out]|e] eqn:Hchk; [|exact I].
    simpl.
    pose proof (check_ordering_overlap_from_access _ _ _ _ Hchk) as Hsame.
    assert (Hg : exists g, g ∈ out /\ CSRField.access g = Some m).
    { clear Hchk. induction Hsame as [|f0 g0 fs out Hfg _ IH]; [inversion Hin|].
      apply elem_of_cons in Hin. destruct Hin as [->|Hin].
      - exists g0. split; [left|congruence].
      - destruct (IH Hin) as (g & Hg & Hgm). exists g. split; [right; exact Hg|exact Hgm]. }
    destruct Hg as (g & Hg & Hgm).
    pose proof (set_accesses_conflict access out g m Hg Hgm Hbad) as Hraise.
    destruct (set_accesses access out); [contradiction|exact I].
Qed.

Lemma init_access_modes_witness :
  raises (init [fld "en" 1 None 1;
                CSRField.mk "go" 1 None 0 (Some write_only) false] read_only)
  /\ Forall2 (fun f g =>
                exists m, CSRField.access g = Some m /\ access_agrees read_write m
                          /\ (CSRField.access f = None -> m = read_write)
                          /\ (forall m', CSRField.access f = Some m' -> m = m'))
             [fld "en" 1 None 1; CSRField.mk "go" 1 None 0 (Some write_only) false]
             [CSRField.mk "en" 1 (Some 0) 1 (Some read_write) false;
              CSRField.mk "go" 1 (Some 1) 0 (Some write_only) false].
Proof.
  split.
  - apply (proj2 (init_access_modes _ read_only)
             (CSRField.mk "go" 1 None 0 (Some write_only) false) write_only).
    + right. left.
    + reflexivity.
    + simpl. discriminate.
  - apply (proj1 (init_access_modes
                    [fld "en" 1 None 1; CSRField.mk "go" 1 None 0 (Some write_only) false]
                    read_write)
             (CSRFieldAggregate.mk
                [CSRField.mk "en" 1 (Some 0) 1 (Some read_write) false;
                 CSRField.mk "go" 1 (Some 1) 0 (Some write_only) false])).
    reflexivity.
Defined.

(** X6. Validation is stable: the fields that [check_ordering_overlap]
    returns, with the offsets it has written into them, pass it again
    unchanged and with the same final cursor. *)
Theorem check_ordering_overlap_stable
        (c : Z) (fs : list CSRField.t) (c' : Z) (out : list CSRField.t) :
  check_ordering_overlap_from c fs = Ok (c', out) ->
  check_ordering_overlap_from c out = Ok (c', out).
Proof.
  revert c c' out. induction fs as [|f fs IH]; intros c c' out; simpl.
  - intros [= <- <-]. reflexivity.
  - destruct (CSRField.offset f) as [o|] eqn:Hoff.
    + destruct (Z.ltb_spec o c); [discriminate|]. unfold_bind.
      destruct (check_ordering_overlap_from _ fs) as [[c1 o1]|e] eqn:Hr; [|discriminate].
      simpl. intros [= <- <-]. simpl. rewrite Hoff.
      destruct (Z.ltb_spec o c); [lia|]. rewrite (IH _ _ _ Hr). reflexivity.
    + unfold_bind.
      destruct (check_ordering_overlap_from _ fs) as [[c1 o1]|e] eqn:Hr; [|discriminate].
      simpl. intros [= <- <-]. simpl.
      destruct (Z.ltb_spec c c); [lia|]. rewrite (IH _ _ _ Hr). reflexivity.
Qed.

Lemma check_ordering_overlap_stable_witness :
  check_ordering_overlap_from 0 [fld "en" 1 (Some 0) 1; fld "mode" 3 (Some 4) 5]
  = Ok (7, [fld "en" 1 (Some 0) 1; fld "mode" 3 (Some 4) 5]).
Proof.
  apply (check_ordering_overlap_stable 0 [fld "en" 1 None 1; fld "mode" 3 (Some 4) 5]).
  reflexivity.
Defined.

End FieldAggregateFacts.

(** ** The simple CSRs of a register *)

Section SimpleCsrFacts.
Import SplitSpec StorageSpec ExtraSpec.

Lemma word_count_bounds (size busword n : Z) :
  1 <= busword -> 0 <= n < size ->
  0 <= n / busword < word_count size busword.
Proof.
  intros Hb Hn. pose proof (ceil_div_spec size busword Hb) as [_ Hhi].
  fold (word_count size busword) in Hhi.
  pose proof (Z.div_mod n busword ltac:(lia)) as Hdm.
  pose proof (Z.mod_pos_bound n busword ltac:(lia)) as Hm.
  split; [apply Z.div_pos; lia|]. nia.
Qed.

Lemma in_reversed_range (n i : Z) : In i (reversed_range n) <-> 0 <= i < n.
Proof.
  unfold reversed_range. rewrite <- in_rev, <- list_elem_of_In, elem_of_seqZ. lia.
Qed.

(** X7. Every bit of the value of a status register can be read: bit
    [n] of the status is bit [n mod busword] of the read data of the
    simple CSR of index [n / busword]. *)
Theorem status_bits_readable
        (self : CSRStatus.t) (busword : Z) (sl : list slot) (status n : Z) :
  1 <= busword ->
  CSRStatus.do_finalize self busword = Ok sl ->
  0 <= n < CSRStatus.size self ->
  exists s, In s sl /\ index s = n / busword
            /\ Z.testbit (wire_value status s) (n mod busword) = Z.testbit status n.
Proof.
  intros Hb Hfin Hn. unfold CSRStatus.do_finalize, py_floordiv in Hfin.
  destruct (Z.eqb_spec busword 0); [lia|]. unfold_bind. injection Hfin as <-.
  fold (word_count (CSRStatus.size self) busword).
  pose proof (word_count_bounds _ _ _ Hb Hn) as Hq.
  pose proof (Z.div_mod n busword ltac:(lia)) as Hdm.
  pose proof (Z.mod_pos_bound n busword ltac:(lia)) as Hm.
  exists (CSRStatus.make_slot self busword
            (word_count (CSRStatus.size self) busword) (n / busword)).
  split; [apply in_map, in_reversed_range; exact Hq|]. split; [reflexivity|].
  unfold wire_value. cbn [CSRStatus.make_slot sc read CSR.size].
  rewrite testbit_truncate, testbit_slice by lia.
  replace (n mod busword + n / busword * busword) with n by lia.
  replace (n mod busword <? _) with true by (symmetry; apply Z.ltb_lt; nia).
  replace (n mod busword <? _) with true by (symmetry; apply Z.ltb_lt; nia).
  rewrite !andb_true_r. reflexivity.
Qed.

Lemma status_bits_readable_witness :
  exists s, In s [mkslot 2 (CSR.mk 4 "status2") 16 20 (WSlice 16 20) NoWrite;
                  mkslot 1 (CSR.mk 8 "status1") 8 16 (WSlice 8 16) NoWrite;
                  mkslot 0 (CSR.mk 8 "status0") 0 8 (WSlice 0 8) NoWrite]
            /\ index s = 17 / 8
            /\ Z.testbit (wire_value 0xA5A5A s) (17 mod 8) = Z.testbit 0xA5A5A 17.
Proof.
  apply (status_bits_readable (CSRStatus.mk 20 "status" 0) 8); [lia|reflexivity|simpl; lia].
Defined.

Lemma word_count_single (size busword : Z) :
  1 <= size <= busword -> word_count size busword = 1.
Proof.
  intros H. unfold word_count. symmetry.
  apply (Z.div_unique _ _ 1 (size - 1)); lia.
Qed.

Lemma word_count_several (size busword : Z) :
  1 <= busword < size -> 1 < word_count size busword.
Proof.
  intros H. pose proof (ceil_div_spec size busword ltac:(lia)) as [_ Hhi].
  fold (word_count size busword) in Hhi. nia.
Qed.

(** X8. The names of the simple CSRs.  A status register that fits one
    bus word gives one simple CSR with the name of the register, a
    wider one gives the name followed by the index of each word.  A
    storage register always appends the index, also when it fits one
    bus word. *)
Theorem simple_csr_names (size busword : Z) :
  1 <= size -> 1 <= busword ->
  (forall (self : CSRStatus.t) sl,
      CSRStatus.size self = size ->
      CSRStatus.do_finalize self busword = Ok sl ->
      map (fun s => CSR.name (sc s)) sl
      = if size <=? busword then [CSRStatus.name self]
        else map (fun i => CSRStatus.name self +:+ str i)
                 (reversed_range (word_count size busword)))
  /\ (forall (self : CSRStorage.t) hw,
        CSRStorage.size self = size ->
        CSRStorage.do_finalize self busword = Ok hw ->
        map (fun s => CSR.name (sc s)) (CSRStorage.slots hw)
        = map (fun i => CSRStorage.name self +:+ str i)
              (reversed_range (word_count size busword))).
Proof.
  intros Hs Hb. split.
  - intros self sl <- Hfin. unfold CSRStatus.do_finalize, py_floordiv in Hfin.
    destruct (Z.eqb_spec busword 0); [lia|]. unfold_bind. injection Hfin as <-.
    fold (word_count (CSRStatus.size self) busword). rewrite map_map.
    destruct (Z.leb_spec (CSRStatus.size self) busword).
    + rewrite word_count_single by lia. reflexivity.
    + pose proof (word_count_several (CSRStatus.size self) busword ltac:(lia)) as Hn.
      apply map_ext. intros i. cbn [CSRStatus.make_slot sc CSR.name].
      destruct (Z.ltb_spec 1 (word_count (CSRStatus.size self) busword)); [reflexivity|lia].
  - intros self hw <- Hfin.
    rewrite (do_finalize_hardware self busword hw ltac:(lia) Hfin), map_map.
    pose proof (ceil_div_spec (CSRStorage.size self) busword Hb) as [_ Hhi].
    fold (word_count (CSRStorage.size self) busword) in Hhi.
    apply map_ext. intros i. cbn [CSRStorage.make_slot sc CSR.name].
    destruct (Z.eqb_spec (word_count (CSRStorage.size self) busword) 0); [nia|reflexivity].
Qed.

Lemma simple_csr_names_witness :
  map (fun s => CSR.name (sc s))
      [mkslot 0 (CSR.mk 8 "ctrl") 0 8 (WSlice 0 8) NoWrite] = ["ctrl"]
  /\ map (fun s => CSR.name (sc s))
         [mkslot 0 (CSR.mk 8 "ctrl0") 0 8 (WSlice 0 8) (ToStorage 0 8)] = ["ctrl0"].
Proof.
  destruct (simple_csr_names 8 8 ltac:(lia) ltac:(lia)) as [Hst Hsto]. split.
  - apply (Hst (CSRStatus.mk 8 "ctrl" 0)); reflexivity.
  - apply (Hsto (CSRStorage.mk 8 "ctrl" 0 false false 0)
                (CSRStorage.mkhw [mkslot 0 (CSR.mk 8 "ctrl0") 0 8 (WSlice 0 8) (ToStorage 0 8)]
                                 None 0)); reflexivity.
Defined.

(** X9. A register that a constructor has returned always has a word
    to split: on a bus of width at least 1, [do_finalize] of such a
    status or storage register returns with at least one simple CSR; in
    particular the storage register never fails on the variable [sc]
    that a loop without iterations would leave unassigned. *)
Theorem constructed_register_has_words (busword : Z) :
  1 <= busword ->
  (forall (size reset : Z) (fs : list CSRField.t) (name traced : option string)
          (reg : CSRStatus.t),
      CSRStatus_init size reset fs name traced = Ok reg ->
      exists s sl, CSRStatus.do_finalize reg busword = Ok (s :: sl))
  /\ (forall (size reset : Z) (fs : list CSRField.t) (aw wd : bool) (ab : Z)
             (name traced : option string) (reg : CSRStorage.t),
        CSRStorage_init size reset fs aw wd ab name traced = Ok reg ->
        exists hw s sl, CSRStorage.do_finalize reg busword = Ok hw
                        /\ CSRStorage.slots hw = s :: sl).
Proof.
  intros Hb.
  assert (Hwords : forall (sz : Z) (mk_slot : Z -> slot),
             1 <= sz ->
             exists s sl, map mk_slot (reversed_range ((sz + busword - 1) / busword))
                          = s :: sl).
  { intros sz mk_slot Hsz.
    pose proof (ceil_div_spec sz busword Hb) as [_ Hup].
    assert (Hn : 1 <= (sz + busword - 1) / busword) by nia.
    destruct (map mk_slot _) as [|s sl] eqn:Hmap; [|eauto].
    apply (f_equal (@length slot)) in Hmap.
    rewrite length_map in Hmap. unfold reversed_range in Hmap.
    rewrite length_rev, length_seqZ in Hmap. simpl in Hmap. lia. }
  split.
  - intros size reset fs name traced reg Hreg.
    apply CSRStatus_init_size in Hreg.
    unfold CSRStatus.do_finalize, py_floordiv.
    destruct (Z.eqb_spec busword 0); [lia|]. unfold_bind.
    destruct (Hwords (CSRStatus.size reg)
                (CSRStatus.make_slot reg busword
                   ((CSRStatus.size reg + busword - 1) / busword)) Hreg)
      as (s & sl & ->).
    eauto.
  - intros size reset fs aw wd ab name traced reg Hreg.
    apply CSRStorage_init_size in Hreg. destruct Hreg as (Hreg & _).
    unfold CSRStorage.do_finalize, py_floordiv.
    destruct (Z.eqb_spec busword 0); [lia|]. unfold_bind.
    destruct (Hwords (CSRStorage.size reg)
                (CSRStorage.make_slot reg busword
                   ((CSRStorage.size reg + busword - 1) / busword)) Hreg)
      as (s & sl & ->).
    destruct (last (s :: sl)) as [l|] eqn:Hlast.
    + eexists _, s, sl. split; reflexivity.
    + apply last_None in Hlast. discriminate.
Qed.

Lemma constructed_register_has_words_witness :
  (exists s sl, CSRStatus.do_finalize (CSRStatus.mk 20 "status" 0) 8 = Ok (s :: sl))
  /\ (exists hw s sl,
        CSRStorage.do_finalize (CSRStorage.mk 20 "ctrl" 5 true false 2) 8 = Ok hw
        /\ CSRStorage.slots hw = s :: sl).
Proof.
  destruct (constructed_register_has_words 8 ltac:(lia)) as [Hst Hsto].
  split.
  - apply (Hst 20 0 [] (Some "status") None). reflexivity.
  - apply (Hsto 20 5 [] true false 2 (Some "ctrl") None). reflexivity.
Defined.

(** X10. On a register that fits one bus word the atomic-write flag
    changes nothing: the statements emitted are those of the same
    register without the flag, with no back-buffer. *)
Theorem atomic_write_single_word
        (size busword reset ab : Z) (name : string) (wd : bool) :
  1 <= size <= busword ->
  CSRStorage.do_finalize (CSRStorage.mk size name reset true wd ab) busword
  = CSRStorage.do_finalize (CSRStorage.mk size name reset false wd ab) busword
  /\ exists s, CSRStorage.do_finalize (CSRStorage.mk size name reset true wd ab) busword
               = Ok (CSRStorage.mkhw [s] None 0)
               /\ write s = ToStorage 0 size.
Proof.
  intros Hs. unfold CSRStorage.do_finalize, py_floordiv.
  destruct (Z.eqb_spec busword 0); [lia|]. unfold_bind. cbn [CSRStorage.size].
  fold (word_count size busword). rewrite word_count_single by exact Hs.
  split; [reflexivity|]. eexists. split; [reflexivity|].
  cbn [write CSRStorage.make_slot]. simpl. f_equal; lia.
Qed.

Lemma atomic_write_single_word_witness :
  CSRStorage.do_finalize (CSRStorage.mk 8 "ctrl" 0 true false 0) 32
  = CSRStorage.do_finalize (CSRStorage.mk 8 "ctrl" 0 false false 0) 32.
Proof.
  apply (proj1 (atomic_write_single_word 8 32 0 0 "ctrl" false ltac:(lia))).
Defined.

End SimpleCsrFacts.

(** ** The storage register over clock edges *)

Section StorageFacts.
Import CSRStorage StorageSpec ExtraSpec.

Lemma slice_ext (x y l h : Z) :
  0 <= l ->
  (forall n, l <= n < h -> Z.testbit x n = Z.testbit y n) ->
  Bits.slice x l h = Bits.slice y l h.
Proof.
  intros Hl Hbits. apply Z.bits_inj'. intros n Hn. rewrite !testbit_slice by lia.
  destruct (Z.ltb_spec n (h - l)); [|rewrite !andb_false_r; reflexivity].
  rewrite Hbits by lia. reflexivity.
Qed.

Lemma dev_write_backstore (self : t) (inp : inputs) (st : state) :
  backstore (dev_write self inp st) = backstore st.
Proof. unfold dev_write. destruct (write_from_dev self && we inp); reflexivity. Qed.

(** The edge on which only the simple CSR of index [i] is strobed, in
    a register that writes its words directly. *)
Lemma sync_step_plain_write (self : t) (busword : Z) (hw : hardware)
      (inp : inputs) (st : state) (i : Z) :
  0 < busword ->
  (1 <? word_count (size self) busword) && atomic_write self = false ->
  do_finalize self busword = Ok hw ->
  0 <= i < word_count (size self) busword ->
  strobes_only inp i ->
  sync_step self busword hw inp st
  = mkstate
      (Bits.slice_assign (storage_full (dev_write self inp st))
         (i * busword) (i * busword + Z.min (size self - i * busword) busword)
         (Bits.truncate (Z.min (size self - i * busword) busword) (sc_r inp i)))
      (backstore st) (sc_re inp (re_source hw)).
Proof.
  intros Hb Hflag Hfin Hi Hstrobe. unfold sync_step.
  rewrite (do_finalize_hardware _ _ _ Hb Hfin).
  rewrite (fold_write_slot_only _ _ _ _ _ _ i Hi Hstrobe).
  unfold write_slot. cbn [index sc write make_slot CSR.size].
  destruct Hstrobe as [-> _]. rewrite Hflag.
  cbn [storage_full backstore]. rewrite dev_write_backstore. reflexivity.
Qed.

(** X11. In a storage register that writes its words directly (no
    atomic write, or a single word), a write to one simple CSR replaces
    the bits of the stored value that this CSR covers by the write data
    and leaves every other bit as the design write, if any, or the old
    value has it; the CSR then reads back what was written, when it lies
    at or above the alignment. *)
Theorem plain_write_updates_covered_bits
        (self : t) (busword : Z) (hw : hardware) (inp : inputs) (st : state) (s : slot) :
  0 < busword ->
  (1 <? word_count (size self) busword) && atomic_write self = false ->
  do_finalize self busword = Ok hw ->
  In s (slots hw) ->
  strobes_only inp (index s) ->
  (forall n, 0 <= n ->
     Z.testbit (storage_full (sync_step self busword hw inp st)) n
     = if (lo s <=? n) && (n <? hi s)
       then Z.testbit (sc_r inp (index s)) (n - lo s)
       else Z.testbit (storage_full (dev_write self inp st)) n)
  /\ (write_from_dev self && we inp = false ->
      storage_full (dev_write self inp st) = storage_full st)
  /\ backstore (sync_step self busword hw inp st) = backstore st
  /\ (alignment_bits self <= lo s ->
      slot_w (sync_step self busword hw inp st) s
      = Bits.truncate (hi s - lo s) (sc_r inp (index s))).
Proof.
  intros Hb Hflag Hfin Hin Hstrobe.
  destruct (in_slots_make_slot _ _ _ _ Hb Hfin Hin) as [Hs Hi].
  set (i := index s) in *.
  assert (Hlo : lo s = i * busword) by (rewrite Hs; reflexivity).
  assert (Hhi : hi s = i * busword + Z.min (size self - i * busword) busword)
    by (rewrite Hs; reflexivity).
  rewrite (sync_step_plain_write _ _ _ _ _ i Hb Hflag Hfin Hi Hstrobe).
  cbn [storage_full backstore]. rewrite <- Hhi.
  replace (Z.min (size self - i * busword) busword) with (hi s - lo s) by lia.
  rewrite <- Hlo.
  assert (Hbits : forall n, 0 <= n ->
            Z.testbit (Bits.slice_assign (storage_full (dev_write self inp st))
                         (lo s) (hi s) (Bits.truncate (hi s - lo s) (sc_r inp i))) n
            = if (lo s <=? n) && (n <? hi s)
              then Z.testbit (sc_r inp i) (n - lo s)
              else Z.testbit (storage_full (dev_write self inp st)) n).
  { intros n Hn. rewrite testbit_slice_assign by nia.
    destruct (Z.leb_spec (lo s) n), (Z.ltb_spec n (hi s)); simpl; try reflexivity.
    rewrite testbit_truncate by lia.
    replace (n - lo s <? hi s - lo s) with true by (symmetry; apply Z.ltb_lt; lia).
    apply andb_true_r. }
  split; [exact Hbits|]. split.
  { intros Hdev. unfold dev_write. rewrite Hdev. reflexivity. }
  split; [reflexivity|].
  intros Ha. subst i. rewrite Hs at 1. rewrite <- Hs.
  pose proof (read_above_alignment self busword (word_count (size self) busword)
                (index s) (mkstate
                   (Bits.slice_assign (storage_full (dev_write self inp st))
                      (lo s) (hi s) (Bits.truncate (hi s - lo s) (sc_r inp (index s))))
                   (backstore st) (sc_re inp (re_source hw)))) as Hrd.
  cbn zeta in Hrd. rewrite <- Hs in Hrd. rewrite Hrd by exact Ha.
  cbn [storage_full]. apply Z.bits_inj'. intros n Hn.
  rewrite testbit_slice, Hbits, testbit_truncate by lia.
  destruct (Z.ltb_spec n (hi s - lo s)).
  - replace ((lo s <=? n + lo s) && (n + lo s <? hi s)) with true
      by (symmetry; apply andb_true_iff; split; [apply Z.leb_le|apply Z.ltb_lt]; lia).
    replace (n + lo s - lo s) with n by lia. reflexivity.
  - rewrite !andb_false_r. reflexivity.
Qed.

Lemma plain_write_updates_covered_bits_witness :
  do_finalize reg16 8 = Ok hw16
  /\ slot_w (sync_step reg16 8 hw16 (bus_write 1 0xAB) (mkstate 0x1234 0 false))
            (mkslot 1 (CSR.mk 8 "cfg1") 8 16 (WSlice 8 16) (ToStorage 8 16))
     = Bits.truncate (16 - 8) 0xAB.
Proof.
  split; [reflexivity|].
  refine (proj2 (proj2 (proj2
            (plain_write_updates_covered_bits reg16 8 hw16 (bus_write 1 0xAB)
               (mkstate 0x1234 0 false)
               (mkslot 1 (CSR.mk 8 "cfg1") 8 16 (WSlice 8 16) (ToStorage 8 16))
               eq_refl eq_refl eq_refl _ _))) _).
  - left. reflexivity.
  - split; [reflexivity|]. intros j Hj. simpl. apply Z.eqb_neq. exact Hj.
  - simpl. lia.
Defined.

(** The index of the simple CSR whose strobe drives [re] is 0. *)
Lemma re_source_zero (self : t) (busword : Z) (hw : hardware) :
  0 < busword -> do_finalize self busword = Ok hw -> re_source hw = 0.
Proof.
  intros Hb. unfold do_finalize, py_floordiv.
  destruct (Z.eqb_spec busword 0); [lia|]. unfold_bind.
  fold (word_count (size self) busword).
  destruct (Z.le_gt_cases (word_count (size self) busword) 0) as [Hle|Hgt].
  - unfold reversed_range. rewrite seqZ_nil by exact Hle. discriminate.
  - rewrite (reversed_range_split _ 0) by lia. rewrite map_app. cbn [map].
    rewrite (seqZ_nil 0 0) by lia. cbn [rev map]. rewrite last_snoc.
    intros [= <-]. reflexivity.
Qed.

(** X12. The write strobe [re] of a storage register is, after each
    clock edge, the strobe that the simple CSR of index 0 had during the
    cycle, whatever the other simple CSRs and the design did. *)
Theorem re_follows_word_zero
        (self : t) (busword : Z) (hw : hardware) (inp : inputs) (st : state) :
  0 < busword ->
  do_finalize self busword = Ok hw ->
  re (sync_step self busword hw inp st) = sc_re inp 0.
Proof.
  intros Hb Hfin. unfold sync_step. cbn [re].
  rewrite (re_source_zero _ _ _ Hb Hfin). reflexivity.
Qed.

Lemma re_follows_word_zero_witness :
  re (sync_step reg16 8 hw16 (bus_write 1 0xAB) (mkstate 0x1234 0 true)) = false
  /\ re (sync_step reg16 8 hw16 (bus_write 0 0xAB) (mkstate 0x1234 0 false)) = true.
Proof.
  split.
  - apply (re_follows_word_zero reg16 8 hw16 (bus_write 1 0xAB)); reflexivity.
  - apply (re_follows_word_zero reg16 8 hw16 (bus_write 0 0xAB)); reflexivity.
Defined.

Lemma fold_write_slot_idle (self : t) (busword nwords : Z) (inp : inputs)
      (old nxt : state) (l : list Z) :
  (forall j, sc_re inp j = false) ->
  fold_left (write_slot self busword inp old)
            (map (make_slot self busword nwords) l) nxt = nxt.
Proof.
  intros Hidle. apply fold_left_noop. intros s b Hin.
  apply write_slot_not_strobed. apply Hidle.
Qed.

Lemma shifted_value_range (v w a : Z) :
  0 <= a <= w -> 0 <= Z.shiftl (Bits.truncate (w - a) v) a < 2 ^ w.
Proof.
  intros Ha. pose proof (truncate_range (w - a) v) as Hr.
  rewrite Z.max_r in Hr by lia. rewrite Z.shiftl_mul_pow2 by lia.
  replace (2 ^ w) with (2 ^ (w - a) * 2 ^ a)
    by (rewrite <- Z.pow_add_r by lia; f_equal; lia).
  pose proof (Z.pow_pos_nonneg 2 a ltac:(lia) ltac:(lia)). nia.
Qed.

(** X13. When the design asserts [we] and no simple CSR is strobed,
    the stored value becomes [dat_w] shifted up by the alignment: the
    [storage] signal then shows [dat_w], the bits below the alignment
    are zero, and [read()] returns the stored value. *)
Theorem design_write_sets_storage
        (self : t) (busword : Z) (hw : hardware) (inp : inputs) (st : state) :
  write_from_dev self = true ->
  we inp = true ->
  (forall j, sc_re inp j = false) ->
  0 < busword ->
  do_finalize self busword = Ok hw ->
  0 <= alignment_bits self <= size self ->
  storage_full (sync_step self busword hw inp st)
  = Z.shiftl (Bits.truncate (size self - alignment_bits self) (dat_w inp))
             (alignment_bits self)
  /\ storage_view self (sync_step self busword hw inp st)
     = Bits.truncate (size self - alignment_bits self) (dat_w inp)
  /\ Bits.slice (storage_full (sync_step self busword hw inp st))
                0 (alignment_bits self) = 0
  /\ CSRStorage_read self (sync_step self busword hw inp st)
     = Ok (storage_full (sync_step self busword hw inp st))
  /\ backstore (sync_step self busword hw inp st) = backstore st.
Proof.
  intros Hwd Hwe Hidle Hb Hfin Ha.
  assert (Hstep : sync_step self busword hw inp st
                  = mkstate
                      (Z.shiftl (Bits.truncate (size self - alignment_bits self) (dat_w inp))
                                (alignment_bits self))
                      (backstore st) (sc_re inp (re_source hw))).
  { unfold sync_step. rewrite (do_finalize_hardware _ _ _ Hb Hfin).
    rewrite fold_write_slot_idle by exact Hidle.
    unfold dev_write. rewrite Hwd, Hwe. cbn [andb storage_full backstore].
    rewrite truncate_small by (apply shifted_value_range; exact Ha). reflexivity. }
  rewrite Hstep. cbn [storage_full backstore].
  assert (Hview : storage_view self
                    (mkstate
                       (Z.shiftl (Bits.truncate (size self - alignment_bits self) (dat_w inp))
                                 (alignment_bits self))
                       (backstore st) (sc_re inp (re_source hw)))
                  = Bits.truncate (size self - alignment_bits self) (dat_w inp)).
  { unfold storage_view. cbn [storage_full]. rewrite slice_slice_width.
    unfold Bits.slice. rewrite Z.shiftr_shiftl_l by lia.
    replace (alignment_bits self - alignment_bits self) with 0 by lia.
    rewrite Z.shiftl_0_r. apply truncate_truncate. }
  split; [reflexivity|]. split; [exact Hview|]. split; [|split; [|reflexivity]].
  - apply Z.bits_inj'. intros n Hn. rewrite testbit_slice, Z.bits_0 by lia.
    destruct (Z.ltb_spec n (alignment_bits self - 0)); [|apply andb_false_r].
    rewrite Z.shiftl_spec_low by lia. reflexivity.
  - unfold CSRStorage_read. rewrite Hview. unfold py_shiftl.
    destruct (Z.ltb_spec (alignment_bits self) 0); [lia|reflexivity].
Qed.

Lemma design_write_sets_storage_witness :
  do_finalize reg32_dev 32 = Ok hw32_dev
  /\ storage_view reg32_dev
       (sync_step reg32_dev 32 hw32_dev (mkinputs true 0x123 (fun _ => false) (fun _ => 0))
                  (mkstate 0 0 false))
     = Bits.truncate (32 - 4) 0x123.
Proof.
  split; [reflexivity|].
  apply (proj1 (proj2 (design_write_sets_storage reg32_dev 32 hw32_dev
                         (mkinputs true 0x123 (fun _ => false) (fun _ => 0))
                         (mkstate 0 0 false)
                         eq_refl eq_refl (fun _ => eq_refl) eq_refl eq_refl
                         ltac:(simpl; lia)))).
Defined.

Lemma run_snoc (self : t) (busword : Z) (hw : hardware)
      (cycles : list inputs) (inp : inputs) (st : state) :
  run self busword hw (cycles ++ [inp]) st
  = sync_step self busword hw inp (run self busword hw cycles st).
Proof. unfold run. rewrite fold_left_app. reflexivity. Qed.

Lemma write_slot_storage_range (self : t) (busword nwords i : Z) (inp : inputs)
      (old nxt : state) :
  0 < busword -> 0 <= i < nwords ->
  (nwords - 1) * busword < size self ->
  0 <= storage_full nxt < 2 ^ size self ->
  0 <= storage_full (write_slot self busword inp old nxt
                       (make_slot self busword nwords i)) < 2 ^ size self.
Proof.
  intros Hb Hi Hlast Hsf. pose proof (pow2_bound_width _ _ Hsf) as Hsize.
  unfold write_slot. cbn [index sc write make_slot CSR.size].
  destruct (sc_re inp i); [|exact Hsf].
  destruct ((1 <? nwords) && atomic_write self).
  - destruct (Z.eqb_spec i 0) as [->|Hne]; cbn [storage_full]; [|exact Hsf].
    pose proof (truncate_range (size self)
                  (Bits.Cat [(Bits.truncate (Z.min (size self - 0 * busword) busword)
                                (sc_r inp 0),
                              Z.min (size self - 0 * busword) busword);
                             (backstore old, size self - busword)])) as Hr.
    rewrite Z.max_r in Hr by lia. exact Hr.
  - cbn [storage_full]. apply slice_assign_range; [exact Hsf|nia|nia].
Qed.

(** The stored value stays within its width over a clock edge. *)
Lemma sync_step_storage_range (self : t) (busword : Z) (hw : hardware)
      (inp : inputs) (st : state) :
  0 < busword ->
  do_finalize self busword = Ok hw ->
  0 <= storage_full st < 2 ^ size self ->
  0 <= storage_full (sync_step self busword hw inp st) < 2 ^ size self.
Proof.
  intros Hb Hfin Hsf.
  pose proof (ceil_div_spec (size self) busword ltac:(lia)) as [Hclo _].
  fold (word_count (size self) busword) in Hclo.
  unfold sync_step. rewrite (do_finalize_hardware _ _ _ Hb Hfin).
  set (nwords := word_count (size self) busword) in *.
  cbn [storage_full].
  assert (Hdev : 0 <= storage_full (dev_write self inp st) < 2 ^ size self).
  { unfold dev_write. destruct (write_from_dev self && we inp); [|exact Hsf].
    pose proof (pow2_bound_width _ _ Hsf). cbn [storage_full].
    pose proof (truncate_range (size self)
                  (Z.shiftl (Bits.truncate (size self - alignment_bits self) (dat_w inp))
                            (alignment_bits self))) as Hr.
    rewrite Z.max_r in Hr by lia. exact Hr. }
  assert (Hfold : forall l nxt,
             (forall i, In i l -> 0 <= i < nwords) ->
             0 <= storage_full nxt < 2 ^ size self ->
             0 <= storage_full
                    (fold_left (write_slot self busword inp st)
                               (map (make_slot self busword nwords) l) nxt)
             < 2 ^ size self).
  { induction l as [|i l IH]; intros nxt Hl Hnxt; [exact Hnxt|].
    cbn [map fold_left]. apply IH; [intros j Hj; apply Hl; right; exact Hj|].
    apply write_slot_storage_range; auto. apply Hl. left. reflexivity. }
  apply Hfold; [|exact Hdev].
  intros i Hin. apply in_rev, list_elem_of_In, elem_of_seqZ in Hin. lia.
Qed.

(** The back-buffer that [do_finalize] creates. *)
Lemma do_finalize_backstore (self : t) (busword : Z) (hw : hardware) (w : Z) :
  0 < busword ->
  do_finalize self busword = Ok hw ->
  backstore_bits hw = Some w ->
  w = size self - busword.
Proof.
  intros Hb. unfold do_finalize, py_floordiv.
  destruct (Z.eqb_spec busword 0); [lia|]. unfold_bind.
  destruct (last _); [|discriminate]. intros [= <-]. cbn [backstore_bits].
  destruct (_ && _); [|discriminate]. intros [= <-]. reflexivity.
Qed.

Lemma sync_step_within_widths (self : t) (busword : Z) (hw : hardware)
      (inp : inputs) (st : state) :
  0 < busword ->
  do_finalize self busword = Ok hw ->
  within_widths self hw st ->
  within_widths self hw (sync_step self busword hw inp st).
Proof.
  intros Hb Hfin [Hsf Hbs]. split.
  - apply sync_step_storage_range; assumption.
  - destruct (backstore_bits hw) as [w|] eqn:Hw; [|exact I].
    rewrite (do_finalize_backstore _ _ _ _ Hb Hfin Hw) in *.
    apply (sync_step_wf self busword hw inp st Hb Hfin). split; assumption.
Qed.

(** X14. Over any sequence of clock edges, whatever the bus and the
    design drive, the stored value stays within the width of its
    signal, for a register of any size, narrower than the bus or not;
    when [do_finalize] has created a back-buffer, the back-buffer stays
    within its width as well. *)
Theorem run_keeps_widths
        (self : t) (busword : Z) (hw : hardware) (cycles : list inputs) (st : state) :
  0 < busword ->
  do_finalize self busword = Ok hw ->
  within_widths self hw st ->
  within_widths self hw (run self busword hw cycles st).
Proof.
  intros Hb Hfin Hwf. induction cycles as [|inp cycles IH] using rev_ind.
  - exact Hwf.
  - rewrite run_snoc. apply sync_step_within_widths; assumption.
Qed.

Lemma run_keeps_widths_witness :
  within_widths reg8_wide hw8_wide
    (run reg8_wide 32 hw8_wide
         [bus_write 0 0x1FF; mkinputs true (-1) (fun _ => true) (fun _ => -5)]
         (mkstate 0x12 0 false))
  /\ within_widths reg24 hw24
       (run reg24 8 hw24
            [bus_write 2 0x1FF; mkinputs true (-1) (fun _ => true) (fun _ => -5)]
            (mkstate 0x112233 0 false)).
Proof.
  split.
  - apply run_keeps_widths; [reflexivity|reflexivity|].
    split; [simpl; lia|exact I].
  - apply run_keeps_widths; [reflexivity|reflexivity|].
    split; simpl; lia.
Defined.

(** X15. Every bit of the stored value of a storage register without
    alignment can be read: bit [n] of the stored value is bit
    [n mod busword] of the read data of the simple CSR of index
    [n / busword]. *)
Theorem storage_bits_readable
        (self : t) (busword : Z) (hw : hardware) (st : state) (n : Z) :
  1 <= busword ->
  alignment_bits self <= 0 ->
  do_finalize self busword = Ok hw ->
  0 <= n < size self ->
  exists s, In s (slots hw) /\ index s = n / busword
            /\ Z.testbit (slot_w st s) (n mod busword) = Z.testbit (storage_full st) n.
Proof.
  intros Hb Ha Hfin Hn.
  rewrite (do_finalize_hardware self busword hw ltac:(lia) Hfin).
  pose proof (word_count_bounds _ _ _ Hb Hn) as Hq.
  pose proof (Z.div_mod n busword ltac:(lia)) as Hdm.
  pose proof (Z.mod_pos_bound n busword ltac:(lia)) as Hm.
  exists (make_slot self busword (word_count (size self) busword) (n / busword)).
  split; [apply in_map, in_reversed_range; exact Hq|]. split; [reflexivity|].
  pose proof (read_above_alignment self busword (word_count (size self) busword)
                (n / busword) st) as Hrd.
  cbn zeta in Hrd. rewrite Hrd by (cbn [lo make_slot]; nia).
  cbn [lo hi make_slot]. rewrite testbit_slice by lia.
  replace (n mod busword + n / busword * busword) with n by lia.
  replace (n mod busword <? _) with true by (symmetry; apply Z.ltb_lt; nia).
  apply andb_true_r.
Qed.

Lemma storage_bits_readable_witness :
  exists s, In s (slots hw16) /\ index s = 9 / 8
            /\ Z.testbit (slot_w (mkstate 0x1234 0 false) s) (9 mod 8)
               = Z.testbit (storage_full (mkstate 0x1234 0 false)) 9.
Proof.
  apply (storage_bits_readable reg16 8 hw16 (mkstate 0x1234 0 false) 9);
    [lia|simpl; lia|reflexivity|simpl; lia].
Defined.

(** X16. The design sees the stored value without its bits below the
    alignment: [storage] is the stored value shifted down by the
    alignment, and [read()] returns the stored value with the bits below
    the alignment cleared. *)
Theorem read_drops_bits_below_alignment (self : t) (st : state) :
  0 <= alignment_bits self <= size self ->
  0 <= storage_full st < 2 ^ size self ->
  storage_view self st = Z.shiftr (storage_full st) (alignment_bits self)
  /\ CSRStorage_read self st
     = Ok (Z.ldiff (storage_full st) (Z.ones (alignment_bits self))).
Proof.
  intros Ha Hsf.
  assert (Hview : storage_view self st = Z.shiftr (storage_full st) (alignment_bits self)).
  { unfold storage_view. rewrite slice_slice_width.
    apply Z.bits_inj'. intros n Hn. rewrite testbit_slice, Z.shiftr_spec by lia.
    destruct (Z.ltb_spec n (size self - alignment_bits self)); [apply andb_true_r|].
    rewrite andb_false_r. symmetry. apply (testbit_above _ (size self)); [exact Hsf|lia]. }
  split; [exact Hview|].
  unfold CSRStorage_read, py_shiftl. rewrite Hview.
  destruct (Z.ltb_spec (alignment_bits self) 0); [lia|]. f_equal.
  apply Z.bits_inj'. intros n Hn.
  rewrite Z.ldiff_spec, Z.testbit_ones_nonneg by lia.
  destruct (Z.ltb_spec n (alignment_bits self)).
  - rewrite Z.shiftl_spec_low by lia. rewrite andb_false_r. reflexivity.
  - rewrite Z.shiftl_spec, Z.shiftr_spec by lia.
    replace (n - alignment_bits self + alignment_bits self) with n by lia.
    rewrite andb_true_r. reflexivity.
Qed.

Lemma read_drops_bits_below_alignment_witness :
  CSRStorage_read reg32_dev (mkstate 0x12345678 0 false)
  = Ok (Z.ldiff 0x12345678 (Z.ones 4)).
Proof.
  apply (proj2 (read_drops_bits_below_alignment reg32_dev (mkstate 0x12345678 0 false)
                  ltac:(simpl; lia) ltac:(simpl; lia))).
Defined.

(** *** A whole atomic write, from the highest word down to word 0 *)

Lemma strobes_only_bus_write (i v : Z) : strobes_only (bus_write i v) i.
Proof.
  split; simpl; [apply Z.eqb_refl|]. intros j Hj. apply Z.eqb_neq. exact Hj.
Qed.

Lemma dev_write_bus_write (self : t) (i v : Z) (st : state) :
  dev_write self (bus_write i v) st = st.
Proof. unfold dev_write. simpl. rewrite andb_false_r. reflexivity. Qed.

(** The edge of a bus write to a word other than word 0. *)
Lemma sync_step_high_write (self : t) (busword : Z) (hw : hardware)
      (st : state) (i v : Z) :
  0 < busword ->
  (1 <? word_count (size self) busword) && atomic_write self = true ->
  do_finalize self busword = Ok hw ->
  0 < i < word_count (size self) busword ->
  sync_step self busword hw (bus_write i v) st
  = mkstate (storage_full st)
      (Bits.slice_assign (backstore st)
         (i * busword - busword)
         (i * busword + Z.min (size self - i * busword) busword - busword)
         (Bits.truncate (Z.min (size self - i * busword) busword) v))
      (sc_re (bus_write i v) (re_source hw)).
Proof.
  intros Hb Hflag Hfin Hi. unfold sync_step.
  rewrite (do_finalize_hardware _ _ _ Hb Hfin).
  rewrite (fold_write_slot_only self busword (word_count (size self) busword)
             _ _ _ i ltac:(lia) (strobes_only_bus_write i v)).
  rewrite dev_write_bus_write.
  unfold write_slot. cbn [index sc write make_slot CSR.size bus_write sc_re sc_r].
  rewrite Z.eqb_refl, Hflag. destruct (Z.eqb_spec i 0); [lia|]. reflexivity.
Qed.

Lemma testbit_Cat_pair (r w b wb k : Z) :
  0 <= w -> 0 <= k ->
  Z.testbit (Bits.Cat [(r, w); (b, wb)]) k
  = if k <? w then Z.testbit r k else Z.testbit b (k - w) && (k - w <? wb).
Proof.
  intros Hw Hk. cbn [Bits.Cat].
  rewrite Z.lor_spec, testbit_truncate by lia.
  destruct (Z.ltb_spec k w).
  - rewrite Z.shiftl_spec_low by lia. rewrite andb_true_r, orb_false_r. reflexivity.
  - rewrite Z.shiftl_spec by lia.
    rewrite Z.lor_spec, testbit_truncate, Z.shiftl_0_l, Z.bits_0 by lia.
    rewrite andb_false_r, orb_false_r. reflexivity.
Qed.

(** The edge of a bus write to word 0: the bits of the stored value. *)
Lemma sync_step_low_write_bits (self : t) (busword : Z) (hw : hardware)
      (st : state) (v k : Z) :
  0 < busword ->
  (1 <? word_count (size self) busword) && atomic_write self = true ->
  do_finalize self busword = Ok hw ->
  busword < size self ->
  0 <= k < size self ->
  Z.testbit (storage_full (sync_step self busword hw (bus_write 0 v) st)) k
  = if k <? busword then Z.testbit v k else Z.testbit (backstore st) (k - busword).
Proof.
  intros Hb Hflag Hfin Hsize Hk.
  assert (Hn : 1 < word_count (size self) busword)
    by (apply andb_true_iff in Hflag; destruct Hflag as [H _]; apply Z.ltb_lt; exact H).
  unfold sync_step. rewrite (do_finalize_hardware _ _ _ Hb Hfin).
  rewrite (fold_write_slot_only self busword (word_count (size self) busword)
             _ _ _ 0 ltac:(lia) (strobes_only_bus_write 0 v)).
  rewrite dev_write_bus_write.
  unfold write_slot. cbn [index sc write make_slot CSR.size bus_write sc_re sc_r].
  rewrite Z.eqb_refl, Hflag. cbn [Z.eqb storage_full].
  replace (Z.min (size self - 0 * busword) busword) with busword by lia.
  rewrite testbit_truncate, testbit_Cat_pair by lia.
  replace (k <? size self) with true by (symmetry; apply Z.ltb_lt; lia).
  rewrite andb_true_r. destruct (Z.ltb_spec k busword).
  - rewrite testbit_truncate by lia.
    replace (k <? busword) with true by (symmetry; apply Z.ltb_lt; lia).
    apply andb_true_r.
  - replace (k - busword <? size self - busword) with true
      by (symmetry; apply Z.ltb_lt; lia).
    apply andb_true_r.
Qed.

(** After the words [n-1] down to [n-j] have been written, the stored
    value is as before and the back-buffer holds the written words. *)
Lemma high_writes_staged (self : t) (busword : Z) (hw : hardware)
      (st : state) (d : Z -> Z) (j : nat) :
  0 < busword ->
  (1 <? word_count (size self) busword) && atomic_write self = true ->
  do_finalize self busword = Ok hw ->
  wf_state self busword st ->
  Z.of_nat j <= word_count (size self) busword - 1 ->
  let stj := run self busword hw
               (map (fun i => bus_write i (d i))
                    (rev (seqZ (word_count (size self) busword - Z.of_nat j) (Z.of_nat j))))
               st in
  storage_full stj = storage_full st
  /\ forall m, (word_count (size self) busword - Z.of_nat j - 1) * busword <= m ->
               0 <= m < size self - busword ->
               Z.testbit (backstore stj) m
               = Z.testbit (d ((m + busword) / busword)) ((m + busword) mod busword).
Proof.
  intros Hb Hflag Hfin Hwf.
  pose proof (ceil_div_spec (size self) busword ltac:(lia)) as [Hclo Hchi].
  fold (word_count (size self) busword) in Hclo, Hchi.
  set (n := word_count (size self) busword) in *.
  induction j as [|j IH]; intros Hj; cbn zeta.
  - rewrite seqZ_nil by lia. cbn [rev map run fold_left]. split; [reflexivity|].
    intros m Hm1 Hm2. nia.
  - assert (Hj' : Z.of_nat j <= n - 1) by lia.
    specialize (IH Hj'). cbn zeta in IH. destruct IH as [IHsf IHbs].
    rewrite (seqZ_cons (n - Z.of_nat (S j))) by lia.
    replace (Z.succ (n - Z.of_nat (S j))) with (n - Z.of_nat j) by lia.
    replace (Z.pred (Z.of_nat (S j))) with (Z.of_nat j) by lia.
    cbn [rev]. rewrite map_app. cbn [map]. rewrite run_snoc.
    set (i := n - Z.of_nat (S j)) in *.
    set (prev := run self busword hw
                   (map (fun i0 => bus_write i0 (d i0))
                        (rev (seqZ (n - Z.of_nat j) (Z.of_nat j)))) st) in *.
    rewrite (sync_step_high_write _ _ _ _ i (d i) Hb Hflag Hfin) by (fold n; lia).
    cbn [storage_full backstore]. split; [exact IHsf|].
    intros m Hm1 Hm2. rewrite testbit_slice_assign by nia.
    destruct (Z.leb_spec (i * busword - busword) m) as [Hl|Hl]; [|nia].
    destruct (Z.ltb_spec m (i * busword + Z.min (size self - i * busword) busword - busword))
      as [Hh|Hh]; cbn [andb].
    + rewrite testbit_truncate by lia.
      replace (m - (i * busword - busword) <? Z.min (size self - i * busword) busword)
        with true by (symmetry; apply Z.ltb_lt; lia).
      rewrite andb_true_r.
      assert (Hq : (m + busword) / busword = i)
        by (symmetry; apply (Z.div_unique _ _ i (m - (i * busword - busword))); lia).
      assert (Hr : (m + busword) mod busword = m - (i * busword - busword))
        by (symmetry; apply (Z.mod_unique _ _ i); lia).
      rewrite Hq, Hr. reflexivity.
    + apply IHbs; [|exact Hm2]. nia.
Qed.

(** An edge of a bus write to a word other than word 0 leaves the
    stored value. *)
Lemma high_writes_keep_storage (self : t) (busword : Z) (hw : hardware)
      (d : Z -> Z) (l : list Z) (st : state) :
  0 < busword ->
  (1 <? word_count (size self) busword) && atomic_write self = true ->
  do_finalize self busword = Ok hw ->
  (forall i, In i l -> 0 < i < word_count (size self) busword) ->
  storage_full (run self busword hw (map (fun i => bus_write i (d i)) l) st)
  = storage_full st.
Proof.
  intros Hb Hflag Hfin. induction l as [|i l IH] using rev_ind; intros Hl; [reflexivity|].
  rewrite map_app. cbn [map]. rewrite run_snoc.
  rewrite (sync_step_high_write _ _ _ _ i (d i) Hb Hflag Hfin)
    by (apply Hl, in_or_app; right; left; reflexivity).
  cbn [storage_full]. apply IH. intros k Hk. apply Hl, in_or_app. left. exact Hk.
Qed.

(** X17. A whole atomic write.  When the words of a register with
    atomic write are written once each from the highest index down to
    index 0, the stored value keeps its old contents until word 0 is
    written, and then holds exactly the words written: bit [k] of the
    stored value is bit [k mod busword] of the word written at index
    [k / busword]. *)
Theorem atomic_write_high_to_low
        (self : t) (busword : Z) (hw : hardware) (st : state) (d : Z -> Z) :
  atomic_write self = true ->
  0 < busword ->
  1 < word_count (size self) busword ->
  do_finalize self busword = Ok hw ->
  wf_state self busword st ->
  (forall k, 0 <= k < size self ->
     Z.testbit (storage_full
                  (run self busword hw
                       (write_high_to_low (word_count (size self) busword) d) st)) k
     = Z.testbit (d (k / busword)) (k mod busword))
  /\ (forall before rest,
        write_high_to_low (word_count (size self) busword) d = before ++ rest ->
        rest <> [] ->
        storage_full (run self busword hw before st) = storage_full st).
Proof.
  intros Hat Hb Hn Hfin Hwf.
  assert (Hflag : (1 <? word_count (size self) busword) && atomic_write self = true).
  { rewrite Hat, andb_true_r. apply Z.ltb_lt. exact Hn. }
  pose proof (ceil_div_spec (size self) busword ltac:(lia)) as [Hclo Hchi].
  fold (word_count (size self) busword) in Hclo, Hchi.
  set (n := word_count (size self) busword) in *.
  assert (Hsize : busword < size self) by nia.
  assert (Hsplit : write_high_to_low n d
                   = map (fun i => bus_write i (d i)) (rev (seqZ 1 (n - 1)))
                     ++ [bus_write 0 (d 0)]).
  { unfold write_high_to_low. rewrite (reversed_range_split n 0) by lia.
    rewrite map_app. cbn [map]. rewrite (seqZ_nil 0 0) by lia.
    replace (n - 0 - 1) with (n - 1) by lia. reflexivity. }
  split.
  - intros k Hk. rewrite Hsplit, run_snoc.
    rewrite (sync_step_low_write_bits _ _ _ _ _ k Hb Hflag Hfin Hsize Hk).
    destruct (Z.ltb_spec k busword).
    + rewrite Z.div_small, Z.mod_small by lia. reflexivity.
    + pose proof (high_writes_staged self busword hw st d (Z.to_nat (n - 1))
                    Hb Hflag Hfin Hwf ltac:(fold n; lia)) as Hst.
      cbn zeta in Hst. fold n in Hst. rewrite Z2Nat.id in Hst by lia.
      replace (n - (n - 1)) with 1 in Hst by lia.
      destruct Hst as [_ Hbs]. rewrite Hbs by lia.
      replace (k - busword + busword) with k by lia. reflexivity.
  - intros before rest Heq Hrest. rewrite Hsplit in Heq.
    destruct rest as [|x rest _] using rev_ind; [contradiction|].
    rewrite app_assoc in Heq. apply app_inj_tail in Heq. destruct Heq as [Heq _].
    assert (Hbefore : exists l, before = map (fun i => bus_write i (d i)) l
                                /\ forall i, In i l -> 0 < i < n).
    { apply map_eq_app in Heq. destruct Heq as (l1 & l2 & Hl & Hb1 & _).
      exists l1. split; [symmetry; exact Hb1|].
      intros i Hi.
      assert (Hin : In i (rev (seqZ 1 (n - 1)))) by (rewrite Hl; apply in_or_app; left; exact Hi).
      apply in_rev, list_elem_of_In, elem_of_seqZ in Hin. lia. }
    destruct Hbefore as (l & -> & Hl).
    apply high_writes_keep_storage; assumption.
Qed.

Lemma atomic_write_high_to_low_witness :
  storage_full (run reg24 8 hw24 (write_high_to_low 3 (fun i => 0xA0 + i))
                    (mkstate 0x112233 0 false))
  = 0xA2A1A0
  /\ Z.testbit 0xA2A1A0 21 = Z.testbit (0xA0 + 21 / 8) (21 mod 8).
Proof.
  split; [reflexivity|].
  apply (proj1 (atomic_write_high_to_low reg24 8 hw24 (mkstate 0x112233 0 false)
                  (fun i => 0xA0 + i) eq_refl eq_refl eq_refl eq_refl
                  ltac:(split; simpl; lia)) 21).
  simpl. lia.
Defined.

End StorageFacts.

(** ** Banks *)

Section BankFacts.
Import GenericBank SplitSpec StorageSpec ExtraSpec.

(** The loop of the bank only appends to what it has gathered. *)
Lemma gather_acc (description : list csr_description) (busword : Z) (acc : list CSR.t) :
  gather description busword acc
  = (l ← gather description busword []; Ok (acc ++ l)).
Proof.
  revert acc. induction description as [|d description IH]; intros acc.
  - simpl. unfold_bind. rewrite app_nil_r. reflexivity.
  - destruct d as [c|c|c]; simpl.
    + destruct (CSR.size c <=? busword); [|reflexivity].
      rewrite (IH (acc ++ [c])), (IH [c]). unfold_bind.
      destruct (gather description busword []); [|reflexivity].
      rewrite <- app_assoc. reflexivity.
    + unfold_bind. destruct (CSRStatus.do_finalize c busword) as [sl|e]; [|reflexivity].
      rewrite (IH (acc ++ map sc sl)), (IH (map sc sl)). unfold_bind.
      destruct (gather description busword []); [|reflexivity].
      rewrite <- app_assoc. reflexivity.
    + unfold_bind. destruct (CSRStorage.do_finalize c busword) as [hw|e]; [|reflexivity].
      rewrite (IH (acc ++ map sc (CSRStorage.slots hw))),
              (IH (map sc (CSRStorage.slots hw))). unfold_bind.
      destruct (gather description busword []); [|reflexivity].
      rewrite <- app_assoc. reflexivity.
Qed.

Lemma gather_app (d1 d2 : list csr_description) (busword : Z) (acc : list CSR.t) :
  gather (d1 ++ d2) busword acc
  = (l ← gather d1 busword acc; gather d2 busword l).
Proof.
  revert acc. induction d1 as [|d d1 IH]; intros acc; [reflexivity|].
  destruct d as [c|c|c]; simpl.
  - destruct (CSR.size c <=? busword); [apply IH|reflexivity].
  - unfold_bind. destruct (CSRStatus.do_finalize c busword); [apply IH|reflexivity].
  - unfold_bind. destruct (CSRStorage.do_finalize c busword); [apply IH|reflexivity].
Qed.

(** X18. Banks compose in the order of the description: the simple
    CSRs of a bank built from [d1 ++ d2] are those of the bank of [d1]
    followed by those of the bank of [d2]; and a description whose
    beginning fails, fails with the same error. *)
Theorem bank_of_concatenation (d1 d2 : list csr_description) (busword : Z) :
  (forall b1 b2,
      init d1 busword = Ok b1 -> init d2 busword = Ok b2 ->
      exists b, init (d1 ++ d2) busword = Ok b
                /\ simple_csrs b = simple_csrs b1 ++ simple_csrs b2)
  /\ (forall e, init d1 busword = Raise e -> init (d1 ++ d2) busword = Raise e).
Proof.
  unfold init. split.
  - intros b1 b2. rewrite gather_app. unfold_bind.
    destruct (gather d1 busword []) as [l1|e]; [|discriminate].
    rewrite (gather_acc d2 busword l1). unfold_bind.
    destruct (gather d2 busword []) as [l2|e]; [|discriminate].
    intros [= <-] [= <-]. eexists. split; reflexivity.
  - intros e. rewrite gather_app. unfold_bind.
    destruct (gather d1 busword []) as [l1|e1]; [discriminate|].
    intros [= <-]. reflexivity.
Qed.

Lemma bank_of_concatenation_witness :
  exists b, init ([DStatus (CSRStatus.mk 12 "id" 0)] ++ [DCSR (CSR.mk 1 "irq")]) 8 = Ok b
            /\ simple_csrs b
               = [CSR.mk 4 "id1"; CSR.mk 8 "id0"] ++ [CSR.mk 1 "irq"].
Proof.
  apply (proj1 (bank_of_concatenation [DStatus (CSRStatus.mk 12 "id" 0)]
                  [DCSR (CSR.mk 1 "irq")] 8)
           (GenericBank.mk [CSR.mk 4 "id1"; CSR.mk 8 "id0"] 1)
           (GenericBank.mk [CSR.mk 1 "irq"] 1)); reflexivity.
Defined.

Lemma make_slot_widths_le (busword : Z) (mk_slot : Z -> slot) (size : Z) (l : list Z) :
  (forall i, CSR.size (sc (mk_slot i)) = Z.min (size - i * busword) busword) ->
  Forall (fun c => CSR.size c <= busword) (map sc (map mk_slot l)).
Proof.
  intros Hw. induction l as [|i l IH]; simpl; constructor; [|exact IH].
  rewrite Hw. lia.
Qed.

Lemma gather_widths (description : list csr_description) (busword : Z)
      (acc scs : list CSR.t) :
  Forall (fun c => CSR.size c <= busword) acc ->
  gather description busword acc = Ok scs ->
  Forall (fun c => CSR.size c <= busword) scs.
Proof.
  revert acc. induction description as [|d description IH]; intros acc Hacc.
  - simpl. intros [= <-]. exact Hacc.
  - destruct d as [c|c|c]; simpl.
    + destruct (Z.leb_spec (CSR.size c) busword); [|discriminate].
      apply IH. apply Forall_app. split; [exact Hacc|]. constructor; [assumption|constructor].
    + unfold CSRStatus.do_finalize, py_floordiv.
      destruct (busword =? 0); [discriminate|]. unfold_bind.
      apply IH. apply Forall_app. split; [exact Hacc|].
      apply (make_slot_widths_le busword _ (CSRStatus.size c)). reflexivity.
    + unfold CSRStorage.do_finalize, py_floordiv.
      destruct (busword =? 0); [discriminate|]. unfold_bind.
      destruct (last _); [|discriminate]. cbn [CSRStorage.slots].
      apply IH. apply Forall_app. split; [exact Hacc|].
      apply (make_slot_widths_le busword _ (CSRStorage.size c)). reflexivity.
Qed.

(** X19. Every simple CSR of a bank that was built fits one bus word;
    a description with a plain CSR wider than the bus is never built. *)
Theorem bank_csrs_fit_bus (description : list csr_description) (busword : Z) :
  (forall bank, init description busword = Ok bank ->
     Forall (fun c => CSR.size c <= busword) (simple_csrs bank))
  /\ (forall c, In (DCSR c) description -> busword < CSR.size c ->
        raises (init description busword)).
Proof.
  split.
  - intros bank. unfold init. unfold_bind.
    destruct (gather description busword []) as [scs|e] eqn:Hg; [|discriminate].
    intros [= <-]. simpl. eapply gather_widths; [constructor|exact Hg].
  - intros c Hin Hwide. unfold init. unfold_bind.
    destruct (gather description busword []) as [scs|e] eqn:Hg; [|exact I].
    exfalso. apply in_split in Hin. destruct Hin as (pre & post & ->).
    rewrite gather_app in Hg. unfold_bind.
    destruct (gather pre busword []) as [l|e]; [|discriminate].
    simpl in Hg. destruct (Z.leb_spec (CSR.size c) busword); [lia|discriminate].
Qed.

Lemma bank_csrs_fit_bus_witness :
  Forall (fun c => CSR.size c <= 8) [CSR.mk 4 "id1"; CSR.mk 8 "id0"; CSR.mk 1 "irq"]
  /\ raises (init [DCSR (CSR.mk 1 "irq"); DCSR (CSR.mk 9 "wide")] 8).
Proof.
  split.
  - apply (proj1 (bank_csrs_fit_bus
                    [DStatus (CSRStatus.mk 12 "id" 0); DCSR (CSR.mk 1 "irq")] 8)
             (GenericBank.mk [CSR.mk 4 "id1"; CSR.mk 8 "id0"; CSR.mk 1 "irq"] 2)).
    reflexivity.
  - apply (proj2 (bank_csrs_fit_bus [DCSR (CSR.mk 1 "irq"); DCSR (CSR.mk 9 "wide")] 8)
             (CSR.mk 9 "wide")); [right; left; reflexivity|simpl; lia].
Defined.

Lemma gather_count (description : list csr_description) (busword : Z)
      (acc scs : list CSR.t) :
  1 <= busword ->
  Forall (fun d => 1 <= entry_size d) description ->
  gather description busword acc = Ok scs ->
  Z.of_nat (length scs)
  = Z.of_nat (length acc) + Zsum (map (entry_words busword) description).
Proof.
  intros Hb Hsz. revert acc. induction Hsz as [|d description Hd _ IH]; intros acc.
  - simpl. intros [= <-]. unfold Zsum. simpl. lia.
  - assert (Hwords : forall size, 1 <= size ->
              Z.of_nat (length (reversed_range (word_count size busword)))
              = word_count size busword).
    { intros size Hs. unfold reversed_range. rewrite length_rev, length_seqZ.
      pose proof (ceil_div_spec size busword Hb) as [_ Hhi].
      fold (word_count size busword) in Hhi. apply Z2Nat.id. nia. }
    destruct d as [c|c|c]; simpl in Hd |- *.
    + destruct (CSR.size c <=? busword); [|discriminate].
      intros Hg. rewrite (IH _ Hg), length_app. unfold Zsum. simpl. lia.
    + unfold CSRStatus.do_finalize, py_floordiv.
      destruct (Z.eqb_spec busword 0); [lia|]. unfold_bind.
      intros Hg. rewrite (IH _ Hg), length_app, !length_map.
      fold (word_count (CSRStatus.size c) busword).
      unfold Zsum. simpl. rewrite Nat2Z.inj_add, Hwords by exact Hd. lia.
    + unfold CSRStorage.do_finalize, py_floordiv.
      destruct (Z.eqb_spec busword 0); [lia|]. unfold_bind.
      destruct (last _); [|discriminate]. cbn [CSRStorage.slots].
      intros Hg. rewrite (IH _ Hg), length_app, !length_map.
      fold (word_count (CSRStorage.size c) busword).
      unfold Zsum. simpl. rewrite Nat2Z.inj_add, Hwords by exact Hd. lia.
Qed.

(** X20. The number of simple CSRs of a bank is the sum, over the
    description, of one for a plain CSR and of ceil(size / busword) for
    a status or a storage register (sizes and bus width at least 1). *)
Theorem bank_slot_count
        (description : list csr_description) (busword : Z) (bank : GenericBank.t) :
  1 <= busword ->
  Forall (fun d => 1 <= entry_size d) description ->
  init description busword = Ok bank ->
  slot_count bank = Zsum (map (entry_words busword) description)
  /\ Forall (fun d => is_ceil_div (entry_size d) busword (entry_words busword d)
                      \/ exists c, d = DCSR c) description.
Proof.
  intros Hb Hsz. unfold init. unfold_bind.
  destruct (gather description busword []) as [scs|e] eqn:Hg; [|discriminate].
  intros [= <-]. unfold slot_count. simpl. split.
  - rewrite (gather_count _ _ _ _ Hb Hsz Hg). simpl. lia.
  - apply Forall_forall. intros d _. destruct d as [c|c|c]; [right; eauto|left|left];
      apply ceil_div_spec; exact Hb.
Qed.

Lemma bank_slot_count_witness :
  slot_count (GenericBank.mk [CSR.mk 4 "id1"; CSR.mk 8 "id0"; CSR.mk 1 "irq"] 2)
  = Zsum (map (entry_words 8) [DStatus (CSRStatus.mk 12 "id" 0); DCSR (CSR.mk 1 "irq")]).
Proof.
  apply (bank_slot_count [DStatus (CSRStatus.mk 12 "id" 0); DCSR (CSR.mk 1 "irq")] 8).
  - lia.
  - repeat constructor; simpl; lia.
  - reflexivity.
Defined.

End BankFacts.

(** ** Collection: exclusion, and what a call leaves alone *)

Section CollectionFacts.
Import CollectSpec ExtraSpec.

Lemma gather_attr_excluded (cid : Z) (exclude : list string)
      (acc : list Z * store) (k : string) (v : node) :
  k ∈ exclude -> gather_attr get_csrs cid exclude acc (k, v) = acc.
Proof.
  intros Hk. unfold gather_attr. rewrite bool_decide_eq_true_2 by exact Hk. reflexivity.
Qed.

Lemma fold_gather_kept (cid : Z) (exclude : list string)
      (attrs : list (string * node)) (acc : list Z * store) :
  fold_left (gather_attr get_csrs cid exclude) (kept exclude attrs) acc
  = fold_left (gather_attr get_csrs cid exclude) attrs acc.
Proof.
  revert acc. unfold kept. induction attrs as [|[k v] attrs IH]; intros acc; [reflexivity|].
  rewrite filter_cons. cbn [fst]. destruct (decide (k ∉ exclude)) as [Hk|Hk].
  - cbn [fold_left]. apply IH.
  - cbn [fold_left]. rewrite gather_attr_excluded; [apply IH|].
    destruct (decide (k ∈ exclude)); [assumption|contradiction].
Qed.

(** X21. Excluded attributes do not take part in a collection: the
    call returns the same items and leaves the same store as on the
    component without these attributes; a component whose attributes
    are all excluded returns nothing and renames nothing. *)
Theorem excluded_attributes_are_skipped
        (cid : Z) (exclude : list string) (attrs : list (string * node)) (s : store) :
  get_csrs (Auto cid exclude attrs) s = get_csrs (Auto cid exclude (kept exclude attrs)) s
  /\ ((forall kv, kv ∈ attrs -> fst kv ∈ exclude) ->
      fst (get_csrs (Auto cid exclude attrs) s) = []
      /\ names (snd (get_csrs (Auto cid exclude attrs) s)) = names s).
Proof.
  split.
  - cbn [get_csrs]. rewrite fold_gather_kept. reflexivity.
  - intros Hall. cbn [get_csrs fst snd].
    assert (Hfold : forall acc,
               fold_left (gather_attr get_csrs cid exclude) attrs acc = acc).
    { induction attrs as [|[k v] attrs IH]; intros acc; [reflexivity|].
      cbn [fold_left]. rewrite gather_attr_excluded by (apply (Hall (k, v)); left).
      apply IH. intros kv Hkv. apply Hall. right. exact Hkv. }
    rewrite Hfold. cbn [fst snd]. split; [reflexivity|apply names_get_prefixed].
Qed.

Lemma excluded_attributes_are_skipped_witness :
  fst (get_csrs (Auto 12 ["a"] [("a", compA)]) store0) = []
  /\ names (snd (get_csrs (Auto 12 ["a"] [("a", compA)]) store0)) = names store0.
Proof.
  apply (proj2 (excluded_attributes_are_skipped 12 ["a"] [("a", compA)] store0)).
  intros kv Hkv. apply list_elem_of_singleton in Hkv. subst kv. left.
Defined.

(** An item that is not in the list keeps its name. *)
Lemma csrprefix_other_name (prefix : string) (csrs : list Z) (done : Z) (s : store) (d : Z) :
  d ∉ csrs -> names (csrprefix prefix csrs done s) !! d = names s !! d.
Proof.
  revert s. induction csrs as [|csr rest IH]; intros s Hd; [reflexivity|].
  rewrite csrprefix_cons.
  assert (csr <> d) by (intros ->; apply Hd; left).
  assert (d ∉ rest) by (intros Hr; apply Hd; right; exact Hr).
  rewrite IH by assumption.
  destruct (bool_decide (csr ∈ done_set s done)); [reflexivity|].
  cbn [names]. apply lookup_alter_ne. assumption.
Qed.

(** The sets after [csrprefix]. *)
Lemma csrprefix_done_set (prefix : string) (csrs : list Z) (done : Z) (s : store) (c : Z) :
  done_set (csrprefix prefix csrs done s) c
  = if decide (done = c) then done_set s done ∪ list_to_set csrs else done_set s c.
Proof.
  revert s. induction csrs as [|csr rest IH]; intros s.
  - cbn [csrprefix list_to_set]. destruct (decide (done = c)) as [<-|]; [|reflexivity].
    rewrite union_empty_r_L. reflexivity.
  - rewrite csrprefix_cons, IH. cbn [list_to_set].
    destruct (bool_decide (csr ∈ done_set s done)) eqn:Hin.
    + apply bool_decide_eq_true in Hin.
      destruct (decide (done = c)) as [<-|]; [|reflexivity].
      apply set_eq. intros x. rewrite !elem_of_union, elem_of_singleton.
      split; [tauto|]. intros [H|[->|H]]; tauto.
    + rewrite !done_set_insert. destruct (decide (done = done)); [|contradiction].
      destruct (decide (done = c)) as [<-|]; [|reflexivity].
      apply set_eq. intros x. rewrite !elem_of_union, elem_of_singleton. tauto.
Qed.

(** X22. What [csrprefix] does to the store.  An item of the list that
    is not in the set gets the prefix in front of its name, once, even
    if the list names it several times; an item that is in the set
    already, or not in the list, keeps its name; afterwards the set holds
    its old elements and the items of the list, and the sets of the
    other components are as before. *)
Theorem csrprefix_effect
        (prefix : string) (csrs : list Z) (done : Z) (s : store) (d : Z) :
  (forall n, d ∈ csrs -> d ∉ done_set s done -> names s !! d = Some n ->
     names (csrprefix prefix csrs done s) !! d = Some (prefix +:+ n))
  /\ (d ∈ done_set s done \/ d ∉ csrs ->
      names (csrprefix prefix csrs done s) !! d = names s !! d)
  /\ done_set (csrprefix prefix csrs done s) done = done_set s done ∪ list_to_set csrs
  /\ (forall c, c <> done -> done_set (csrprefix prefix csrs done s) c = done_set s c).
Proof.
  split; [intros n; apply csrprefix_fresh_name|].
  split; [intros [H|H]; [apply csrprefix_done_name|apply csrprefix_other_name]; exact H|].
  split.
  - rewrite csrprefix_done_set. destruct (decide (done = done)); [reflexivity|contradiction].
  - intros c Hc. rewrite csrprefix_done_set.
    destruct (decide (done = c)); [congruence|reflexivity].
Qed.

Lemma csrprefix_effect_witness :
  names (csrprefix "uart_" [1; 3; 1] 12 store0) !! 1 = Some ("uart_" +:+ "r1")
  /\ names (csrprefix "uart_" [1; 3; 1] 12 store0) !! 2 = names store0 !! 2.
Proof.
  destruct (csrprefix_effect "uart_" [1; 3; 1] 12 store0 1) as (Hfresh & _).
  destruct (csrprefix_effect "uart_" [1; 3; 1] 12 store0 2) as (_ & Hkeep & _).
  split.
  - apply Hfresh; [left| |reflexivity].
    change (1 ∉ (∅ : gset Z)). apply not_elem_of_empty.
  - apply Hkeep. right. intros Hin.
    repeat (apply elem_of_cons in Hin; destruct Hin as [Hin|Hin]; [discriminate|]).
    inversion Hin.
Defined.

Lemma collected_cons (exclude : list string) (k : string) (v : node)
      (attrs : list (string * node)) :
  collected exclude ((k, v) :: attrs)
  = (if bool_decide (k ∈ exclude) then []
     else if is_collector v then ids v else [])
    ++ collected exclude attrs.
Proof. reflexivity. Qed.

Lemma fold_gather_frame (cid : Z) (exclude : list string)
      (attrs : list (string * node)) (d : Z) :
  Forall (fun kv => forall s, d ∉ ids (snd kv) ->
                    names (snd (get_csrs (snd kv) s)) !! d = names s !! d) attrs ->
  d ∉ collected exclude attrs ->
  forall acc,
    names (snd (fold_left (gather_attr get_csrs cid exclude) attrs acc)) !! d
    = names (snd acc) !! d.
Proof.
  intros Hall. induction Hall as [|[k v] attrs Hv _ IH]; intros Hd acc; [reflexivity|].
  cbn [fold_left]. rewrite collected_cons in Hd.
  rewrite IH by (intros H; apply Hd, elem_of_app; right; exact H).
  destruct (attr_cases exclude k v) as [[Hk Hcol]|Hp].
  - rewrite gather_attr_collector by assumption. cbn [snd].
    rewrite bool_decide_eq_false_2, Hcol in Hd by exact Hk.
    assert (Hdv : d ∉ ids v) by (intros H; apply Hd, elem_of_app; left; exact H).
    rewrite csrprefix_other_name by (rewrite get_csrs_ids; exact Hdv).
    apply Hv. exact Hdv.
  - rewrite gather_attr_passive by exact Hp. reflexivity.
Qed.

Lemma collected_subset_ids (cid : Z) (exclude : list string)
      (attrs : list (string * node)) (d : Z) :
  d ∈ collected exclude attrs -> d ∈ ids (Auto cid exclude attrs).
Proof.
  intros Hd. cbn [ids]. unfold sorted_by_duid.
  rewrite (merge_sort_Permutation Z.le). fold (merged exclude attrs).
  unfold merged. induction attrs as [|[k v] attrs IH]; [inversion Hd|].
  rewrite collected_cons in Hd. cbn [map concat]. apply elem_of_app.
  apply elem_of_app in Hd. destruct Hd as [Hd|Hd]; [left|right; apply IH; exact Hd].
  unfold attr_ids. destruct (bool_decide (k ∈ exclude)); [exact Hd|].
  destruct v as [c|items|c e a|]; cbn [is_collector] in Hd;
    [inversion Hd|exact Hd|exact Hd|inversion Hd].
Qed.

Lemma get_csrs_frame (v : node) :
  forall s d, d ∉ ids v -> names (snd (get_csrs v s)) !! d = names s !! d.
Proof.
  induction v as [c|items| |cid exclude attrs IH] using node_nested_ind; intros s d Hd;
    try reflexivity.
  cbn [get_csrs snd].
  rewrite (fold_gather_frame cid exclude attrs d).
  - cbn [snd]. rewrite names_get_prefixed. reflexivity.
  - eapply Forall_impl; [exact IH|]. intros kv Hkv s0. apply Hkv.
  - intros H. apply Hd. eapply collected_subset_ids. exact H.
Qed.

(** X23. A call renames only what it collects through a nested
    collector: a register that is not among the items of a collector
    attribute that is not excluded keeps its name, in particular a
    register that is only a direct attribute of the component, and any
    register that the call does not return. *)
Theorem get_csrs_renames_only_collected
        (cid : Z) (exclude : list string) (attrs : list (string * node))
        (s : store) (d : Z) :
  (d ∉ collected exclude attrs ->
   names (snd (get_csrs (Auto cid exclude attrs) s)) !! d = names s !! d)
  /\ (d ∉ fst (get_csrs (Auto cid exclude attrs) s) -> d ∉ collected exclude attrs).
Proof.
  split.
  - intros Hd. cbn [get_csrs snd].
    rewrite (fold_gather_frame cid exclude attrs d).
    + cbn [snd]. apply (f_equal (fun m => m !! d)), names_get_prefixed.
    + apply Forall_forall. intros kv _ s0. apply get_csrs_frame.
    + exact Hd.
  - intros Hd H. apply Hd. rewrite get_csrs_ids. eapply collected_subset_ids. exact H.
Qed.

Lemma get_csrs_renames_only_collected_witness :
  names (snd (get_csrs (Auto 12 [] [("r", Csr 2); ("a", compA)]) store0)) !! 2
  = names store0 !! 2.
Proof.
  apply (proj1 (get_csrs_renames_only_collected 12 []
                  [("r", Csr 2); ("a", compA)] store0 2)).
  vm_compute. intros Hin.
  repeat (apply elem_of_cons in Hin; destruct Hin as [Hin|Hin]; [discriminate|]).
  inversion Hin.
Defined.

End CollectionFacts.
